(** * dispenso: TaskSet and ConcurrentTaskSet (dispenso/task_set.h)

    A shallow embedding of the two task-set front ends of dispenso and of
    the collaborators their inline methods call.

    The header [task_set.h] gives the bodies of [schedule] (all overloads),
    of the destructors and of [ConcurrentTaskSet::tryExecuteNext]; these
    are transcribed statement by statement.  [TaskSetBase]
    ([detail/task_set_impl.h]), the bodies of [wait] and [tryWait]
    ([task_set.cpp]) and the [ThreadPool] are not part of the sources at
    hand; each definition that stands for one of them says so and follows
    the specification.

    A machine is the task set, the pool it references, the memory the user
    closures act on, and a history of the operations performed (a ghost
    variable used to state what ran where and in which order).

    - The counter and the load factor are [ssize_t] in the header, which
      only compares them; they are integers here.
    - A closure acts on the memory and returns or throws; it does not call
      back into the task set.
    - The methods are first given as functions on the machine, one call
      at a time.  Further down a configuration adds the [schedule] calls
      that are in progress on the producer threads, so that the load, the
      increment and the call of the pool of one call interleave with those
      of other calls, with the worker threads and with the other producers
      of the pool.
    - Threads interleave: the operations on the counter, on the slot and
      on the queue happen one at a time in a single order, and a load
      reads the value the counter has at that moment. *)

From Stdlib Require Import String ZArith List Bool Lia Relations Permutation.
Import ListNotations.
Local Open Scope Z_scope.

Set Implicit Arguments.

(** ** Data model *)

(** The payload of a [std::exception_ptr]. *)
Definition exception_ptr : Type := string.

(** Where a closure is called: on the thread that called into the task set,
  or on a worker thread of the pool. *)
Inductive Thread : Type :=
| CallingThread
| PoolThread.

(** Ghost history of the operations the claims talk about. *)
Inductive Event : Type :=
| EvFetchAdd                 (* outstandingTaskCount_.fetch_add(1) *)
| EvFetchSub                 (* outstandingTaskCount_.fetch_sub(1) *)
| EvEnqueue                  (* a unit of work entered the pool's queue *)
| EvInvoke (t : Thread).     (* user code was called on thread [t] *)

(** The tag type selecting the force-queuing overloads. *)
Inductive ForceQueuingTag : Type :=
| ForceQueuing.

(** [moodycamel::ProducerToken]: an opaque handle, here its identity. *)
Definition ProducerToken : Type := nat.

(** What a call returns: normally, or by an exception leaving the call. *)
Inductive Result (A : Type) : Type :=
| Returned (a : A)
| Thrown (e : exception_ptr).
Arguments Returned {A} a.
Arguments Thrown {A} e.

Section DataModel.

(** The memory user closures read and write. *)
Variable World : Type.

(** A functor of signature [void()]: it transforms the memory and either
    returns or throws. *)
Definition Functor : Type := World -> World * option exception_ptr.

(** What sits in the pool's queue: a task packaged by this task set (the
    lambda returned by [packageTask], which refers to this set's counter
    and exception slot), or work of another producer sharing the pool. *)
Inductive UnitOfWork : Type :=
| Packaged (f : Functor)
| Foreign (g : World -> World).

(** The pool: its queue [work_] (each entry remembers the producer token
    it was enqueued with, if any), the units taken by worker threads and
    not finished yet, and the number of worker threads. *)
Record ThreadPool : Type := mkThreadPool {
  work_ : list (option ProducerToken * UnitOfWork);
  running_ : list UnitOfWork;
  workerCount : Z
}.

(** Modelled from the spec: class [TaskSetBase] of
    [detail/task_set_impl.h], which is not in the sources.  Spec section 3:
    OutstandingCount is an integer counter, LoadThreshold a scalar fixed at
    construction, ExceptionSlot a single-assignment container that is
    either empty or occupied. *)
Record TaskSetBase : Type := mkTaskSetBase {
  outstandingTaskCount_ : Z;
  taskSetLoadFactor_ : Z;
  exceptionSlot_ : option exception_ptr
}.

(** The whole machine.  [pool_] is the pool the set holds a reference to;
    it is shared with the worker threads and with other producers. *)
Record Machine : Type := mkMachine {
  self : TaskSetBase;
  pool_ : ThreadPool;
  world : World;
  history : list Event
}.

End DataModel.

Arguments Packaged {World} f.
Arguments Foreign {World} g.
Arguments mkThreadPool {World} _ _ _.
Arguments mkMachine {World} _ _ _ _.

(** How a call of a [void()] closure ends. *)
Definition outcome (thrown : option exception_ptr) : Result unit :=
  match thrown with
  | Some e => Thrown e
  | None => Returned tt
  end.

(** A computation on the machine that may throw. *)
Definition M (World A : Type) : Type :=
Machine World -> Machine World * Result A.

(** How a destructor ends.  Neither destructor of the header is declared
    [noexcept(false)] (lines 109 and 215), so it is [noexcept]: an
    exception that leaves its body does not leave the destructor,
    [std::terminate] is called and the program ends there, with no state
    to go on from. *)
Inductive Destruction (World : Type) : Type :=
| Destroyed (m : Machine World)
| Terminated (e : exception_ptr).
Arguments Destroyed {World} m.
Arguments Terminated {World} e.

(** The end of a destructor whose body ended with [r] in machine [m]. *)
Definition noexcept_exit {World : Type} (x : Machine World * Result unit)
  : Destruction World :=
  match x with
  | (m, Returned _) => Destroyed m
  | (_, Thrown e) => Terminated e
  end.

Section Accessors.

Context {World : Type}.

Definition count (m : Machine World) : Z := outstandingTaskCount_ (self m).
Definition loadFactor (m : Machine World) : Z := taskSetLoadFactor_ (self m).
Definition slot (m : Machine World) : option exception_ptr := exceptionSlot_ (self m).
Definition queue (m : Machine World) : list (option ProducerToken * UnitOfWork World) :=
  work_ (pool_ m).
Definition running (m : Machine World) : list (UnitOfWork World) :=
  running_ (pool_ m).

Definition with_count (c : Z) (m : Machine World) : Machine World :=
  mkMachine
    (mkTaskSetBase c (taskSetLoadFactor_ (self m)) (exceptionSlot_ (self m)))
    (pool_ m) (world m) (history m).

Definition with_slot (e : option exception_ptr) (m : Machine World) : Machine World :=
  mkMachine
    (mkTaskSetBase (outstandingTaskCount_ (self m)) (taskSetLoadFactor_ (self m)) e)
    (pool_ m) (world m) (history m).

Definition with_queue (q : list (option ProducerToken * UnitOfWork World))
    (m : Machine World) : Machine World :=
  mkMachine (self m)
    (mkThreadPool q (running_ (pool_ m)) (workerCount (pool_ m)))
    (world m) (history m).

Definition with_running (r : list (UnitOfWork World)) (m : Machine World) : Machine World :=
  mkMachine (self m)
    (mkThreadPool (work_ (pool_ m)) r (workerCount (pool_ m)))
    (world m) (history m).

Definition with_world (w : World) (m : Machine World) : Machine World :=
  mkMachine (self m) (pool_ m) w (history m).

Definition record (ev : Event) (m : Machine World) : Machine World :=
  mkMachine (self m) (pool_ m) (world m) (history m ++ [ev]).

(** Calling a functor on thread [t]: its effect on the memory, and what
    it threw, if anything. *)
Definition call (t : Thread) (f : Functor World) (m : Machine World)
  : Machine World * option exception_ptr :=
  let (w', thrown) := f (world m) in
  (record (EvInvoke t) (with_world w' m), thrown).

End Accessors.

(** ** TaskSetBase *)

Module TaskSetBase.
Section Methods.

Context {World : Type}.

(** Modelled from the spec: the constructor of [TaskSetBase] (absent
    header).  Spec section 3: LoadThreshold is
    [stealingLoadMultiplier * poolWorkerCount], fixed at construction;
    the counter starts at 0 and the slot empty. *)
Definition construct (p : ThreadPool World) (stealingLoadMultiplier : Z)
    (w : World) : Machine World :=
  mkMachine (mkTaskSetBase 0 (stealingLoadMultiplier * workerCount p) None)
    p w [].

Definition fetch_add (m : Machine World) : Machine World :=
  record EvFetchAdd (with_count (count m + 1) m).

Definition fetch_sub (m : Machine World) : Machine World :=
  record EvFetchSub (with_count (count m - 1) m).

(** Modelled from the spec: the store into the ExceptionSlot (absent).  Spec
    section 3: only the first store into the slot succeeds, later
    failures are discarded. *)
Definition storeFailure (e : exception_ptr) (m : Machine World) : Machine World :=
  match slot m with
  | None => with_slot (Some e) m
  | Some _ => m
  end.

(** Modelled from the spec: the re-raise at the end of [wait] (absent).  Spec
    section 4.1: if the slot is occupied, clear it and re-raise the
    captured failure on the calling thread; otherwise return normally. *)
Definition rethrowCaptured : M World unit :=
  fun m =>
    match slot m with
    | Some e => (with_slot None m, Thrown e)
    | None => (m, Returned tt)
    end.

(** Modelled from the spec: [packageTask] (absent).  Spec sections 3 and
    4.1: the counter is incremented when the closure is wrapped, before
    the wrapper is handed off. *)
Definition packageTask (f : Functor World) (m : Machine World)
  : Machine World * UnitOfWork World :=
  (fetch_add m, Packaged f).

(** Modelled from the spec: the body of the wrapper returned by
    [packageTask].  Spec section 3: when invoked it runs [f], catches any
    failure, stores it into the slot if empty, and unconditionally
    decrements the counter on the way out.  A unit of another producer
    only acts on the memory. *)
Definition invoke (t : Thread) (u : UnitOfWork World) (m : Machine World) : Machine World :=
  match u with
  | Packaged f =>
      let (m1, thrown) := call t f m in
      let m2 := match thrown with
                | Some e => storeFailure e m1
                | None => m1
                end in
      fetch_sub m2
  | Foreign g => record (EvInvoke t) (with_world (g (world m)) m)
  end.

End Methods.
End TaskSetBase.

(** ** The pool, as far as the task sets use it *)

Module ThreadPool.
Section Methods.

Context {World : Type}.

(** Modelled from the spec: the pool's own internal load check.  Spec
    section 4.3 names it ("the pool's own internal load check"), section 6
    says the tagged entry point bypasses "any pool-internal load shedding",
    and the header calls it "the similar check in the ThreadPool" (doc of
    [skipRecheck]); none of them gives it, so it is a parameter.  The pool
    of the table in section 6, whose untagged entry points just enqueue, is
    the one whose check never fires ([neverSheds] below). *)
Variable loadCheck : ThreadPool World -> bool.

Definition enqueue (tok : option ProducerToken) (u : UnitOfWork World)
    (m : Machine World) : Machine World :=
  record EvEnqueue (with_queue (queue m ++ [(tok, u)]) m).

(** Modelled from the spec: [ThreadPool::schedule(unit, ForceQueuingTag)].
    Section 6: "enqueue unconditionally, bypassing any pool-internal load
    shedding". *)
Definition schedule_fq (u : UnitOfWork World) (fq : ForceQueuingTag)
    (m : Machine World) : Machine World :=
  enqueue None u m.

(** Modelled from the spec: [ThreadPool::schedule(token, unit,
    ForceQueuingTag)], the same through a producer token. *)
Definition schedule_token_fq (token : ProducerToken) (u : UnitOfWork World)
    (fq : ForceQueuingTag) (m : Machine World) : Machine World :=
  enqueue (Some token) u m.

(** Modelled from the spec: [ThreadPool::schedule(unit)].  Section 6:
    "enqueue unit", subject to the pool's load check that only the tagged
    entry point bypasses; section 4.3: [skipRecheck] "forces bypass of the
    pool's own internal load check in addition to always taking the
    enqueue path", so without it the enqueue path is not always taken.
    When the check fires the pool sheds the unit: it is run at once on the
    calling thread, which is what the header says of the similar check of
    the task set ("immediate inline execution may occur on the current
    thread", lines 47-48 and 148-149; "the similar check in the
    ThreadPool", lines 155-156). *)
Definition schedule (u : UnitOfWork World) (m : Machine World) : Machine World :=
  if loadCheck (pool_ m) then TaskSetBase.invoke CallingThread u m
  else schedule_fq u ForceQueuing m.

(** Modelled from the spec: [ThreadPool::schedule(token, unit)], the same
    through a producer token (section 6: "enqueue unit; fast path"). *)
Definition schedule_token (token : ProducerToken) (u : UnitOfWork World)
    (m : Machine World) : Machine World :=
  if loadCheck (pool_ m) then TaskSetBase.invoke CallingThread u m
  else schedule_token_fq token u ForceQueuing m.

(** Modelled from the spec: [ThreadPool::tryExecuteNext].  Section 6:
    "attempt to pop and run one pending unit of work on the calling thread;
    returns whether one was executed". *)
Definition tryExecuteNext (m : Machine World) : Machine World * bool :=
  match queue m with
  | [] => (m, false)
  | (_, u) :: rest => (TaskSetBase.invoke CallingThread u (with_queue rest m), true)
  end.

End Methods.

(** The pool exactly as the table of section 6 words it: no load shedding. *)
Definition neverSheds {World : Type} : ThreadPool World -> bool :=
  fun _ => false.

(** What the rest of the system does to the machine between two steps of
    the thread using the task set: a worker takes a unit from the queue
    (in no particular order), a worker finishes the unit it took, another
    producer enqueues work of its own. *)
Inductive step {World : Type} : Machine World -> Machine World -> Prop :=
| worker_takes (m : Machine World) q1 e q2 :
    queue m = q1 ++ e :: q2 ->
    step m (with_running (snd e :: running m) (with_queue (q1 ++ q2) m))
| worker_finishes (m : Machine World) r1 u r2 :
    running m = r1 ++ u :: r2 ->
    step m (TaskSetBase.invoke PoolThread u (with_running (r1 ++ r2) m))
| other_producer (m : Machine World) tok g :
    step m (with_queue (queue m ++ [(tok, Foreign g)]) m).

Definition steps {World : Type} : Machine World -> Machine World -> Prop :=
  clos_refl_trans _ step.

End ThreadPool.

(** ** The shared engine: wait and tryWait *)

Module TaskSetCore.
Section Methods.

Context {World : Type}.

(** Modelled from the spec: the loop of [wait] ([task_set.cpp] is not in the
    sources).  Section 4.1: "block the calling thread until OutstandingCount
    reaches 0.  While count > 0 ... it opportunistically calls the pool's
    'steal and run one pending item' primitive".  This is the loop run by a
    caller that is alone in making progress; [fuel] bounds its iterations. *)
Fixpoint wait_loop (fuel : nat) (m : Machine World) : option (Machine World) :=
  if count m =? 0 then Some m
  else match fuel with
       | O => None
       | S k => wait_loop k (fst (ThreadPool.tryExecuteNext m))
       end.

(** Modelled from the spec: [wait].  Section 4.1: "After the count reaches
    0, if ExceptionSlot is occupied, clear it and re-raise the captured
    failure on the calling thread; otherwise return normally". *)
Definition wait (fuel : nat) (m : Machine World)
  : option (Machine World * Result unit) :=
  match wait_loop fuel m with
  | Some m1 => Some (TaskSetBase.rethrowCaptured m1)
  | None => None
  end.

(** The same loop under every interleaving with the rest of the system:
    between two iterations of the caller, worker threads and other
    producers take any number of steps. *)
Inductive waiting : Machine World -> Machine World -> Prop :=
| waiting_exit m :
    count m = 0 -> waiting m m
| waiting_iteration m m' ran m'' :
    count m <> 0 ->
    ThreadPool.tryExecuteNext m = (m', ran) ->
    waiting m' m'' ->
    waiting m m''
| waiting_interleaved m m' m'' :
    ThreadPool.step m m' ->
    waiting m' m'' ->
    waiting m m''.

(** [wait] under interleaving: the loop, whatever the rest of the system
    does before the caller goes on, then the re-raise. *)
Definition waits (m m' : Machine World) (r : Result unit) : Prop :=
  exists m1 m2,
    waiting m m1 /\ ThreadPool.steps m1 m2 /\ TaskSetBase.rethrowCaptured m2 = (m', r).

(** Modelled from the spec: the loop of [tryWait].  Section 4.1: "same
    draining idea but bounded - execute at most maxToExecute stolen items";
    section 5: the bound is on stolen executions attempted. *)
Fixpoint tryWait_loop (maxToExecute : nat) (m : Machine World) : Machine World :=
  match maxToExecute with
  | O => m
  | S k =>
      if count m =? 0 then m
      else tryWait_loop k (fst (ThreadPool.tryExecuteNext m))
  end.

(** Modelled from the spec: [tryWait].  Section 4.1: "then re-check the
    count; return true iff the count reached 0 (and in that case, perform
    the same exception re-raise as wait); return false otherwise without
    having raised anything yet". *)
Definition tryWait (maxToExecute : nat) : M World bool :=
  fun m =>
    let m1 := tryWait_loop maxToExecute m in
    if count m1 =? 0 then
      match TaskSetBase.rethrowCaptured m1 with
      | (m2, Returned _) => (m2, Returned true)
      | (m2, Thrown e) => (m2, Thrown e)
      end
    else (m1, Returned false).

End Methods.
End TaskSetCore.

(** ** TaskSet (task_set.h, lines 31-118) *)

Module TaskSet.
Section Methods.

Context {World : Type}.
Variable loadCheck : ThreadPool World -> bool.

(** The member [token_], constructed from [p.work_] and never assigned. *)
Variable token_ : ProducerToken.

(** [TaskSet(ThreadPool& p, ssize_t stealingLoadMultiplier = 4)]. *)
Definition construct (p : ThreadPool World) (stealingLoadMultiplier : Z)
    (w : World) : Machine World :=
  TaskSetBase.construct p stealingLoadMultiplier w.

(** [schedule(F&& f)], lines 59-66. *)
Definition schedule (f : Functor World) : M World unit :=
  fun m =>
    if count m >? loadFactor m then
      let (m', thrown) := call CallingThread f m in
      (m', match thrown with
           | Some e => Thrown e
           | None => Returned tt
           end)
    else
      let (m1, task) := TaskSetBase.packageTask f m in
      (ThreadPool.schedule_token loadCheck token_ task m1, Returned tt).

(** [schedule(F&& f, ForceQueuingTag fq)], lines 79-82. *)
Definition schedule_fq (f : Functor World) (fq : ForceQueuingTag) : M World unit :=
  fun m =>
    let (m1, task) := TaskSetBase.packageTask f m in
    (ThreadPool.schedule_token_fq token_ task fq m1, Returned tt).

(** [wait()] and [tryWait(size_t)], declared at lines 88 and 103. *)
Definition wait := @TaskSetCore.wait World.
Definition waits := @TaskSetCore.waits World.
Definition tryWait := @TaskSetCore.tryWait World.

(** [~TaskSet() { wait(); }], lines 109-111. *)
Definition destroy (fuel : nat) (m : Machine World)
  : option (Destruction World) :=
  match wait fuel m with
  | Some x => Some (noexcept_exit x)
  | None => None
  end.

Definition destroys (m : Machine World) (d : Destruction World) : Prop :=
  exists m' r, waits m m' r /\ d = noexcept_exit (m', r).

End Methods.
End TaskSet.

(** ** ConcurrentTaskSet (task_set.h, lines 132-228) *)

Module ConcurrentTaskSet.
Section Methods.

Context {World : Type}.
Variable loadCheck : ThreadPool World -> bool.

(** [ConcurrentTaskSet(ThreadPool& pool, ssize_t stealingLoadMultiplier = 4)]. *)
Definition construct (p : ThreadPool World) (stealingLoadMultiplier : Z)
    (w : World) : Machine World :=
  TaskSetBase.construct p stealingLoadMultiplier w.

(** [schedule(F&& f, bool skipRecheck = false)], lines 163-172. *)
Definition schedule (f : Functor World) (skipRecheck : bool) : M World unit :=
  fun m =>
    if count m >? loadFactor m then
      let (m', thrown) := call CallingThread f m in
      (m', match thrown with
           | Some e => Thrown e
           | None => Returned tt
           end)
    else if skipRecheck then
      let (m1, task) := TaskSetBase.packageTask f m in
      (ThreadPool.schedule_fq task ForceQueuing m1, Returned tt)
    else
      let (m1, task) := TaskSetBase.packageTask f m in
      (ThreadPool.schedule loadCheck task m1, Returned tt).

(** [schedule(F&& f, ForceQueuingTag fq)], lines 185-188. *)
Definition schedule_fq (f : Functor World) (fq : ForceQueuingTag) : M World unit :=
  fun m =>
    let (m1, task) := TaskSetBase.packageTask f m in
    (ThreadPool.schedule_fq task fq m1, Returned tt).

(** [wait()] and [tryWait(size_t)], declared at lines 194 and 209. *)
Definition wait := @TaskSetCore.wait World.
Definition waits := @TaskSetCore.waits World.
Definition tryWait := @TaskSetCore.tryWait World.

(** [~ConcurrentTaskSet() { wait(); }], lines 215-217. *)
Definition destroy (fuel : nat) (m : Machine World)
  : option (Destruction World) :=
  match wait fuel m with
  | Some x => Some (noexcept_exit x)
  | None => None
  end.

Definition destroys (m : Machine World) (d : Destruction World) : Prop :=
  exists m' r, waits m m' r /\ d = noexcept_exit (m', r).

(** [tryExecuteNext()], lines 220-222. *)
Definition tryExecuteNext (m : Machine World) : Machine World * bool :=
  ThreadPool.tryExecuteNext m.

End Methods.
End ConcurrentTaskSet.

(** ** Accounting vocabulary *)

Section Accounting.

Context {World : Type}.

Definition is_packaged (u : UnitOfWork World) : bool :=
  match u with
  | Packaged _ => true
  | Foreign _ => false
  end.

(** What a unit contributes to the counter of this set. *)
Definition weight (u : UnitOfWork World) : Z := if is_packaged u then 1 else 0.

(** How many units of a list are tasks of this set. *)
Definition owned (l : list (UnitOfWork World)) : nat :=
  length (filter is_packaged l).

(** Tasks of this set sitting in the queue, and those a worker is running. *)
Definition queued (m : Machine World) : nat := owned (map snd (queue m)).

Definition in_flight (m : Machine World) : nat := owned (running m).

Definition pending (m : Machine World) : nat := (queued m + in_flight m)%nat.

Definition Event_eq_dec (a b : Event) : {a = b} + {a <> b}.
Proof. repeat decide equality. Defined.

Definition occurrences (ev : Event) (h : list Event) : nat :=
  count_occ Event_eq_dec h ev.

(** Increments minus decrements of the counter in a history. *)
Definition balance (h : list Event) : Z :=
  Z.of_nat (occurrences EvFetchAdd h) - Z.of_nat (occurrences EvFetchSub h).

(** The events appended to the history between [m] and a later [m']. *)
Definition since (m m' : Machine World) : list Event :=
  skipn (length (history m)) (history m').

(** The counter was incremented before anything else happened. *)
Definition incremented_first (d : list Event) : bool :=
  match d with
  | EvFetchAdd :: _ => true
  | _ => false
  end.

(** The accounting invariant: the counter is the number of this set's
    tasks that are queued or running, and it is the balance of the
    increments and decrements performed so far. *)
Definition accounted (m : Machine World) : Prop :=
  count m = Z.of_nat (pending m) /\ count m = balance (history m).

(** Which front end the machine's task set is. *)
Inductive Handle : Type :=
| OfTaskSet (token_ : ProducerToken)
| OfConcurrentTaskSet.

Variable loadCheck : ThreadPool World -> bool.

(** One call of one of the [schedule] overloads of the front end. *)
Inductive schedules : Handle -> Machine World -> Machine World -> Prop :=
| schedules_TaskSet token_ f m :
    schedules (OfTaskSet token_) m
      (fst (TaskSet.schedule loadCheck token_ f m))
| schedules_TaskSet_fq token_ f fq m :
    schedules (OfTaskSet token_) m
      (fst (TaskSet.schedule_fq token_ f fq m))
| schedules_ConcurrentTaskSet f skipRecheck m :
    schedules OfConcurrentTaskSet m
      (fst (ConcurrentTaskSet.schedule loadCheck f skipRecheck m))
| schedules_ConcurrentTaskSet_fq f fq m :
    schedules OfConcurrentTaskSet m
      (fst (ConcurrentTaskSet.schedule_fq f fq m)).

(** What a call of [schedule(f)] does, by cases: the bare closure is
    called; or the packaged task is queued; or the pool, its own check
    having fired, runs the packaged task on the calling thread.  [tok] is
    the producer token of the entry, [forced] says that the tagged entry
    point of the pool was used. *)
Definition schedule_cases (tok : option ProducerToken) (forced : bool)
    (f : Functor World) (m m' : Machine World) : Prop :=
  (loadFactor m < count m /\
   history m' = history m ++ [EvInvoke CallingThread] /\
   queue m' = queue m /\ world m' = fst (f (world m)) /\
   loadFactor m' = loadFactor m) \/
  (~ loadFactor m < count m /\ (forced = true \/ loadCheck (pool_ m) = false) /\
   history m' = history m ++ [EvFetchAdd; EvEnqueue] /\
   queue m' = queue m ++ [(tok, Packaged f)] /\ world m' = world m /\
   loadFactor m' = loadFactor m) \/
  (~ loadFactor m < count m /\ forced = false /\ loadCheck (pool_ m) = true /\
   history m' = history m ++ [EvFetchAdd; EvInvoke CallingThread; EvFetchSub] /\
   queue m' = queue m /\ world m' = fst (f (world m)) /\
   loadFactor m' = loadFactor m).

(** A closure that never throws, and a unit that stores no failure. *)
Definition never_throws (f : Functor World) : Prop :=
  forall w, snd (f w) = None.

Definition harmless (u : UnitOfWork World) : Prop :=
  match u with
  | Packaged f => never_throws f
  | Foreign _ => True
  end.

(** Nothing captured and nothing around that could be. *)
Definition calm (m : Machine World) : Prop :=
  slot m = None /\
  Forall harmless (map snd (queue m)) /\
  Forall harmless (running m).

(** Force-queuing a batch through the front end [h]. *)
Definition schedule_fq_on (h : Handle) (g : Functor World) (m : Machine World)
  : Machine World :=
  match h with
  | OfTaskSet token_ => fst (TaskSet.schedule_fq token_ g ForceQueuing m)
  | OfConcurrentTaskSet => fst (ConcurrentTaskSet.schedule_fq g ForceQueuing m)
  end.

Definition schedule_batch (h : Handle) (gs : list (Functor World))
    (m : Machine World) : Machine World :=
  fold_left (fun acc g => schedule_fq_on h g acc) gs m.

End Accounting.

(** ** Sequences of calls *)

Section Batches.

Context {World : Type}.
Variable loadCheck : ThreadPool World -> bool.

(** The producer token a front end enqueues with: its own [token_] for a
    [TaskSet] (lines 64 and 81), none for a [ConcurrentTaskSet] (lines 168,
    170 and 187). *)
Definition token_of (h : Handle) : option ProducerToken :=
  match h with
  | OfTaskSet token_ => Some token_
  | OfConcurrentTaskSet => None
  end.

(** One call of [schedule(f)] through the front end [h]; an exception that
    leaves the call is caught by the caller, who goes on. *)
Definition schedule_on (h : Handle) (skipRecheck : bool) (f : Functor World)
    (m : Machine World) : Machine World :=
  match h with
  | OfTaskSet token_ => fst (TaskSet.schedule loadCheck token_ f m)
  | OfConcurrentTaskSet =>
      fst (ConcurrentTaskSet.schedule loadCheck f skipRecheck m)
  end.

(** [schedule(f)] for each closure of a list, back to back. *)
Definition schedule_all (h : Handle) (skipRecheck : bool)
    (fs : list (Functor World)) (m : Machine World) : Machine World :=
  fold_left (fun acc f => schedule_on h skipRecheck f acc) fs m.

(** The memory after the closures of a list were called one after the
    other. *)
Definition run_in_order (fs : list (Functor World)) (w : World) : World :=
  fold_left (fun acc f => fst (f acc)) fs w.

(** How many more tasks the admission check lets through to the pool. *)
Definition free_slots (m : Machine World) : nat :=
  Z.to_nat (loadFactor m + 1 - count m).

End Batches.

(** ** Calls in progress, and what has been scheduled and run *)

Section Concurrency.

Context {World : Type}.

(** The units of work that the program at hand schedules and that the
    other producers of the pool enqueue: any unit at all when nothing more
    is known. *)
Variable uses : UnitOfWork World -> Prop.

Variable loadCheck : ThreadPool World -> bool.

(** The entry point of the pool a [schedule] call ends with: the producer
    token it passes, if any, and whether it passes [ForceQueuingTag]. *)
Definition Entry : Type := (option ProducerToken * bool)%type.

(** [schedule(f)]: line 64 for a [TaskSet], lines 168 and 170 for a
    [ConcurrentTaskSet]. *)
Definition untagged_entry (h : Handle) (skipRecheck : bool) : Entry :=
  match h with
  | OfTaskSet token_ => (Some token_, false)
  | OfConcurrentTaskSet => (None, skipRecheck)
  end.

(** [schedule(f, ForceQueuingTag)]: lines 81 and 187. *)
Definition tagged_entry (h : Handle) : Entry := (token_of h, true).

(** Modelled from the spec: the four entry points of the pool the front
    ends call (lines 64, 81, 168, 170 and 187), as given above after
    section 6. *)
Definition pool_call (e : Entry) (u : UnitOfWork World) (m : Machine World)
  : Machine World :=
  match e with
  | (Some token_, false) => ThreadPool.schedule_token loadCheck token_ u m
  | (Some token_, true) => ThreadPool.schedule_token_fq token_ u ForceQueuing m
  | (None, false) => ThreadPool.schedule loadCheck u m
  | (None, true) => ThreadPool.schedule_fq u ForceQueuing m
  end.

(** The pool runs the unit it is handed instead of queuing it. *)
Definition sheds (e : Entry) (m : Machine World) : bool :=
  negb (snd e) && loadCheck (pool_ m).

(** A [schedule] call in progress on a producer thread, by the operation
    it performs next. *)
Inductive Call : Type :=
| CallInline (f : Functor World)
    (* the load of line 61/165 read a count above the load factor:
       [f()], line 62/166, is next *)
| CallPackage (f : Functor World) (e : Entry)
    (* the count read was not above the load factor, or the overload is a
       tagged one: [packageTask(f)] is next *)
| CallPool (f : Functor World) (e : Entry).
    (* [packageTask] has returned the wrapper: the call of the pool is
       next *)

(** A configuration: the machine, the [schedule] calls in progress, and
    three ghost lists: the closures passed to [schedule] so far, the
    closures that have been called and have returned or thrown, and the
    failures the wrappers of [packageTask] have caught since the last
    re-raise, each in the order of the events. *)
Record Config : Type := mkConfig {
  machine : Machine World;
  calls : list Call;
  submitted : list (Functor World);
  finished : list (Functor World);
  raised : list exception_ptr
}.

Definition cconstruct (p : ThreadPool World) (stealingLoadMultiplier : Z)
    (w : World) : Config :=
  mkConfig (TaskSetBase.construct p stealingLoadMultiplier w) [] [] [] [].

Definition call_closure (k : Call) : Functor World :=
  match k with
  | CallInline f => f
  | CallPackage f _ => f
  | CallPool f _ => f
  end.

(** The closure of a packaged task, and the failure its wrapper catches
    when it runs in memory [w]. *)
Definition closure_of (u : UnitOfWork World) : list (Functor World) :=
  match u with
  | Packaged f => [f]
  | Foreign _ => []
  end.

Definition caught_by (u : UnitOfWork World) (w : World) : list exception_ptr :=
  match u with
  | Packaged f =>
      match snd (f w) with
      | Some e => [e]
      | None => []
      end
  | Foreign _ => []
  end.

(** The machine moved to [m'] and no closure ran. *)
Definition moved (m' : Machine World) (c : Config) : Config :=
  mkConfig m' (calls c) (submitted c) (finished c) (raised c).

(** The machine moved to [m'] by running the unit [u]. *)
Definition ran (u : UnitOfWork World) (m' : Machine World) (c : Config) : Config :=
  mkConfig m' (calls c) (submitted c)
    (finished c ++ closure_of u)
    (raised c ++ caught_by u (world (machine c))).

(** A thread enters [schedule(f)]; [k] is where its call stands. *)
Definition entered (f : Functor World) (k : Call) (c : Config) : Config :=
  mkConfig (machine c) (calls c ++ [k]) (submitted c ++ [f]) (finished c) (raised c).

(** Lines 61 and 165: the load and the comparison. *)
Definition admission (e : Entry) (f : Functor World) (m : Machine World) : Call :=
  if count m >? loadFactor m then CallInline f else CallPackage f e.

(** Lines 62 and 166: [f()].  An exception leaves [schedule]; no wrapper
    is there to catch it. *)
Definition do_inline (l1 : list Call) (f : Functor World) (l2 : list Call)
    (c : Config) : Config :=
  mkConfig (fst (call CallingThread f (machine c))) (l1 ++ l2)
    (submitted c) (finished c ++ [f]) (raised c).

(** Modelled from the spec: [packageTask(f)], the argument of the pool
    call of lines 64, 81, 168, 170 and 187; section 3: the counter is
    incremented when the closure is wrapped. *)
Definition do_package (l1 : list Call) (f : Functor World) (e : Entry)
    (l2 : list Call) (c : Config) : Config :=
  mkConfig (fst (TaskSetBase.packageTask f (machine c)))
    (l1 ++ CallPool f e :: l2) (submitted c) (finished c) (raised c).

(** Modelled from the spec: the pool call of the same lines; section 6
    and section 4.3: the pool queues the unit, or, on an untagged entry
    point whose load check fires, runs it at once on the calling thread. *)
Definition do_pool (l1 : list Call) (f : Functor World) (e : Entry)
    (l2 : list Call) (c : Config) : Config :=
  let m := machine c in
  let m' := pool_call e (Packaged f) m in
  if sheds e m then
    mkConfig m' (l1 ++ l2) (submitted c) (finished c ++ [f])
      (raised c ++ caught_by (Packaged f) (world m))
  else
    mkConfig m' (l1 ++ l2) (submitted c) (finished c) (raised c).

(** One whole call of [schedule(f)] made while no other thread moves. *)
Definition whole_schedule (h : Handle) (skipRecheck : bool) (f : Functor World)
    (c : Config) : Config :=
  let m := machine c in
  let m' := schedule_on loadCheck h skipRecheck f m in
  if count m >? loadFactor m then
    mkConfig m' (calls c) (submitted c ++ [f]) (finished c ++ [f]) (raised c)
  else if sheds (untagged_entry h skipRecheck) m then
    mkConfig m' (calls c) (submitted c ++ [f]) (finished c ++ [f])
      (raised c ++ caught_by (Packaged f) (world m))
  else
    mkConfig m' (calls c) (submitted c ++ [f]) (finished c) (raised c).

(** One whole call of [schedule(f, ForceQueuingTag)]. *)
Definition whole_schedule_fq (h : Handle) (f : Functor World) (c : Config) : Config :=
  mkConfig (schedule_fq_on h f (machine c)) (calls c)
    (submitted c ++ [f]) (finished c) (raised c).

(** Modelled from the spec: the steal of [wait], [tryWait] and
    [tryExecuteNext], [ThreadPool.tryExecuteNext] above (section 6), with
    what it ran noted. *)
Definition csteal (c : Config) : Config :=
  let m := machine c in
  match queue m with
  | [] => moved (fst (ThreadPool.tryExecuteNext m)) c
  | (_, u) :: _ => ran u (fst (ThreadPool.tryExecuteNext m)) c
  end.

(** Modelled from the spec: the re-raise that ends [wait] and a draining
    [tryWait], [TaskSetBase.rethrowCaptured] above (section 4.1); the
    failures caught so far are forgotten. *)
Definition creraise (c : Config) : Config :=
  mkConfig (fst (TaskSetBase.rethrowCaptured (machine c)))
    (calls c) (submitted c) (finished c) [].

(** Modelled from the spec: [tryWait] (section 4.1), that is
    [TaskSetCore.tryWait] above, on a configuration. *)
Fixpoint ctryWait_loop (maxToExecute : nat) (c : Config) : Config :=
  match maxToExecute with
  | O => c
  | S k =>
      if count (machine c) =? 0 then c
      else ctryWait_loop k (csteal c)
  end.

Definition ctryWait (maxToExecute : nat) (c : Config) : Config * Result bool :=
  let c1 := ctryWait_loop maxToExecute c in
  if count (machine c1) =? 0 then
    (creraise c1,
     match slot (machine c1) with
     | Some e => Thrown e
     | None => Returned true
     end)
  else (c1, Returned false).

(** Modelled from the spec: the loop of [wait] (section 4.1), that is
    [TaskSetCore.wait_loop] above, on a configuration: the caller alone. *)
Fixpoint cwait_loop (fuel : nat) (c : Config) : option Config :=
  if count (machine c) =? 0 then Some c
  else match fuel with
       | O => None
       | S k => cwait_loop k (csteal c)
       end.

(** Modelled from the spec: what the workers and the other producers of
    the pool do (sections 2 and 5), that is [ThreadPool.step] above, on a
    configuration. *)
Inductive cpool_step : Config -> Config -> Prop :=
| cpool_takes c q1 e q2 :
    queue (machine c) = q1 ++ e :: q2 ->
    cpool_step c
      (moved (with_running (snd e :: running (machine c))
                (with_queue (q1 ++ q2) (machine c))) c)
| cpool_finishes c r1 u r2 :
    running (machine c) = r1 ++ u :: r2 ->
    cpool_step c
      (ran u (TaskSetBase.invoke PoolThread u
                (with_running (r1 ++ r2) (machine c))) c)
| cpool_other c tok g :
    uses (Foreign g) ->
    cpool_step c
      (moved (with_queue (queue (machine c) ++ [(tok, Foreign g)]) (machine c)) c).

(** Modelled from the spec: the loop of [wait] under every interleaving
    (section 4.1), that is [TaskSetCore.waiting] above, on a
    configuration. *)
Inductive cwaiting : Config -> Config -> Prop :=
| cwaiting_exit c :
    count (machine c) = 0 -> cwaiting c c
| cwaiting_iteration c c'' :
    count (machine c) <> 0 ->
    cwaiting (csteal c) c'' ->
    cwaiting c c''
| cwaiting_interleaved c c' c'' :
    cpool_step c c' ->
    cwaiting c' c'' ->
    cwaiting c c''.

(** The loop of [wait] has been left and the re-raise is next. *)
Definition cdrains (c c2 : Config) : Prop :=
  exists c1, cwaiting c c1 /\ clos_refl_trans _ cpool_step c1 c2.

(** Modelled from the spec: [wait] (section 4.1), that is
    [TaskSetCore.waits] above, on a configuration. *)
Definition cwaits (c c' : Config) (r : Result unit) : Prop :=
  exists c2, cdrains c c2 /\ c' = creraise c2 /\ r = outcome (slot (machine c2)).

(** Modelled from the spec: [tryWait] under every interleaving (section
    4.1): the bounded loop, between two iterations of which the rest of the
    system moves, then the re-check of the counter. *)
Inductive ctryWaiting : nat -> Config -> Config -> Prop :=
| ctryWaiting_exit maxToExecute c :
    maxToExecute = O \/ count (machine c) = 0 ->
    ctryWaiting maxToExecute c c
| ctryWaiting_iteration k c c'' :
    count (machine c) <> 0 ->
    ctryWaiting k (csteal c) c'' ->
    ctryWaiting (S k) c c''
| ctryWaiting_interleaved maxToExecute c c' c'' :
    cpool_step c c' ->
    ctryWaiting maxToExecute c' c'' ->
    ctryWaiting maxToExecute c c''.

Definition ctryWaits (maxToExecute : nat) (c c' : Config) (r : Result bool) : Prop :=
  exists c1 c2,
    ctryWaiting maxToExecute c c1 /\ clos_refl_trans _ cpool_step c1 c2 /\
    ((count (machine c2) = 0 /\ c' = creraise c2 /\
      r = match slot (machine c2) with
          | Some e => Thrown e
          | None => Returned true
          end) \/
     (count (machine c2) <> 0 /\ c' = c2 /\ r = Returned false)).

(** A [TaskSet] is used by one thread at a time (lines 26-29): one of its
    member functions is entered only when no call is in progress.  A
    [ConcurrentTaskSet] may be scheduled on from several threads at once
    (lines 126-128). *)
Definition may_enter (h : Handle) (c : Config) : Prop :=
  match h with
  | OfTaskSet _ => calls c = []
  | OfConcurrentTaskSet => True
  end.

(** What a step is: a thread enters one of the [schedule] overloads, or
    some thread goes on with what it is doing. *)
Inductive StepKind : Type :=
| Enters (tagged : bool)
| Continues.

(** The steps of a program that uses the task set of front end [h].  A
    call of [schedule] is taken either as a whole or operation by
    operation, with the steps of other threads in between.  [wait] is
    called only when no [schedule] call is in progress (lines 129-130). *)
Inductive cstep (h : Handle) : StepKind -> Config -> Config -> Prop :=
| cstep_schedule skipRecheck f c :
    uses (Packaged f) -> may_enter h c ->
    cstep h (Enters false) c (whole_schedule h skipRecheck f c)
| cstep_schedule_fq f c :
    uses (Packaged f) -> may_enter h c ->
    cstep h (Enters true) c (whole_schedule_fq h f c)
| cstep_load skipRecheck f c :
    uses (Packaged f) -> may_enter h c ->
    cstep h (Enters false) c
      (entered f (admission (untagged_entry h skipRecheck) f (machine c)) c)
| cstep_enter_fq f c :
    uses (Packaged f) -> may_enter h c ->
    cstep h (Enters true) c (entered f (CallPackage f (tagged_entry h)) c)
| cstep_inline c l1 f l2 :
    calls c = l1 ++ CallInline f :: l2 ->
    cstep h Continues c (do_inline l1 f l2 c)
| cstep_package c l1 f e l2 :
    calls c = l1 ++ CallPackage f e :: l2 ->
    cstep h Continues c (do_package l1 f e l2 c)
| cstep_pool c l1 f e l2 :
    calls c = l1 ++ CallPool f e :: l2 ->
    cstep h Continues c (do_pool l1 f e l2 c)
| cstep_environment c c' :
    cpool_step c c' ->
    cstep h Continues c c'
| cstep_tryExecuteNext c :
    may_enter h c ->
    cstep h Continues c (csteal c)
| cstep_tryWait maxToExecute c :
    may_enter h c ->
    cstep h Continues c (fst (ctryWait maxToExecute c))
| cstep_wait c c' r :
    calls c = [] ->
    cwaits c c' r ->
    cstep h Continues c c'.

(** The configurations a program can reach: construction over a pool that
    holds only other producers' work, then any steps. *)
Inductive creachable (h : Handle) : Config -> Prop :=
| creachable_construct p stealingLoadMultiplier w :
    owned (map snd (work_ p)) = 0%nat ->
    owned (running_ p) = 0%nat ->
    Forall uses (map snd (work_ p) ++ running_ p) ->
    creachable h (cconstruct p stealingLoadMultiplier w)
| creachable_step k c c' :
    creachable h c -> cstep h k c c' -> creachable h c'.

(** Steps none of which enters a tagged overload, and in which an
    untagged [schedule] is entered only while fewer than [producers] calls
    are in progress. *)
Definition admitted (producers : nat) (h : Handle) (c c' : Config) : Prop :=
  cstep h Continues c c' \/
  (cstep h (Enters false) c c' /\ (length (calls c) < producers)%nat).

Definition throttled (producers : nat) (h : Handle) : Config -> Config -> Prop :=
  clos_refl_trans _ (admitted producers h).

(** Calls that hold a packaged task not yet passed to the pool, and calls
    that are about to package one. *)
Definition is_in_hand (k : Call) : bool :=
  match k with
  | CallPool _ _ => true
  | _ => false
  end.

Definition in_hand (c : Config) : nat := length (filter is_in_hand (calls c)).

Definition is_to_package (k : Call) : bool :=
  match k with
  | CallPackage _ _ => true
  | _ => false
  end.

Definition to_package (c : Config) : nat := length (filter is_to_package (calls c)).

(** The operations all the steps are made of. *)
Inductive cprimitive : Config -> Config -> Prop :=
| primitive_enter f k c :
    uses (Packaged f) -> call_closure k = f -> is_in_hand k = false ->
    cprimitive c (entered f k c)
| primitive_inline c l1 f l2 :
    calls c = l1 ++ CallInline f :: l2 ->
    cprimitive c (do_inline l1 f l2 c)
| primitive_package c l1 f e l2 :
    calls c = l1 ++ CallPackage f e :: l2 ->
    cprimitive c (do_package l1 f e l2 c)
| primitive_pool c l1 f e l2 :
    calls c = l1 ++ CallPool f e :: l2 ->
    cprimitive c (do_pool l1 f e l2 c)
| primitive_environment c c' :
    cpool_step c c' -> cprimitive c c'
| primitive_steal c :
    cprimitive c (csteal c)
| primitive_reraise c :
    cprimitive c (creraise c).

Definition cprimitives : Config -> Config -> Prop :=
  clos_refl_trans _ cprimitive.

(** The closures of the packaged tasks of a list of units. *)
Definition packaged_of (l : list (UnitOfWork World)) : list (Functor World) :=
  flat_map closure_of l.

(** The closures scheduled and not run to their end yet: those of the
    calls in progress, of the queued tasks and of the running tasks. *)
Definition outstanding (c : Config) : list (Functor World) :=
  map call_closure (calls c) ++
  packaged_of (map snd (queue (machine c))) ++
  packaged_of (running (machine c)).

(** All units of work around. *)
Definition units (c : Config) : list (UnitOfWork World) :=
  map (fun k => Packaged (call_closure k)) (calls c) ++
  map snd (queue (machine c)) ++ running (machine c).

(** The invariant of the configurations: the counter counts the tasks
    queued, running or in the hand of a producer, and balances the
    increments and decrements; every closure scheduled is finished or
    outstanding, exactly once; the slot holds the first failure caught
    since the last re-raise; every unit around is one the program uses. *)
Definition cinv (c : Config) : Prop :=
  count (machine c) = Z.of_nat (pending (machine c)) + Z.of_nat (in_hand c) /\
  count (machine c) = balance (history (machine c)) /\
  Permutation (submitted c) (finished c ++ outstanding c) /\
  slot (machine c) = hd_error (raised c) /\
  Forall uses (units c).

(** A closure that makes [P] true of the memory whatever it was, and a
    unit that keeps [P] true. *)
Definition establishes (P : World -> Prop) (f : Functor World) : Prop :=
  forall w, P (fst (f w)).

Definition preserves (P : World -> Prop) (u : UnitOfWork World) : Prop :=
  match u with
  | Packaged f => forall w, P w -> P (fst (f w))
  | Foreign g => forall w, P w -> P (g w)
  end.

(** What the closures that have run have established still holds. *)
Definition observed (P : World -> Prop) (c : Config) : Prop :=
  (exists f, In f (finished c) /\ establishes P f) -> P (world (machine c)).

End Concurrency.

Arguments Config : clear implicits.
Arguments Call : clear implicits.
Arguments mkConfig {World} _ _ _ _ _.
Arguments CallInline {World} f.
Arguments CallPackage {World} f e.
Arguments CallPool {World} f e.

(** The machines a program can bring a task set to, whatever units of work
    it uses, at the moments when no [schedule] call is in progress. *)
Definition reachable {World : Type} (loadCheck : ThreadPool World -> bool)
    (h : Handle) (m : Machine World) : Prop :=
  exists c, creachable (fun _ => True) loadCheck h c /\ calls c = [] /\ machine c = m.

(** ** Concrete closures and machines *)

Module Examples.

(** The memory of the examples: the flags set so far, latest first. *)
Definition Flags : Type := list nat.

Definition setFlag (n : nat) : Functor Flags :=
  fun w => (n :: w, None).

Definition failing (n : nat) (what : string) : Functor Flags :=
  fun w => (n :: w, Some what).

(** A pool of four workers with nothing queued. *)
Definition idlePool : ThreadPool Flags := mkThreadPool [] [] 4.

(** A pool of four workers holding one unit of another producer. *)
Definition busyPool : ThreadPool Flags :=
  mkThreadPool [(None, Foreign (fun w => 100%nat :: w))] [] 4.

(** A pool-internal load check that fires as soon as anything is queued. *)
Definition shedsWhenBusy : ThreadPool Flags -> bool :=
  fun p => (0 <? length (work_ p))%nat.

(** A fresh set with multiplier 1 (threshold 4) over the idle pool. *)
Definition fresh : Machine Flags := TaskSetBase.construct idlePool 1 [].

(** The same over the busy pool. *)
Definition freshBusy : Machine Flags := TaskSetBase.construct busyPool 1 [].

(** A set above its threshold: five tasks of its own are queued. *)
Definition loaded : Machine Flags :=
  mkMachine (mkTaskSetBase 5 4 None)
    (mkThreadPool
       [(Some 7%nat, Packaged (setFlag 1)); (Some 7%nat, Packaged (setFlag 2));
        (Some 7%nat, Packaged (setFlag 3)); (Some 7%nat, Packaged (setFlag 4));
        (Some 7%nat, Packaged (setFlag 5))] [] 4)
    []
    [EvFetchAdd; EvEnqueue; EvFetchAdd; EvEnqueue; EvFetchAdd; EvEnqueue;
     EvFetchAdd; EvEnqueue; EvFetchAdd; EvEnqueue].

(** One task scheduled on a fresh [TaskSet] whose token is 7. *)
Definition scheduledOnce : Machine Flags :=
  fst (TaskSet.schedule ThreadPool.neverSheds 7%nat (setFlag 1) fresh).

(** A failing task and then a succeeding one, both force-queued on a fresh
    [ConcurrentTaskSet]. *)
Definition scheduledFailing : Machine Flags :=
  fst (ConcurrentTaskSet.schedule_fq (setFlag 2) ForceQueuing
         (fst (ConcurrentTaskSet.schedule_fq (failing 1 "first"%string)
                 ForceQueuing fresh))).

(** A program that may use any unit of work, and one whose units never
    take a flag back. *)
Definition anyUnit : UnitOfWork Flags -> Prop := fun _ => True.

Definition keepsFlags : UnitOfWork Flags -> Prop :=
  fun u => forall n, preserves (fun w => In n w) u.

(** The fresh set as a configuration, and one task scheduled on it through
    a [TaskSet] whose token is 7. *)
Definition cfresh : Config Flags := cconstruct idlePool 1 [].

Definition cscheduledOnce : Config Flags :=
  whole_schedule ThreadPool.neverSheds (OfTaskSet 7%nat) false (setFlag 1) cfresh.

(** Two failing tasks and then a succeeding one, force-queued on a fresh
    [ConcurrentTaskSet]; and the same once the caller has drained the
    queue. *)
Definition cthreeQueued : Config Flags :=
  whole_schedule_fq OfConcurrentTaskSet (setFlag 3)
    (whole_schedule_fq OfConcurrentTaskSet (failing 2 "second"%string)
       (whole_schedule_fq OfConcurrentTaskSet (failing 1 "first"%string) cfresh)).

Definition cthreeDrained : Config Flags :=
  match cwait_loop 3 cthreeQueued with
  | Some c => c
  | None => cthreeQueued
  end.

(** A producer thread is inside [schedule(f)] on a fresh
    [ConcurrentTaskSet]: it has packaged its task and has not called the
    pool yet. *)
Definition cloading : Config Flags :=
  entered (setFlag 1) (admission (None, false) (setFlag 1) (machine cfresh)) cfresh.

Definition cinHand : Config Flags :=
  do_package [] (setFlag 1) (None, false) [] cloading.

(** Two producer threads have both read the counter of a set at its
    threshold (four tasks queued, load factor 4) before either packaged its
    task; then both went on to the end of their calls. *)
Definition catThreshold : Config Flags :=
  whole_schedule_fq OfConcurrentTaskSet (setFlag 4)
    (whole_schedule_fq OfConcurrentTaskSet (setFlag 3)
       (whole_schedule_fq OfConcurrentTaskSet (setFlag 2)
          (whole_schedule_fq OfConcurrentTaskSet (setFlag 1) cfresh))).

Definition cbothLoaded : Config Flags :=
  let c1 := entered (setFlag 5)
              (admission (None, false) (setFlag 5) (machine catThreshold))
              catThreshold in
  entered (setFlag 6) (admission (None, false) (setFlag 6) (machine c1)) c1.

Definition cbothQueued : Config Flags :=
  let e : Entry := (None, false) in
  do_pool ThreadPool.neverSheds [] (setFlag 6) e []
    (do_package [] (setFlag 6) e []
       (do_pool ThreadPool.neverSheds [] (setFlag 5) e [CallPackage (setFlag 6) e]
          (do_package [] (setFlag 5) e [CallPackage (setFlag 6) e] cbothLoaded))).

End Examples.

(** ** Proof tools *)

(** Permutations of concatenations: rotate the right-hand side until its
    first block is the first block of the left-hand side. *)
Ltac perm_rotate :=
  match goal with
  | |- Permutation ?L (?h ++ ?t) =>
      apply (@Permutation_trans _ L (t ++ h) (h ++ t));
      [|apply Permutation_app_comm]; rewrite <- ?app_assoc
  end.

Ltac perm_cancel := first [apply Permutation_refl | apply Permutation_app_head].

Ltac perm_solve :=
  rewrite <- ?app_assoc; rewrite ?app_nil_r;
  repeat first
    [ perm_cancel
    | perm_rotate; perm_cancel
    | perm_rotate; perm_rotate; perm_cancel
    | perm_rotate; perm_rotate; perm_rotate; perm_cancel
    | perm_rotate; perm_rotate; perm_rotate; perm_rotate; perm_cancel
    | perm_rotate; perm_rotate; perm_rotate; perm_rotate; perm_rotate; perm_cancel ].

Ltac forall_split :=
  repeat (progress (rewrite ?Forall_app, ?Forall_cons_iff in *)).

Ltac cons_to_app :=
  repeat match goal with
         | |- context [?x :: ?l] =>
             lazymatch l with
             | [] => fail
             | _ => change (x :: l) with ([x] ++ l)
             end
         end.

(** ** Elementary facts *)

Unset Implicit Arguments.

Section Basics.

Context {World : Type}.
Implicit Types (m : Machine World) (f : Functor World) (u : UnitOfWork World).

Lemma skipn_length_app (A : Type) (h d : list A) : skipn (length h) (h ++ d) = d.
Proof. induction h as [|x h IH]; simpl; auto. Qed.

Lemma since_extends m m' d : history m' = history m ++ d -> since m m' = d.
Proof. unfold since; intros ->; apply skipn_length_app. Qed.

Lemma since_refl m : since m m = [].
Proof. apply since_extends; now rewrite app_nil_r. Qed.

Lemma gtb_lt (a b : Z) : (a >? b) = true <-> b < a.
Proof. rewrite Z.gtb_ltb; apply Z.ltb_lt. Qed.

Lemma gtb_nlt (a b : Z) : (a >? b) = false <-> ~ b < a.
Proof. rewrite Z.gtb_ltb, Z.ltb_ge; lia. Qed.

(** The inline branch shared by both [schedule] bodies: the bare closure is
    called, nothing else is touched. *)
Lemma call_effect t f m :
  history (fst (call t f m)) = history m ++ [EvInvoke t] /\
  world (fst (call t f m)) = fst (f (world m)) /\
  self (fst (call t f m)) = self m /\
  pool_ (fst (call t f m)) = pool_ m /\
  snd (call t f m) = snd (f (world m)).
Proof. unfold call; destruct (f (world m)); simpl; auto. Qed.

(** Invoking a packaged task: the closure is called once on that thread,
    the counter goes down by exactly one whether or not the closure threw,
    and a failure is stored only into an empty slot. *)
Lemma invoke_packaged_effect t f m :
  let m' := TaskSetBase.invoke t (Packaged f) m in
  history m' = history m ++ [EvInvoke t; EvFetchSub] /\
  count m' = count m - 1 /\
  loadFactor m' = loadFactor m /\
  world m' = fst (f (world m)) /\
  pool_ m' = pool_ m /\
  slot m' = match slot m with
            | Some e => Some e
            | None => snd (f (world m))
            end.
Proof.
  destruct m as [[c lf [e0|]] p w h];
    unfold TaskSetBase.invoke, call, TaskSetBase.storeFailure,
      TaskSetBase.fetch_sub, count, loadFactor, slot; simpl;
    destruct (f w) as [w' [e|]]; simpl;
    rewrite <- app_assoc; repeat split.
Qed.

Lemma invoke_foreign_effect t g m :
  let m' := TaskSetBase.invoke t (Foreign g) m in
  history m' = history m ++ [EvInvoke t] /\
  self m' = self m /\
  pool_ m' = pool_ m /\
  world m' = g (world m).
Proof. repeat split. Qed.

End Basics.

(** ** The schedule overloads *)

Section Scheduling.

Context {World : Type}.
Variable loadCheck : ThreadPool World -> bool.
Implicit Types (m : Machine World) (f : Functor World).

Lemma TaskSet_schedule_inline (token_ : ProducerToken) f m :
  loadFactor m < count m ->
  TaskSet.schedule loadCheck token_ f m =
    (fst (call CallingThread f m), outcome (snd (f (world m)))).
Proof.
  intros H. unfold TaskSet.schedule, call.
  apply gtb_lt in H. rewrite H. now destruct (f (world m)) as [w' [e|]].
Qed.

Lemma TaskSet_schedule_handoff (token_ : ProducerToken) f m :
  ~ loadFactor m < count m ->
  TaskSet.schedule loadCheck token_ f m =
    (ThreadPool.schedule_token loadCheck token_ (Packaged f)
       (TaskSetBase.fetch_add m), Returned tt).
Proof.
  intros H. unfold TaskSet.schedule.
  apply gtb_nlt in H. now rewrite H.
Qed.

Lemma ConcurrentTaskSet_schedule_inline f skipRecheck m :
  loadFactor m < count m ->
  ConcurrentTaskSet.schedule loadCheck f skipRecheck m =
    (fst (call CallingThread f m), outcome (snd (f (world m)))).
Proof.
  intros H. unfold ConcurrentTaskSet.schedule, call.
  apply gtb_lt in H. rewrite H. now destruct (f (world m)) as [w' [e|]].
Qed.

Lemma ConcurrentTaskSet_schedule_handoff f skipRecheck m :
  ~ loadFactor m < count m ->
  ConcurrentTaskSet.schedule loadCheck f skipRecheck m =
    ((if skipRecheck
      then ThreadPool.schedule_fq (Packaged f) ForceQueuing
      else ThreadPool.schedule loadCheck (Packaged f))
       (TaskSetBase.fetch_add m), Returned tt).
Proof.
  intros H. unfold ConcurrentTaskSet.schedule.
  apply gtb_nlt in H. rewrite H. now destruct skipRecheck.
Qed.

(** Packaging and then enqueuing: the increment comes first, the closure
    is not called. *)
Lemma package_then_enqueue tok f m :
  let m' := ThreadPool.enqueue tok (Packaged f) (TaskSetBase.fetch_add m) in
  history m' = history m ++ [EvFetchAdd; EvEnqueue] /\
  queue m' = queue m ++ [(tok, Packaged f)] /\
  running m' = running m /\
  world m' = world m /\
  count m' = count m + 1 /\
  loadFactor m' = loadFactor m /\
  slot m' = slot m.
Proof.
  destruct m as [[c lf s] p w h]; simpl.
  unfold ThreadPool.enqueue, TaskSetBase.fetch_add, count, loadFactor, slot,
    queue, running; simpl.
  rewrite <- app_assoc. repeat split.
Qed.

(** Packaging and then being run at once by the pool (its load check
    fired): increment, call on the calling thread, decrement. *)
Lemma package_then_shed f m :
  let m' := TaskSetBase.invoke CallingThread (Packaged f) (TaskSetBase.fetch_add m) in
  history m' =
    history m ++ [EvFetchAdd; EvInvoke CallingThread; EvFetchSub] /\
  pool_ m' = pool_ m /\
  world m' = fst (f (world m)) /\
  count m' = count m /\
  loadFactor m' = loadFactor m /\
  slot m' = match slot m with
            | Some e => Some e
            | None => snd (f (world m))
            end.
Proof.
  destruct m as [[c lf [e0|]] p w h];
    unfold TaskSetBase.invoke, call, TaskSetBase.storeFailure,
      TaskSetBase.fetch_sub, TaskSetBase.fetch_add, count, loadFactor, slot;
    simpl; destruct (f w) as [w' [e|]]; simpl;
    repeat rewrite <- app_assoc; repeat split; f_equal; lia.
Qed.

Lemma In_pair_events (a b x : Event) : In x [a; b] -> x = a \/ x = b.
Proof. simpl; intuition. Qed.

End Scheduling.

Lemma TaskSet_schedule_cases {World : Type} (loadCheck : ThreadPool World -> bool)
    (token_ : ProducerToken) (f : Functor World) (m : Machine World) :
  schedule_cases loadCheck (Some token_) false f m
    (fst (TaskSet.schedule loadCheck token_ f m)).
Proof.
  unfold schedule_cases.
  destruct (Z_lt_dec (loadFactor m) (count m)) as [Hlt|Hge].
  - left. rewrite (TaskSet_schedule_inline loadCheck token_ f m Hlt); simpl.
    destruct (call_effect CallingThread f m) as (Hh & Hw & Hs & Hp & _).
    unfold queue, loadFactor. rewrite Hh, Hw, Hs, Hp. repeat split; auto.
  - right. rewrite (TaskSet_schedule_handoff loadCheck token_ f m Hge); simpl.
    unfold ThreadPool.schedule_token, ThreadPool.schedule_token_fq.
    change (pool_ (TaskSetBase.fetch_add m)) with (pool_ m).
    destruct (loadCheck (pool_ m)) eqn:Hlc.
    + right.
      destruct (package_then_shed f m) as (Hh & Hp & Hw & _ & Hl & _).
      unfold queue. rewrite Hp. repeat split; auto.
    + left.
      destruct (package_then_enqueue (Some token_) f m)
        as (Hh & Hq & _ & Hw & _ & Hl & _).
      repeat split; auto.
Qed.

Lemma ConcurrentTaskSet_schedule_cases {World : Type}
    (loadCheck : ThreadPool World -> bool) (skipRecheck : bool)
    (f : Functor World) (m : Machine World) :
  schedule_cases loadCheck None skipRecheck f m
    (fst (ConcurrentTaskSet.schedule loadCheck f skipRecheck m)).
Proof.
  unfold schedule_cases.
  destruct (Z_lt_dec (loadFactor m) (count m)) as [Hlt|Hge].
  - left. rewrite (ConcurrentTaskSet_schedule_inline loadCheck f skipRecheck m Hlt); simpl.
    destruct (call_effect CallingThread f m) as (Hh & Hw & Hs & Hp & _).
    unfold queue, loadFactor. rewrite Hh, Hw, Hs, Hp. repeat split; auto.
  - right.
    rewrite (ConcurrentTaskSet_schedule_handoff loadCheck f skipRecheck m Hge); simpl.
    destruct (package_then_shed f m) as (Hh & Hp & Hw & _ & Hl & _).
    destruct (package_then_enqueue None f m) as (Hh' & Hq' & _ & Hw' & _ & Hl' & _).
    destruct skipRecheck; unfold ThreadPool.schedule, ThreadPool.schedule_fq.
    + left. repeat split; auto.
    + change (pool_ (TaskSetBase.fetch_add m)) with (pool_ m).
      destruct (loadCheck (pool_ m)) eqn:Hlc.
      * right. unfold queue. rewrite Hp. repeat split; auto.
      * left. repeat split; auto.
Qed.

(** The three cases leave different traces. *)
Lemma schedule_cases_trace {World : Type} (loadCheck : ThreadPool World -> bool)
    (tok : option ProducerToken) (forced : bool) (f : Functor World)
    (m m' : Machine World) :
  schedule_cases loadCheck tok forced f m m' ->
  (since m m' = [EvInvoke CallingThread] <-> loadFactor m < count m) /\
  (loadFactor m < count m ->
     queue m' = queue m /\ world m' = fst (f (world m))) /\
  (~ loadFactor m < count m -> forced = true \/ loadCheck (pool_ m) = false ->
     since m m' = [EvFetchAdd; EvEnqueue] /\
     queue m' = queue m ++ [(tok, Packaged f)] /\ world m' = world m) /\
  (~ loadFactor m < count m -> forced = false -> loadCheck (pool_ m) = true ->
     since m m' = [EvFetchAdd; EvInvoke CallingThread; EvFetchSub] /\
     queue m' = queue m /\ world m' = fst (f (world m))) /\
  loadFactor m' = loadFactor m.
Proof.
  intros [(Hlt & Hh & Hq & Hw & Hl)
         |[(Hge & Hwhy & Hh & Hq & Hw & Hl)
          |(Hge & Hf & Hlc & Hh & Hq & Hw & Hl)]];
    rewrite (since_extends _ _ _ Hh); repeat split; auto;
    try contradiction; try discriminate;
    match goal with
    | H : _ \/ _ |- _ => destruct H; congruence
    end.
Qed.

(** C1, as stated, fails when the pool's own load check fires (the check
    that [skipRecheck] and the tagged overloads bypass): the counter (0) is
    not above the load factor (4), yet the task runs on the calling thread
    and nothing is queued. *)
Lemma C1_pool_check_runs_task_on_caller :
  let ts := fst (TaskSet.schedule Examples.shedsWhenBusy 7%nat
                   (Examples.setFlag 1) Examples.freshBusy) in
  let cts := fst (ConcurrentTaskSet.schedule Examples.shedsWhenBusy
                    (Examples.setFlag 1) false Examples.freshBusy) in
  count Examples.freshBusy = 0 /\ loadFactor Examples.freshBusy = 4 /\
  In (EvInvoke CallingThread) (since Examples.freshBusy ts) /\
  queue ts = queue Examples.freshBusy /\ world ts = [1%nat] /\
  In (EvInvoke CallingThread) (since Examples.freshBusy cts) /\
  queue cts = queue Examples.freshBusy /\ world cts = [1%nat].
Proof. vm_compute. intuition. Qed.

(** C1, amended.  [TaskSet::schedule(f)] and
    [ConcurrentTaskSet::schedule(f)] call the bare closure on the calling
    thread, and do nothing else, exactly when the counter read is strictly
    greater than the load factor.  Otherwise they package [f] and pass the
    packaged task to the pool, which appends it to its queue (through the
    token for a [TaskSet]) unless the pool's own load check fires on an
    untagged entry point; in that case the pool runs the packaged task on
    the calling thread.  The load factor is [stealingLoadMultiplier] times
    the pool's worker count from construction on, and [schedule] does not
    change it. *)
Theorem C1_admission_policy :
  forall (World : Type) (loadCheck : ThreadPool World -> bool)
         (token_ : ProducerToken) (skipRecheck : bool)
         (f : Functor World) (m : Machine World),
    let ts := fst (TaskSet.schedule loadCheck token_ f m) in
    let cts := fst (ConcurrentTaskSet.schedule loadCheck f skipRecheck m) in
    (since m ts = [EvInvoke CallingThread] <-> loadFactor m < count m) /\
    (since m cts = [EvInvoke CallingThread] <-> loadFactor m < count m) /\
    (loadFactor m < count m ->
       queue ts = queue m /\ world ts = fst (f (world m)) /\
       queue cts = queue m /\ world cts = fst (f (world m))) /\
    (~ loadFactor m < count m -> loadCheck (pool_ m) = false ->
       since m ts = [EvFetchAdd; EvEnqueue] /\
       queue ts = queue m ++ [(Some token_, Packaged f)] /\ world ts = world m /\
       since m cts = [EvFetchAdd; EvEnqueue] /\
       queue cts = queue m ++ [(None, Packaged f)] /\ world cts = world m) /\
    (~ loadFactor m < count m -> loadCheck (pool_ m) = true ->
       since m ts = [EvFetchAdd; EvInvoke CallingThread; EvFetchSub] /\
       queue ts = queue m /\ world ts = fst (f (world m)) /\
       (skipRecheck = false ->
          since m cts = [EvFetchAdd; EvInvoke CallingThread; EvFetchSub] /\
          queue cts = queue m /\ world cts = fst (f (world m))) /\
       (skipRecheck = true ->
          since m cts = [EvFetchAdd; EvEnqueue] /\
          queue cts = queue m ++ [(None, Packaged f)] /\ world cts = world m)) /\
    loadFactor ts = loadFactor m /\ loadFactor cts = loadFactor m /\
    (forall (p : ThreadPool World) (stealingLoadMultiplier : Z) (w : World),
       loadFactor (TaskSet.construct p stealingLoadMultiplier w)
         = stealingLoadMultiplier * workerCount p /\
       loadFactor (ConcurrentTaskSet.construct p stealingLoadMultiplier w)
         = stealingLoadMultiplier * workerCount p).
Proof.
  intros World loadCheck token_ skipRecheck f m ts cts.
  destruct (schedule_cases_trace loadCheck (Some token_) false f m ts
              (TaskSet_schedule_cases loadCheck token_ f m))
    as (Ta & Tb & Tc & Td & Te).
  destruct (schedule_cases_trace loadCheck None skipRecheck f m cts
              (ConcurrentTaskSet_schedule_cases loadCheck skipRecheck f m))
    as (Ca & Cb & Cc & Cd & Ce).
  split; [exact Ta|]. split; [exact Ca|].
  split; [intros H; destruct (Tb H); destruct (Cb H); auto|].
  split; [intros Hge Hlc; destruct (Tc Hge (or_intror Hlc)) as (? & ? & ?);
          destruct (Cc Hge (or_intror Hlc)) as (? & ? & ?); auto 10|].
  split.
  - intros Hge Hlc. destruct (Td Hge eq_refl Hlc) as (? & ? & ?).
    split; [assumption|]. split; [assumption|]. split; [assumption|]. split.
    + intros ->. now apply Cd.
    + intros ->. apply Cc; auto.
  - split; [exact Te|]. split; [exact Ce|]. intros p mult w. split; reflexivity.
Qed.

Lemma C1_witness :
  since Examples.loaded
    (fst (TaskSet.schedule ThreadPool.neverSheds 7%nat (Examples.setFlag 9)
            Examples.loaded)) = [EvInvoke CallingThread] /\
  queue (fst (ConcurrentTaskSet.schedule ThreadPool.neverSheds
                (Examples.setFlag 1) false Examples.fresh))
    = [(None, Packaged (Examples.setFlag 1))].
Proof.
  destruct (C1_admission_policy Examples.Flags ThreadPool.neverSheds 7%nat false
              (Examples.setFlag 9) Examples.loaded) as (Hin & _).
  destruct (C1_admission_policy Examples.Flags ThreadPool.neverSheds 7%nat false
              (Examples.setFlag 1) Examples.fresh) as (_ & _ & _ & Hout & _).
  split.
  - apply Hin. vm_compute. reflexivity.
  - apply Hout; [vm_compute; discriminate | reflexivity].
Defined.

(** C4.  [schedule(f, ForceQueuingTag)] of either front end packages [f]
    and appends the packaged task to the pool's queue; [f] is not called
    by the call, whatever the counter and the load factor are and whatever
    load check the pool has. *)
Theorem C4_force_queuing_always_enqueues :
  forall (World : Type) (token_ : ProducerToken) (f : Functor World)
         (fq : ForceQueuingTag) (m : Machine World),
    let ts := TaskSet.schedule_fq token_ f fq m in
    let cts := ConcurrentTaskSet.schedule_fq f fq m in
    (snd ts = Returned tt /\
     since m (fst ts) = [EvFetchAdd; EvEnqueue] /\
     ~ In (EvInvoke CallingThread) (since m (fst ts)) /\
     queue (fst ts) = queue m ++ [(Some token_, Packaged f)] /\
     world (fst ts) = world m /\
     count (fst ts) = count m + 1) /\
    (snd cts = Returned tt /\
     since m (fst cts) = [EvFetchAdd; EvEnqueue] /\
     ~ In (EvInvoke CallingThread) (since m (fst cts)) /\
     queue (fst cts) = queue m ++ [(None, Packaged f)] /\
     world (fst cts) = world m /\
     count (fst cts) = count m + 1).
Proof.
  intros World token_ f fq m ts cts. subst ts cts.
  unfold TaskSet.schedule_fq, ConcurrentTaskSet.schedule_fq,
    ThreadPool.schedule_token_fq, ThreadPool.schedule_fq; simpl.
  destruct (package_then_enqueue (Some token_) f m) as (Hh & Hq & _ & Hw & Hc & _).
  destruct (package_then_enqueue None f m) as (Hh' & Hq' & _ & Hw' & Hc' & _).
  rewrite (since_extends _ _ _ Hh), (since_extends _ _ _ Hh').
  repeat split; try assumption;
    intros Hev; apply In_pair_events in Hev; destruct Hev; discriminate.
Qed.

Lemma C4_witness :
  queue (fst (TaskSet.schedule_fq 7%nat (Examples.setFlag 9) ForceQueuing
                Examples.loaded))
    = queue Examples.loaded ++ [(Some 7%nat, Packaged (Examples.setFlag 9))] /\
  world (fst (ConcurrentTaskSet.schedule_fq (Examples.setFlag 9) ForceQueuing
                Examples.loaded)) = [].
Proof.
  destruct (C4_force_queuing_always_enqueues Examples.Flags 7%nat
              (Examples.setFlag 9) ForceQueuing Examples.loaded)
    as ((_ & _ & _ & Hq & _) & (_ & _ & _ & _ & Hw & _)).
  split; [exact Hq | exact Hw].
Defined.

(** C5.  When the admission check sends the call inline and the closure
    throws, the exception leaves that very [schedule] call; the task set
    (counter, load factor and exception slot) and the pool are as before. *)
Theorem C5_inline_failure_propagates :
  forall (World : Type) (loadCheck : ThreadPool World -> bool)
         (token_ : ProducerToken) (skipRecheck : bool)
         (f : Functor World) (m : Machine World) (e : exception_ptr),
    loadFactor m < count m ->
    snd (f (world m)) = Some e ->
    let ts := TaskSet.schedule loadCheck token_ f m in
    let cts := ConcurrentTaskSet.schedule loadCheck f skipRecheck m in
    (snd ts = Thrown e /\ slot (fst ts) = slot m /\
     self (fst ts) = self m /\ pool_ (fst ts) = pool_ m) /\
    (snd cts = Thrown e /\ slot (fst cts) = slot m /\
     self (fst cts) = self m /\ pool_ (fst cts) = pool_ m).
Proof.
  intros World loadCheck token_ skipRecheck f m e Hload Hthrows ts cts.
  subst ts cts.
  rewrite (TaskSet_schedule_inline loadCheck token_ f m Hload),
    (ConcurrentTaskSet_schedule_inline loadCheck f skipRecheck m Hload); simpl.
  destruct (call_effect CallingThread f m) as (_ & _ & Hs & Hp & _).
  unfold slot. rewrite Hs, Hp, Hthrows. repeat split.
Qed.

Lemma C5_witness :
  snd (TaskSet.schedule ThreadPool.neverSheds 7%nat
         (Examples.failing 9 "boom"%string) Examples.loaded) = Thrown "boom"%string /\
  slot (fst (ConcurrentTaskSet.schedule ThreadPool.neverSheds
         (Examples.failing 9 "boom"%string) false Examples.loaded)) = None.
Proof.
  pose proof (C5_inline_failure_propagates Examples.Flags ThreadPool.neverSheds
                7%nat false (Examples.failing 9 "boom"%string) Examples.loaded
                "boom"%string) as H.
  simpl in H.
  destruct H as ((H1 & _) & (_ & H2 & _)).
  - unfold loadFactor, count; simpl; lia.
  - reflexivity.
  - split; [exact H1 | exact H2].
Defined.

(** C2, as stated, fails on the inline path: above the threshold
    [schedule] calls the bare closure, so the counter is neither
    incremented before the call nor decremented after it. *)
Lemma C2_inline_task_is_not_counted :
  let ts := fst (TaskSet.schedule ThreadPool.neverSheds 7%nat
                   (Examples.setFlag 9) Examples.loaded) in
  let cts := fst (ConcurrentTaskSet.schedule ThreadPool.neverSheds
                    (Examples.setFlag 9) false Examples.loaded) in
  since Examples.loaded ts = [EvInvoke CallingThread] /\
  incremented_first (since Examples.loaded ts) = false /\
  occurrences EvFetchSub (since Examples.loaded ts) = 0%nat /\
  since Examples.loaded cts = [EvInvoke CallingThread] /\
  incremented_first (since Examples.loaded cts) = false /\
  occurrences EvFetchSub (since Examples.loaded cts) = 0%nat.
Proof. vm_compute. repeat split. Qed.

(** C2, amended.  A task that [schedule] hands to the pool (below the
    threshold, or through a force-queuing overload) has the counter
    incremented first, before it is queued or run; a packaged task
    decrements the counter exactly once when it finishes, whether its
    closure returned or threw; a task run inline by the admission check is
    not counted at all: the counter is neither incremented nor
    decremented. *)
Theorem C2_counting_of_scheduled_tasks :
  forall (World : Type) (loadCheck : ThreadPool World -> bool)
         (token_ : ProducerToken) (skipRecheck : bool) (fq : ForceQueuingTag)
         (t : Thread) (f : Functor World) (m : Machine World),
    let ts := fst (TaskSet.schedule loadCheck token_ f m) in
    let cts := fst (ConcurrentTaskSet.schedule loadCheck f skipRecheck m) in
    let done := TaskSetBase.invoke t (Packaged f) m in
    (~ loadFactor m < count m ->
       incremented_first (since m ts) = true /\
       incremented_first (since m cts) = true) /\
    incremented_first (since m (fst (TaskSet.schedule_fq token_ f fq m))) = true /\
    incremented_first (since m (fst (ConcurrentTaskSet.schedule_fq f fq m))) = true /\
    (count done = count m - 1 /\ since m done = [EvInvoke t; EvFetchSub]) /\
    (loadFactor m < count m ->
       count ts = count m /\ since m ts = [EvInvoke CallingThread] /\
       count cts = count m /\ since m cts = [EvInvoke CallingThread]).
Proof.
  intros World loadCheck token_ skipRecheck fq t f m ts cts done.
  repeat split.
  - subst ts. rewrite (TaskSet_schedule_handoff loadCheck token_ f m H); simpl.
    unfold ThreadPool.schedule_token.
    destruct (loadCheck (pool_ (TaskSetBase.fetch_add m))).
    + destruct (package_then_shed f m) as (Hh & _).
      now rewrite (since_extends _ _ _ Hh).
    + destruct (package_then_enqueue (Some token_) f m) as (Hh & _).
      unfold ThreadPool.schedule_token_fq. now rewrite (since_extends _ _ _ Hh).
  - subst cts.
    rewrite (ConcurrentTaskSet_schedule_handoff loadCheck f skipRecheck m H); simpl.
    destruct (package_then_enqueue None f m) as (Hh & _).
    destruct (package_then_shed f m) as (Hh' & _).
    unfold ThreadPool.schedule, ThreadPool.schedule_fq.
    destruct skipRecheck; [|destruct (loadCheck (pool_ (TaskSetBase.fetch_add m)))].
    + now rewrite (since_extends _ _ _ Hh).
    + now rewrite (since_extends _ _ _ Hh').
    + now rewrite (since_extends _ _ _ Hh).
  - destruct (package_then_enqueue (Some token_) f m) as (Hh & _).
    unfold TaskSet.schedule_fq, ThreadPool.schedule_token_fq; simpl.
    now rewrite (since_extends _ _ _ Hh).
  - destruct (package_then_enqueue None f m) as (Hh & _).
    unfold ConcurrentTaskSet.schedule_fq, ThreadPool.schedule_fq; simpl.
    now rewrite (since_extends _ _ _ Hh).
  - now destruct (invoke_packaged_effect t f m) as (_ & Hc & _).
  - destruct (invoke_packaged_effect t f m) as (Hh & _).
    now apply since_extends.
  - subst ts. rewrite (TaskSet_schedule_inline loadCheck token_ f m H); simpl.
    destruct (call_effect CallingThread f m) as (_ & _ & Hs & _).
    unfold count. now rewrite Hs.
  - subst ts. rewrite (TaskSet_schedule_inline loadCheck token_ f m H); simpl.
    destruct (call_effect CallingThread f m) as (Hh & _).
    now apply since_extends.
  - subst cts.
    rewrite (ConcurrentTaskSet_schedule_inline loadCheck f skipRecheck m H); simpl.
    destruct (call_effect CallingThread f m) as (_ & _ & Hs & _).
    unfold count. now rewrite Hs.
  - subst cts.
    rewrite (ConcurrentTaskSet_schedule_inline loadCheck f skipRecheck m H); simpl.
    destruct (call_effect CallingThread f m) as (Hh & _).
    now apply since_extends.
Qed.

Lemma C2_witness :
  incremented_first
    (since Examples.fresh
       (fst (TaskSet.schedule ThreadPool.neverSheds 7%nat (Examples.setFlag 1)
               Examples.fresh))) = true /\
  count (TaskSetBase.invoke PoolThread (Packaged (Examples.failing 1 "boom"%string))
           Examples.scheduledOnce) = 0.
Proof.
  destruct (C2_counting_of_scheduled_tasks Examples.Flags ThreadPool.neverSheds
              7%nat false ForceQueuing PoolThread (Examples.setFlag 1)
              Examples.fresh) as (Hfirst & _).
  destruct (C2_counting_of_scheduled_tasks Examples.Flags ThreadPool.neverSheds
              7%nat false ForceQueuing PoolThread
              (Examples.failing 1 "boom"%string)
              Examples.scheduledOnce) as (_ & _ & _ & (Hdone & _) & _).
  split.
  - apply Hfirst. vm_compute. discriminate.
  - rewrite Hdone. reflexivity.
Defined.

(** C8, as stated, fails: over a pool whose own load check fires, the same
    call below the set's threshold runs the packaged task on the calling
    thread with [skipRecheck = false] and queues it with
    [skipRecheck = true]; memory, counter, queue and history all differ. *)
Lemma C8_skipRecheck_is_observable :
  let skipping := ConcurrentTaskSet.schedule Examples.shedsWhenBusy
                    (Examples.setFlag 1) true Examples.freshBusy in
  let rechecking := ConcurrentTaskSet.schedule Examples.shedsWhenBusy
                      (Examples.setFlag 1) false Examples.freshBusy in
  skipping <> rechecking /\
  world (fst skipping) = [] /\ world (fst rechecking) = [1%nat] /\
  count (fst skipping) = 1 /\ count (fst rechecking) = 0 /\
  length (queue (fst skipping)) = 2%nat /\
  length (queue (fst rechecking)) = 1%nat /\
  since Examples.freshBusy (fst skipping) = [EvFetchAdd; EvEnqueue] /\
  since Examples.freshBusy (fst rechecking)
    = [EvFetchAdd; EvInvoke CallingThread; EvFetchSub].
Proof.
  split.
  - intros H. apply (f_equal (fun r => world (fst r))) in H.
    vm_compute in H. discriminate.
  - vm_compute. repeat split.
Qed.

(** C8, amended.  [schedule(f, true)] and [schedule(f, false)] of a
    [ConcurrentTaskSet] give the same machine and the same result whenever
    the admission check sends [f] inline or the pool's own load check does
    not fire.  When the set is at or below its threshold and the pool's
    check fires, [skipRecheck = true] queues the packaged task without
    calling [f], and [skipRecheck = false] lets the pool run the packaged
    task on the calling thread: [f] is called there, the counter is back at
    its value, and a failure of [f] goes to the exception slot. *)
Theorem C8_skipRecheck_equivalence :
  forall (World : Type) (loadCheck : ThreadPool World -> bool)
         (f : Functor World) (m : Machine World),
    let skipping := ConcurrentTaskSet.schedule loadCheck f true m in
    let rechecking := ConcurrentTaskSet.schedule loadCheck f false m in
    (loadFactor m < count m \/ loadCheck (pool_ m) = false ->
       skipping = rechecking) /\
    (~ loadFactor m < count m -> loadCheck (pool_ m) = true ->
       (since m (fst skipping) = [EvFetchAdd; EvEnqueue] /\
        queue (fst skipping) = queue m ++ [(None, Packaged f)] /\
        world (fst skipping) = world m /\
        count (fst skipping) = count m + 1 /\
        slot (fst skipping) = slot m) /\
       (since m (fst rechecking)
          = [EvFetchAdd; EvInvoke CallingThread; EvFetchSub] /\
        queue (fst rechecking) = queue m /\
        world (fst rechecking) = fst (f (world m)) /\
        count (fst rechecking) = count m /\
        slot (fst rechecking) = match slot m with
                                | Some e => Some e
                                | None => snd (f (world m))
                                end)).
Proof.
  intros World loadCheck f m skipping rechecking. subst skipping rechecking.
  split.
  - intros [H|H].
    + now rewrite !(ConcurrentTaskSet_schedule_inline loadCheck f _ m H).
    + destruct (Z_lt_dec (loadFactor m) (count m)) as [Hlt|Hge].
      * now rewrite !(ConcurrentTaskSet_schedule_inline loadCheck f _ m Hlt).
      * rewrite !(ConcurrentTaskSet_schedule_handoff loadCheck f _ m Hge).
        unfold ThreadPool.schedule.
        change (pool_ (TaskSetBase.fetch_add m)) with (pool_ m).
        now rewrite H.
  - intros Hge Hfires.
    rewrite !(ConcurrentTaskSet_schedule_handoff loadCheck f _ m Hge); simpl.
    unfold ThreadPool.schedule, ThreadPool.schedule_fq.
    change (pool_ (TaskSetBase.fetch_add m)) with (pool_ m).
    rewrite Hfires.
    destruct (package_then_enqueue None f m) as (Hh & Hq & _ & Hw & Hc & _ & Hs).
    destruct (package_then_shed f m) as (Hh' & Hp' & Hw' & Hc' & _ & Hs').
    rewrite (since_extends _ _ _ Hh), (since_extends _ _ _ Hh').
    unfold queue at 3. rewrite Hp'. repeat split; assumption.
Qed.

Lemma C8_witness :
  ConcurrentTaskSet.schedule Examples.shedsWhenBusy (Examples.setFlag 1) true
    Examples.fresh
  = ConcurrentTaskSet.schedule Examples.shedsWhenBusy (Examples.setFlag 1) false
      Examples.fresh /\
  count (fst (ConcurrentTaskSet.schedule Examples.shedsWhenBusy
                (Examples.setFlag 1) false Examples.freshBusy)) = 0.
Proof.
  split.
  - apply (proj1 (C8_skipRecheck_equivalence Examples.Flags
                    Examples.shedsWhenBusy (Examples.setFlag 1) Examples.fresh)).
    right. reflexivity.
  - apply (proj2 (C8_skipRecheck_equivalence Examples.Flags
                    Examples.shedsWhenBusy (Examples.setFlag 1) Examples.freshBusy)).
    + unfold loadFactor, count; simpl; lia.
    + reflexivity.
Defined.

(** ** The accounting invariant *)

Section Invariant.

Context {World : Type}.
Variable loadCheck : ThreadPool World -> bool.
Implicit Types (m : Machine World) (f : Functor World) (u : UnitOfWork World).

Lemma owned_app (l1 l2 : list (UnitOfWork World)) :
  owned (l1 ++ l2) = (owned l1 + owned l2)%nat.
Proof. unfold owned. now rewrite filter_app, length_app. Qed.

Lemma owned_cons u (l : list (UnitOfWork World)) :
  Z.of_nat (owned (u :: l)) = weight u + Z.of_nat (owned l).
Proof. unfold owned, weight; simpl. destruct (is_packaged u); simpl length; lia. Qed.

Lemma occurrences_app ev (h d : list Event) :
  occurrences ev (h ++ d) = (occurrences ev h + occurrences ev d)%nat.
Proof. apply count_occ_app. Qed.

Lemma balance_app (h d : list Event) : balance (h ++ d) = balance h + balance d.
Proof. unfold balance. rewrite !occurrences_app. lia. Qed.

Lemma pending_pool m m' : pool_ m' = pool_ m -> pending m' = pending m.
Proof. unfold pending, queued, in_flight, queue, running. now intros ->. Qed.

(** An operation that moves counter, pending tasks and balance by the same
    amount keeps the machine accounted. *)
Lemma accounted_shift (d : Z) m m' :
  accounted m ->
  count m' = count m + d ->
  Z.of_nat (pending m') = Z.of_nat (pending m) + d ->
  balance (history m') = balance (history m) + d ->
  accounted m'.
Proof. unfold accounted. intros [H1 H2] Hc Hp Hb. lia. Qed.

Lemma invoke_accounting t u m :
  let m' := TaskSetBase.invoke t u m in
  pool_ m' = pool_ m /\
  count m' = count m - weight u /\
  loadFactor m' = loadFactor m /\
  balance (history m') = balance (history m) - weight u.
Proof.
  destruct u as [f|g].
  - destruct (invoke_packaged_effect t f m) as (Hh & Hc & Hl & _ & Hp & _).
    cbv zeta. rewrite Hh, balance_app.
    repeat split; try assumption;
      try (unfold weight; simpl; destruct t; reflexivity).
  - destruct (invoke_foreign_effect t g m) as (Hh & Hs & Hp & _).
    cbv zeta. rewrite Hh, balance_app. unfold count, loadFactor. rewrite Hs.
    unfold weight; simpl.
    repeat split; try assumption; try lia; try (destruct t; reflexivity).
Qed.

Lemma accounted_call t f m : accounted m -> accounted (fst (call t f m)).
Proof.
  intros H. destruct (call_effect t f m) as (Hh & _ & Hs & Hp & _).
  apply (accounted_shift 0 m); auto.
  - unfold count. rewrite Hs. lia.
  - rewrite (pending_pool _ _ Hp). lia.
  - rewrite Hh, balance_app. destruct t; reflexivity.
Qed.

Lemma accounted_package_enqueue tok f m :
  accounted m ->
  accounted (ThreadPool.enqueue tok (Packaged f) (TaskSetBase.fetch_add m)).
Proof.
  intros H.
  destruct (package_then_enqueue tok f m) as (Hh & Hq & Hr & _ & Hc & _).
  apply (accounted_shift 1 m); auto.
  - unfold pending, queued, in_flight. rewrite Hq, Hr, map_app, owned_app; simpl.
    unfold owned at 2; simpl. lia.
  - rewrite Hh, balance_app. reflexivity.
Qed.

Lemma accounted_package_shed f m :
  accounted m ->
  accounted (TaskSetBase.invoke CallingThread (Packaged f) (TaskSetBase.fetch_add m)).
Proof.
  intros H.
  destruct (package_then_shed f m) as (Hh & Hp & _ & Hc & _).
  apply (accounted_shift 0 m); auto.
  - lia.
  - rewrite (pending_pool _ _ Hp). lia.
  - rewrite Hh, balance_app. reflexivity.
Qed.

(** Removing a unit from the queue or from the running list and invoking
    it keeps the balance: a packaged task takes one off each side. *)
Lemma accounted_invoke_removed t u m0 m :
  accounted m ->
  count m0 = count m -> history m0 = history m ->
  Z.of_nat (pending m0) = Z.of_nat (pending m) - weight u ->
  accounted (TaskSetBase.invoke t u m0).
Proof.
  intros H Hc Hh Hp.
  destruct (invoke_accounting t u m0) as (Hp' & Hc' & _ & Hb').
  apply (accounted_shift (- weight u) m); auto.
  - rewrite Hc', Hc. lia.
  - rewrite (pending_pool _ _ Hp'). lia.
  - rewrite Hb', Hh. lia.
Qed.

Lemma accounted_tryExecuteNext m :
  accounted m -> accounted (fst (ThreadPool.tryExecuteNext m)).
Proof.
  intros H. unfold ThreadPool.tryExecuteNext.
  destruct (queue m) as [|[tok u] rest] eqn:Hq; simpl; auto.
  apply (accounted_invoke_removed _ _ _ m); auto.
  unfold pending, queued, in_flight, queue in *; simpl. rewrite Hq; simpl.
  rewrite !Nat2Z.inj_add, owned_cons.
  unfold running; simpl. lia.
Qed.

Lemma accounted_step m m' : accounted m -> ThreadPool.step m m' -> accounted m'.
Proof.
  intros H Hs. destruct Hs as [m q1 [tok u] q2 Hq|m r1 u r2 Hr|m tok g].
  - apply (accounted_shift 0 m); auto.
    + unfold count; simpl; lia.
    + unfold pending, queued, in_flight, queue, running in *; simpl.
      rewrite Hq, !map_app, !owned_app; simpl map.
      rewrite !Nat2Z.inj_add, !owned_cons. lia.
    + simpl; lia.
  - apply (accounted_invoke_removed _ _ _ m); auto.
    unfold pending, queued, in_flight, queue, running in *; simpl.
    rewrite Hr, !owned_app, !Nat2Z.inj_add, owned_cons. lia.
  - apply (accounted_shift 0 m); auto.
    + unfold count; simpl; lia.
    + unfold pending, queued, in_flight, queue, running; simpl.
      rewrite map_app, owned_app; simpl. unfold owned at 2; simpl. lia.
    + simpl; lia.
Qed.

Lemma accounted_rethrow m :
  accounted m -> accounted (fst (TaskSetBase.rethrowCaptured m)).
Proof.
  unfold TaskSetBase.rethrowCaptured. destruct (slot m); auto.
Qed.

Lemma accounted_waiting m m' :
  accounted m -> TaskSetCore.waiting m m' -> accounted m' /\ count m' = 0.
Proof.
  intros H Hw. induction Hw as [m Hz|m m1 ran m2 Hnz Hex Hw IH|m m1 m2 Hs Hw IH].
  - auto.
  - apply IH. change m1 with (fst (m1, ran)). rewrite <- Hex.
    now apply accounted_tryExecuteNext.
  - apply IH. eauto using accounted_step.
Qed.

(** Once the counter is 0 no task of the set is left, so nothing the rest
    of the system does can move it. *)
Lemma drained_step m m' :
  accounted m -> count m = 0 -> ThreadPool.step m m' -> count m' = 0.
Proof.
  intros [Ha _] Hz Hs. rewrite Hz in Ha.
  assert (Hp : pending m = 0%nat) by lia. clear Ha.
  destruct Hs as [x q1 [tok u] q2 Hq|x r1 u r2 Hr|x tok g]; auto.
  destruct (invoke_accounting PoolThread u (with_running (r1 ++ r2) x))
    as (_ & Hc & _).
  rewrite Hc. change (count (with_running (r1 ++ r2) x)) with (count x).
  unfold pending, in_flight, running in Hp, Hr. rewrite Hr in Hp.
  rewrite owned_app in Hp.
  pose proof (owned_cons u r2) as Hw0.
  assert (0 <= weight u) by (unfold weight; destruct (is_packaged u); lia).
  lia.
Qed.

Lemma drained_steps m m' :
  accounted m -> count m = 0 -> ThreadPool.steps m m' ->
  accounted m' /\ count m' = 0.
Proof.
  intros Ha Hz Hs. induction Hs as [a b Hab| |a b c _ IH1 _ IH2].
  - split; eauto using accounted_step, drained_step.
  - auto.
  - destruct (IH1 Ha Hz). now apply IH2.
Qed.

Lemma accounted_waits m m' r :
  accounted m -> TaskSetCore.waits m m' r ->
  accounted m' /\ count m' = 0 /\ pending m' = 0%nat.
Proof.
  intros H (m1 & m2 & Hw & Hs & Hr).
  destruct (accounted_waiting _ _ H Hw) as [H1 Hz].
  destruct (drained_steps _ _ H1 Hz Hs) as [Hacc2 Hz2].
  assert (Hm' : m' = fst (TaskSetBase.rethrowCaptured m2)) by (now rewrite Hr).
  assert (Hacc' : accounted m') by (subst m'; now apply accounted_rethrow).
  assert (Hc' : count m' = 0).
  { subst m'. unfold TaskSetBase.rethrowCaptured. destruct (slot m2); auto. }
  repeat split; try apply Hacc'; auto.
  destruct Hacc' as [Hp _]. lia.
Qed.

End Invariant.

(** ** wait: the loop alone and under interleaving *)

Section Waiting.

Context {World : Type}.
Implicit Types (m : Machine World) (f : Functor World) (u : UnitOfWork World).

(** The loop run by a caller alone is one of the interleavings. *)
Lemma wait_loop_waiting fuel m m1 :
  TaskSetCore.wait_loop fuel m = Some m1 -> TaskSetCore.waiting m m1.
Proof.
  revert m. induction fuel as [|k IH]; intros m; simpl;
    destruct (count m =? 0) eqn:Hz; intros H; try discriminate.
  - injection H as <-. apply TaskSetCore.waiting_exit. now apply Z.eqb_eq.
  - injection H as <-. apply TaskSetCore.waiting_exit. now apply Z.eqb_eq.
  - apply Z.eqb_neq in Hz.
    eapply TaskSetCore.waiting_iteration;
      [exact Hz | apply surjective_pairing | now apply IH].
Qed.

Lemma wait_refines fuel m m' r :
  TaskSetCore.wait fuel m = Some (m', r) -> TaskSetCore.waits m m' r.
Proof.
  unfold TaskSetCore.wait.
  destruct (TaskSetCore.wait_loop fuel m) as [m1|] eqn:Hl; [|discriminate].
  intros H. injection H as H.
  exists m1, m1. split; [eauto using wait_loop_waiting|].
  split; [apply rt_refl | exact H].
Qed.

(** With no task of the set in the hands of a worker, the caller drains
    the queue by itself: as many iterations as the queue is long suffice. *)
Lemma wait_loop_terminates m :
  accounted m -> in_flight m = 0%nat ->
  exists m1, TaskSetCore.wait_loop (length (queue m)) m = Some m1.
Proof.
  remember (length (queue m)) as n eqn:Hn. revert m Hn.
  induction n as [|n IH]; intros m Hn Hacc Hfl; simpl;
    destruct (count m =? 0) eqn:Hz; eauto; apply Z.eqb_neq in Hz.
  - exfalso. destruct Hacc as [Hp _].
    unfold pending, queued in Hp. destruct (queue m); [|discriminate].
    rewrite Hfl in Hp. simpl in Hp. unfold owned in Hp; simpl in Hp. lia.
  - pose proof (accounted_tryExecuteNext m Hacc) as Hacc'.
    unfold ThreadPool.tryExecuteNext in *.
    destruct (queue m) as [|[tok u] rest] eqn:Hq; [discriminate|].
    simpl in *. apply IH; auto.
    + destruct (invoke_accounting CallingThread u (with_queue rest m)) as (Hp & _).
      unfold queue. rewrite Hp. simpl. now injection Hn.
    + destruct (invoke_accounting CallingThread u (with_queue rest m)) as (Hp & _).
      unfold in_flight, running in *. now rewrite Hp.
Qed.

(** The exception slot is written at most once: whatever runs, an occupied
    slot keeps what it holds. *)
Lemma slot_kept_invoke t u m e :
  slot m = Some e -> slot (TaskSetBase.invoke t u m) = Some e.
Proof.
  intros H. destruct u as [f|g].
  - destruct (invoke_packaged_effect t f m) as (_ & _ & _ & _ & _ & Hs).
    cbv zeta in Hs. now rewrite Hs, H.
  - destruct (invoke_foreign_effect t g m) as (_ & Hs & _).
    unfold slot in *. cbv zeta in Hs. now rewrite Hs.
Qed.

Lemma slot_kept_tryExecuteNext m e :
  slot m = Some e -> slot (fst (ThreadPool.tryExecuteNext m)) = Some e.
Proof.
  intros H. unfold ThreadPool.tryExecuteNext.
  destruct (queue m) as [|[tok u] rest]; simpl; auto.
  now apply slot_kept_invoke.
Qed.

Lemma slot_kept_step m m' e :
  slot m = Some e -> ThreadPool.step m m' -> slot m' = Some e.
Proof.
  intros H Hs. destruct Hs as [x q1 [tok u] q2 Hq|x r1 u r2 Hr|x tok g]; auto.
  now apply slot_kept_invoke.
Qed.

Lemma slot_kept_steps m m' e :
  slot m = Some e -> ThreadPool.steps m m' -> slot m' = Some e.
Proof. intros H Hs. induction Hs; eauto using slot_kept_step. Qed.

Lemma slot_kept_waiting m m' e :
  slot m = Some e -> TaskSetCore.waiting m m' -> slot m' = Some e.
Proof.
  intros H Hw. induction Hw as [m Hz|m m1 ran m2 Hnz Hex Hw IH|m m1 m2 Hs Hw IH]; auto.
  - apply IH. change m1 with (fst (m1, ran)). rewrite <- Hex.
    now apply slot_kept_tryExecuteNext.
  - eauto using slot_kept_step.
Qed.

(** What [wait] hands back: the captured failure if there is one, and an
    empty slot in either case. *)
Lemma waits_outcome m m' r :
  TaskSetCore.waits m m' r ->
  slot m' = None /\
  (forall e, slot m = Some e -> r = Thrown e) /\
  exists m2, count m' = count m2 /\ pool_ m' = pool_ m2 /\
             world m' = world m2 /\ history m' = history m2 /\
             r = outcome (slot m2).
Proof.
  intros (m1 & m2 & Hw & Hs & Hr).
  unfold TaskSetBase.rethrowCaptured in Hr.
  split; [|split].
  - destruct (slot m2) eqn:E; injection Hr as <- <-; auto.
  - intros e He.
    pose proof (slot_kept_steps _ _ _ (slot_kept_waiting _ _ _ He Hw) Hs) as H2.
    rewrite H2 in Hr. now injection Hr as <- <-.
  - exists m2. destruct (slot m2) eqn:E; injection Hr as <- <-; repeat split.
Qed.

End Waiting.

(** ** Failures: capture, re-raise, and bounded draining *)

Section Failures.

Context {World : Type}.
Implicit Types (m : Machine World) (f : Functor World) (u : UnitOfWork World).

Lemma owned_zero_harmless (l : list (UnitOfWork World)) :
  owned l = 0%nat -> Forall harmless l.
Proof.
  induction l as [|u l IH]; intros H; constructor.
  - destruct u; [discriminate H | exact I].
  - apply IH. destruct u; [discriminate H | exact H].
Qed.

Lemma calm_of_drained m : pending m = 0%nat -> slot m = None -> calm m.
Proof.
  unfold pending, queued, in_flight. intros Hp Hs.
  repeat split; auto; apply owned_zero_harmless; lia.
Qed.

Lemma harmless_invoke t u m :
  harmless u -> slot m = None ->
  slot (TaskSetBase.invoke t u m) = None /\ pool_ (TaskSetBase.invoke t u m) = pool_ m.
Proof.
  intros Hu Hs. destruct u as [f|g].
  - destruct (invoke_packaged_effect t f m) as (_ & _ & _ & _ & Hp & Hs').
    cbv zeta in Hp, Hs'. rewrite Hs', Hs. split; auto.
  - destruct (invoke_foreign_effect t g m) as (_ & Hs' & Hp & _).
    cbv zeta in Hp, Hs'. unfold slot in *. rewrite Hs'. auto.
Qed.

Lemma calm_tryExecuteNext m : calm m -> calm (fst (ThreadPool.tryExecuteNext m)).
Proof.
  intros (Hs & Hq & Hr). unfold ThreadPool.tryExecuteNext.
  destruct (queue m) as [|[tok u] rest] eqn:E; simpl;
    [repeat split; auto; rewrite E; constructor|].
  simpl in Hq.
  pose proof (Forall_inv Hq) as Hu. pose proof (Forall_inv_tail Hq) as Hrest.
  destruct (harmless_invoke CallingThread u (with_queue rest m) Hu Hs) as [Hs' Hp'].
  unfold calm, queue, running. rewrite Hs', Hp'. simpl. auto.
Qed.

Lemma calm_step m m' : calm m -> ThreadPool.step m m' -> calm m'.
Proof.
  intros (Hs & Hq & Hr) Hst.
  destruct Hst as [x q1 [tok u] q2 E|x r1 u r2 E|x tok g].
  - rewrite E, map_app in Hq. apply Forall_app in Hq as [H1 H2].
    simpl in H2.
    pose proof (Forall_inv H2) as Hu. pose proof (Forall_inv_tail H2) as H3.
    unfold calm, queue, running; simpl. split; [exact Hs|].
    split; [rewrite map_app; apply Forall_app; auto | constructor; auto].
  - rewrite E in Hr. apply Forall_app in Hr as [H1 H2].
    pose proof (Forall_inv H2) as Hu. pose proof (Forall_inv_tail H2) as H3.
    destruct (harmless_invoke PoolThread u (with_running (r1 ++ r2) x) Hu Hs)
      as [Hs' Hp'].
    unfold calm, queue, running. rewrite Hs', Hp'. simpl.
    split; [reflexivity|]. split; [exact Hq | apply Forall_app; auto].
  - unfold calm, queue, running; simpl. split; [exact Hs|].
    split; [|exact Hr]. rewrite map_app. apply Forall_app. split; [exact Hq|].
    constructor; [exact I | constructor].
Qed.

Lemma calm_steps m m' : calm m -> ThreadPool.steps m m' -> calm m'.
Proof. intros H Hs. induction Hs; eauto using calm_step. Qed.

Lemma calm_waiting m m' : calm m -> TaskSetCore.waiting m m' -> calm m'.
Proof.
  intros H Hw. induction Hw as [m Hz|m m1 ran m2 Hnz Hex Hw IH|m m1 m2 Hs Hw IH]; auto.
  - apply IH. change m1 with (fst (m1, ran)). rewrite <- Hex.
    now apply calm_tryExecuteNext.
  - eauto using calm_step.
Qed.

Lemma calm_waits m m' r : calm m -> TaskSetCore.waits m m' r -> r = Returned tt.
Proof.
  intros H (m1 & m2 & Hw & Hs & Hr).
  destruct (calm_steps _ _ (calm_waiting _ _ H Hw) Hs) as (Hs2 & _).
  unfold TaskSetBase.rethrowCaptured in Hr. rewrite Hs2 in Hr.
  now injection Hr as _ <-.
Qed.

Lemma calm_schedule_batch (h : Handle) (gs : list (Functor World)) m :
  Forall never_throws gs -> calm m -> calm (schedule_batch h gs m).
Proof.
  unfold schedule_batch. revert m.
  induction gs as [|g gs IH]; intros m Hgs Hc; simpl; auto.
  pose proof (Forall_inv Hgs) as Hg. pose proof (Forall_inv_tail Hgs) as Hrest.
  apply IH; auto.
  destruct Hc as (Hs & Hq & Hr).
  assert (H : forall tok,
            calm (ThreadPool.enqueue tok (Packaged g) (TaskSetBase.fetch_add m))).
  { intros tok.
    destruct (package_then_enqueue tok g m) as (_ & Hq' & Hr' & _ & _ & _ & Hs').
    unfold calm. rewrite Hs', Hq', Hr', map_app. split; [exact Hs|].
    split; [|exact Hr]. apply Forall_app. split; [exact Hq|].
    constructor; [exact Hg | constructor]. }
  destruct h as [tok|]; apply H.
Qed.

(** A stolen unit is one call on the calling thread. *)
Lemma tryExecuteNext_history m :
  exists d, history (fst (ThreadPool.tryExecuteNext m)) = history m ++ d /\
            (occurrences (EvInvoke CallingThread) d <= 1)%nat.
Proof.
  unfold ThreadPool.tryExecuteNext.
  destruct (queue m) as [|[tok [f|g]] rest]; simpl.
  - exists []. rewrite app_nil_r. auto.
  - destruct (invoke_packaged_effect CallingThread f (with_queue rest m)) as (Hh & _).
    eexists. split; [exact Hh|]. simpl. lia.
  - destruct (invoke_foreign_effect CallingThread g (with_queue rest m)) as (Hh & _).
    eexists. split; [exact Hh|]. simpl. lia.
Qed.

Lemma tryWait_loop_history n m :
  exists d, history (TaskSetCore.tryWait_loop n m) = history m ++ d /\
            (occurrences (EvInvoke CallingThread) d <= n)%nat.
Proof.
  revert m. induction n as [|n IH]; intros m; simpl.
  - exists []. rewrite app_nil_r. auto.
  - destruct (count m =? 0).
    + exists []. rewrite app_nil_r. split; [reflexivity | simpl; lia].
    + destruct (tryExecuteNext_history m) as (d1 & H1 & Hb1).
      destruct (IH (fst (ThreadPool.tryExecuteNext m))) as (d2 & H2 & Hb2).
      exists (d1 ++ d2). rewrite H2, H1, app_assoc. split; [reflexivity|].
      unfold occurrences in *. rewrite count_occ_app. lia.
Qed.

Lemma rethrowCaptured_effect m :
  let r := TaskSetBase.rethrowCaptured m in
  snd r = outcome (slot m) /\ slot (fst r) = None /\
  count (fst r) = count m /\ pool_ (fst r) = pool_ m /\
  world (fst r) = world m /\ history (fst r) = history m.
Proof.
  unfold TaskSetBase.rethrowCaptured.
  destruct (slot m) eqn:E; simpl; repeat split; auto.
Qed.

End Failures.

(** C7.  [tryWait(maxToExecute)] calls user code on the calling thread at
    most [maxToExecute] times; it returns false exactly when the counter is
    not 0 after that, and when the counter is 0 it re-raises the captured
    failure if there is one and returns true otherwise, with the slot empty
    in both cases.  [tryWait(0)] runs no loop iteration: it executes
    nothing and leaves pool, memory, counter and history as they were.
    Unlike [wait], [tryWait] needs no fuel: its loop is bounded by its
    argument, so the call always returns. *)
Theorem C7_tryWait_bounded :
  forall (World : Type) (maxToExecute : nat) (m : Machine World),
    let tw := TaskSet.tryWait maxToExecute m in
    let drained := TaskSetCore.tryWait_loop maxToExecute m in
    ConcurrentTaskSet.tryWait maxToExecute m = tw /\
    (occurrences (EvInvoke CallingThread) (since m (fst tw)) <= maxToExecute)%nat /\
    (snd tw = Returned false <-> count (fst tw) <> 0) /\
    (snd tw = Returned true <-> count (fst tw) = 0 /\ slot drained = None) /\
    (forall e, snd tw = Thrown e <-> count (fst tw) = 0 /\ slot drained = Some e) /\
    (count (fst tw) = 0 -> slot (fst tw) = None) /\
    (let tw0 := TaskSet.tryWait 0 m in
     since m (fst tw0) = [] /\ pool_ (fst tw0) = pool_ m /\
     world (fst tw0) = world m /\ count (fst tw0) = count m /\
     (snd tw0 = Returned false <-> count m <> 0)).
Proof.
  intros World n m tw drained.
  assert (Hshape :
    (count drained = 0 /\ tw = (fst (TaskSetBase.rethrowCaptured drained),
                                 match slot drained with
                                 | Some e => Thrown e
                                 | None => Returned true
                                 end)) \/
    (count drained <> 0 /\ tw = (drained, Returned false))).
  { subst tw. unfold TaskSet.tryWait, TaskSetCore.tryWait. fold drained.
    destruct (count drained =? 0) eqn:Hz.
    - left. apply Z.eqb_eq in Hz. split; [exact Hz|].
      unfold TaskSetBase.rethrowCaptured. now destruct (slot drained).
    - right. apply Z.eqb_neq in Hz. auto. }
  destruct (rethrowCaptured_effect drained) as (_ & Hs & Hc & Hp & Hw & Hh).
  cbv zeta in Hs, Hc, Hp, Hw, Hh.
  destruct (tryWait_loop_history n m) as (d & Hd & Hbound). fold drained in Hd.
  split; [reflexivity|].
  assert (Hsince : since m (fst tw) = d).
  { apply since_extends.
    destruct Hshape as [[_ ->]|[_ ->]]; simpl; [now rewrite Hh | exact Hd]. }
  split; [now rewrite Hsince|].
  assert (Hcount : count (fst tw) = count drained).
  { destruct Hshape as [[_ ->]|[_ ->]]; simpl; auto. }
  split; [|split; [|split; [|split]]].
  - rewrite Hcount. destruct Hshape as [[Hz ->]|[Hnz ->]]; simpl.
    + split; [|now intros []]. destruct (slot drained); discriminate.
    + split; auto.
  - rewrite Hcount. destruct Hshape as [[Hz ->]|[Hnz ->]]; simpl.
    + destruct (slot drained); split; auto; try discriminate.
      intros [_ H]; discriminate.
    + split; [discriminate | now intros [H _]].
  - intros e. rewrite Hcount. destruct Hshape as [[Hz ->]|[Hnz ->]]; simpl.
    + destruct (slot drained) as [e'|]; split.
      * intros H; injection H as ->; auto.
      * intros [_ H]; injection H as ->; auto.
      * discriminate.
      * intros [_ H]; discriminate.
    + split; [discriminate | now intros [H _]].
  - destruct Hshape as [[Hz ->]|[Hnz ->]]; simpl; auto. contradiction.
  - unfold TaskSet.tryWait, TaskSetCore.tryWait; simpl.
    destruct (rethrowCaptured_effect m) as (_ & _ & Hc0 & Hp0 & Hw0 & Hh0).
    cbv zeta in Hc0, Hp0, Hw0, Hh0.
    destruct (count m =? 0) eqn:Hz.
    + apply Z.eqb_eq in Hz.
      assert (Hfst : forall (x : Machine World * Result unit),
                fst (let (m2, r2) := x in
                     match r2 with
                     | Returned _ => (m2, Returned true)
                     | Thrown e => (m2, @Thrown bool e)
                     end) = fst x)
        by (intros [m2 [[]|e]]; reflexivity).
      assert (Hsnd : forall (x : Machine World * Result unit),
                snd (let (m2, r2) := x in
                     match r2 with
                     | Returned _ => (m2, Returned true)
                     | Thrown e => (m2, @Thrown bool e)
                     end) <> Returned false)
        by (intros [m2 [[]|e]]; discriminate).
      rewrite Hfst, Hp0, Hw0, Hc0.
      repeat split; auto.
      * apply since_extends. rewrite Hh0. now rewrite app_nil_r.
      * intros H. now apply Hsnd in H.
      * intros H. contradiction.
    + apply Z.eqb_neq in Hz. simpl. repeat split; auto using since_refl.
Qed.

Lemma C7_witness :
  TaskSet.tryWait 0 Examples.scheduledOnce = (Examples.scheduledOnce, Returned false) /\
  snd (TaskSet.tryWait 1 Examples.scheduledOnce) = Returned true /\
  snd (ConcurrentTaskSet.tryWait 2 Examples.scheduledFailing) = Thrown "first"%string.
Proof.
  pose proof (C7_tryWait_bounded Examples.Flags 1 Examples.scheduledOnce) as H1.
  pose proof (C7_tryWait_bounded Examples.Flags 2 Examples.scheduledFailing) as H2.
  cbv zeta in H1, H2.
  destruct H1 as (_ & _ & _ & Htrue & _).
  destruct H2 as (Hsame & _ & _ & _ & Hthrown & _).
  split; [vm_compute; reflexivity|]. split.
  - refine (proj2 Htrue _). split; vm_compute; reflexivity.
  - rewrite Hsame.
    refine (proj2 (Hthrown "first"%string) _). split; vm_compute; reflexivity.
Defined.

(** ** Further properties of the front ends *)

Section FrontEnds.

Context {World : Type}.
Variable loadCheck : ThreadPool World -> bool.
Implicit Types (m : Machine World) (f : Functor World) (u : UnitOfWork World).

(** The three things an untagged [schedule] can be. *)
Lemma schedule_on_effect (h : Handle) (skipRecheck : bool) f m :
  let m' := schedule_on loadCheck h skipRecheck f m in
  (loadFactor m < count m /\ m' = fst (call CallingThread f m)) \/
  (~ loadFactor m < count m /\
   (loadCheck (pool_ m) = false \/ (h = OfConcurrentTaskSet /\ skipRecheck = true)) /\
   m' = ThreadPool.enqueue (token_of h) (Packaged f) (TaskSetBase.fetch_add m)) \/
  (~ loadFactor m < count m /\ loadCheck (pool_ m) = true /\
   m' = TaskSetBase.invoke CallingThread (Packaged f) (TaskSetBase.fetch_add m)).
Proof.
  cbv zeta. destruct (Z_lt_dec (loadFactor m) (count m)) as [Hlt|Hge].
  - left. split; [exact Hlt|]. destruct h as [tok|]; simpl.
    + now rewrite (TaskSet_schedule_inline loadCheck tok f m Hlt).
    + now rewrite (ConcurrentTaskSet_schedule_inline loadCheck f skipRecheck m Hlt).
  - right. destruct h as [tok|]; simpl.
    + rewrite (TaskSet_schedule_handoff loadCheck tok f m Hge); simpl.
      unfold ThreadPool.schedule_token, ThreadPool.schedule_token_fq.
      change (pool_ (TaskSetBase.fetch_add m)) with (pool_ m).
      destruct (loadCheck (pool_ m)); [right | left]; auto.
    + rewrite (ConcurrentTaskSet_schedule_handoff loadCheck f skipRecheck m Hge); simpl.
      destruct skipRecheck; unfold ThreadPool.schedule, ThreadPool.schedule_fq.
      * left. auto.
      * change (pool_ (TaskSetBase.fetch_add m)) with (pool_ m).
        destruct (loadCheck (pool_ m)); [right | left]; auto.
Qed.

Lemma weight_nonneg u : 0 <= weight u.
Proof. unfold weight. destruct (is_packaged u); lia. Qed.

Lemma tryExecuteNext_no_growth m :
  count (fst (ThreadPool.tryExecuteNext m)) <= count m /\
  loadFactor (fst (ThreadPool.tryExecuteNext m)) = loadFactor m.
Proof.
  unfold ThreadPool.tryExecuteNext.
  destruct (queue m) as [|[tok u] rest]; simpl; [split; [lia | reflexivity]|].
  destruct (invoke_accounting CallingThread u (with_queue rest m)) as (_ & Hc & Hl & _).
  rewrite Hc, Hl. pose proof (weight_nonneg u).
  change (count (with_queue rest m)) with (count m).
  change (loadFactor (with_queue rest m)) with (loadFactor m). split; [lia | reflexivity].
Qed.

Lemma tryWait_loop_no_growth n m :
  count (TaskSetCore.tryWait_loop n m) <= count m /\
  loadFactor (TaskSetCore.tryWait_loop n m) = loadFactor m.
Proof.
  revert m. induction n as [|n IH]; intros m; simpl; [split; [lia | reflexivity]|].
  destruct (count m =? 0); [split; [lia | reflexivity]|].
  destruct (tryExecuteNext_no_growth m) as [Hc Hl].
  destruct (IH (fst (ThreadPool.tryExecuteNext m))) as [Hc' Hl'].
  split; [lia | congruence].
Qed.

Lemma tryWait_no_growth n m :
  count (fst (TaskSetCore.tryWait n m)) <= count m /\
  loadFactor (fst (TaskSetCore.tryWait n m)) = loadFactor m.
Proof.
  unfold TaskSetCore.tryWait.
  destruct (tryWait_loop_no_growth n m) as [Hc Hl].
  destruct (count (TaskSetCore.tryWait_loop n m) =? 0); simpl; [|auto].
  unfold TaskSetBase.rethrowCaptured.
  destruct (slot (TaskSetCore.tryWait_loop n m)); simpl; auto.
Qed.

Lemma step_no_growth m m' :
  ThreadPool.step m m' -> count m' <= count m /\ loadFactor m' = loadFactor m.
Proof.
  intros Hs. destruct Hs as [x q1 [tok u] q2 Hq|x r1 u r2 Hr|x tok g].
  - split; [simpl; unfold count; simpl; lia | reflexivity].
  - destruct (invoke_accounting PoolThread u (with_running (r1 ++ r2) x))
      as (_ & Hc & Hl & _).
    rewrite Hc, Hl. pose proof (weight_nonneg u).
    change (count (with_running (r1 ++ r2) x)) with (count x).
    change (loadFactor (with_running (r1 ++ r2) x)) with (loadFactor x).
    split; [lia | reflexivity].
  - split; [unfold count; simpl; lia | reflexivity].
Qed.

End FrontEnds.

Section Batching.

Context {World : Type}.
Implicit Types (m : Machine World) (f : Functor World).

Lemma inline_effect f m :
  let m1 := fst (call CallingThread f m) in
  count m1 = count m /\ loadFactor m1 = loadFactor m /\ slot m1 = slot m /\
  queue m1 = queue m /\ running m1 = running m /\
  world m1 = fst (f (world m)).
Proof.
  destruct (call_effect CallingThread f m) as (_ & Hw & Hs & Hp & _).
  cbv zeta. unfold count, loadFactor, slot, queue, running.
  rewrite Hs, Hp, Hw. repeat split.
Qed.

Lemma schedule_all_cons (loadCheck : ThreadPool World -> bool) (h : Handle)
    (skipRecheck : bool) f (fs : list (Functor World)) m :
  schedule_all loadCheck h skipRecheck (f :: fs) m =
  schedule_all loadCheck h skipRecheck fs (schedule_on loadCheck h skipRecheck f m).
Proof. reflexivity. Qed.

End Batching.

(** X2.  With workers idle and a pool that does not shed, closures
    scheduled back to back split at the threshold: the first
    [loadFactor + 1 - count] of them are queued, in call order and with the
    front end's token, and are not called; all the later ones are called on
    the calling thread, in call order; the counter goes up by the number
    queued.  The task scheduled when the counter equals the load factor is
    still queued. *)
Theorem X2_back_to_back_split :
  forall (World : Type) (h : Handle) (skipRecheck : bool)
         (fs : list (Functor World)) (m : Machine World),
    let k := free_slots m in
    let m' := schedule_all ThreadPool.neverSheds h skipRecheck fs m in
    queue m' = queue m ++ map (fun f => (token_of h, Packaged f)) (firstn k fs) /\
    world m' = run_in_order (skipn k fs) (world m) /\
    count m' = count m + Z.of_nat (length (firstn k fs)) /\
    running m' = running m /\ slot m' = slot m /\
    loadFactor m' = loadFactor m.
Proof.
  intros World h skipRecheck fs. induction fs as [|f rest IH]; intros m k m'.
  - subst k m'. rewrite firstn_nil, skipn_nil. simpl.
    rewrite app_nil_r. repeat split; lia.
  - subst m'. rewrite schedule_all_cons.
    set (m1 := schedule_on ThreadPool.neverSheds h skipRecheck f m).
    specialize (IH m1). cbv zeta in IH.
    destruct IH as (Iq & Iw & Ic & Ir & Is & Il).
    destruct (schedule_on_effect ThreadPool.neverSheds h skipRecheck f m)
      as [(Hlt & E)|[(Hge & _ & E)|(_ & Habs & _)]]; [| |discriminate Habs].
    + fold m1 in E.
      destruct (inline_effect f m) as (Hc & Hl & Hs & Hq & Hr & Hw).
      cbv zeta in Hc, Hl, Hs, Hq, Hr, Hw. rewrite <- E in Hc, Hl, Hs, Hq, Hr, Hw.
      assert (Hk : k = 0%nat) by (subst k; unfold free_slots; lia).
      assert (Hk1 : free_slots m1 = 0%nat) by (unfold free_slots; lia).
      rewrite Hk1 in Iq, Iw, Ic. rewrite Hk. simpl in *.
      rewrite Iq, Iw, Ic, Ir, Is, Il, Hq, Hw, Hc, Hr, Hs, Hl.
      repeat split.
    + fold m1 in E.
      destruct (package_then_enqueue (token_of h) f m)
        as (_ & Hq & Hr & Hw & Hc & Hl & Hs).
      cbv zeta in Hq, Hr, Hw, Hc, Hl, Hs. rewrite <- E in Hq, Hr, Hw, Hc, Hl, Hs.
      assert (Hk : k = S (free_slots m1)) by (subst k; unfold free_slots; lia).
      rewrite Hk. simpl.
      rewrite Iq, Iw, Ic, Ir, Is, Il, Hq, Hw, Hc, Hr, Hs, Hl, <- app_assoc.
      repeat split. lia.
Qed.

(** X3.  Above the threshold nothing reaches the pool: when the counter
    is greater than the load factor, any number of closures scheduled back
    to back are all called on the calling thread, in call order, and task
    set and pool are left exactly as they were, whatever the front end and
    the pool's load check.  In particular a set whose load factor is
    negative never queues through the untagged [schedule]. *)
Theorem X3_above_threshold_all_inline :
  forall (World : Type) (loadCheck : ThreadPool World -> bool) (h : Handle)
         (skipRecheck : bool) (fs : list (Functor World)) (m : Machine World),
    loadFactor m < count m ->
    let m' := schedule_all loadCheck h skipRecheck fs m in
    self m' = self m /\ pool_ m' = pool_ m /\
    world m' = run_in_order fs (world m).
Proof.
  intros World loadCheck h skipRecheck fs.
  induction fs as [|f rest IH]; intros m Hlt m'; [repeat split|].
  subst m'. rewrite schedule_all_cons.
  set (m1 := schedule_on loadCheck h skipRecheck f m).
  destruct (schedule_on_effect loadCheck h skipRecheck f m)
    as [(_ & E)|[(Hge & _)|(Hge & _)]]; [|contradiction|contradiction].
  fold m1 in E.
  destruct (call_effect CallingThread f m) as (_ & Hw & Hs & Hp & _).
  rewrite <- E in Hw, Hs, Hp.
  assert (Hlt1 : loadFactor m1 < count m1)
    by (unfold loadFactor, count; now rewrite Hs).
  destruct (IH m1 Hlt1) as (Is & Ip & Iw).
  rewrite Is, Ip, Iw, Hs, Hp, Hw. repeat split.
Qed.

Lemma X3_witness :
  world (schedule_all Examples.shedsWhenBusy OfConcurrentTaskSet false
           [Examples.setFlag 8; Examples.failing 9 "boom"%string; Examples.setFlag 10]
           Examples.loaded) = [10%nat; 9%nat; 8%nat] /\
  queue (schedule_all Examples.shedsWhenBusy OfConcurrentTaskSet false
           [Examples.setFlag 8; Examples.failing 9 "boom"%string; Examples.setFlag 10]
           Examples.loaded) = queue Examples.loaded.
Proof.
  assert (Hlt : loadFactor Examples.loaded < count Examples.loaded)
    by (vm_compute; reflexivity).
  destruct (X3_above_threshold_all_inline Examples.Flags Examples.shedsWhenBusy
              OfConcurrentTaskSet false
              [Examples.setFlag 8; Examples.failing 9 "boom"%string; Examples.setFlag 10]
              Examples.loaded Hlt) as (_ & Hp & Hw).
  split; [exact Hw | unfold queue; now rewrite Hp].
Defined.

(** X4.  An exception leaves the untagged [schedule] of either front end
    exactly when the admission check sent the call inline and the closure
    threw; at or below the threshold the call returns normally even if the
    closure throws when it is run. *)
Theorem X4_schedule_throws_only_inline :
  forall (World : Type) (loadCheck : ThreadPool World -> bool)
         (token_ : ProducerToken) (skipRecheck : bool)
         (f : Functor World) (m : Machine World) (e : exception_ptr),
    (snd (TaskSet.schedule loadCheck token_ f m) = Thrown e <->
       loadFactor m < count m /\ snd (f (world m)) = Some e) /\
    (snd (ConcurrentTaskSet.schedule loadCheck f skipRecheck m) = Thrown e <->
       loadFactor m < count m /\ snd (f (world m)) = Some e).
Proof.
  intros World loadCheck token_ skipRecheck f m e.
  assert (Hout : forall x, outcome x = Thrown e <-> x = Some e).
  { intros [x|]; simpl; split; intros H; try discriminate; congruence. }
  destruct (Z_lt_dec (loadFactor m) (count m)) as [Hlt|Hge].
  - rewrite (TaskSet_schedule_inline loadCheck token_ f m Hlt),
      (ConcurrentTaskSet_schedule_inline loadCheck f skipRecheck m Hlt); simpl.
    rewrite Hout. tauto.
  - rewrite (TaskSet_schedule_handoff loadCheck token_ f m Hge),
      (ConcurrentTaskSet_schedule_handoff loadCheck f skipRecheck m Hge); simpl.
    split; (split; [discriminate | tauto]).
Qed.

Section Frame.

Context {World : Type}.
Implicit Types (m : Machine World) (f : Functor World).

Lemma frame_inline (tok : option ProducerToken) f m :
  let m' := fst (call CallingThread f m) in
  exists added,
    queue m' = queue m ++ added /\ (length added <= 1)%nat /\
    Forall (fun e => fst e = tok /\ is_packaged (snd e) = true) added /\
    running m' = running m /\
    workerCount (pool_ m') = workerCount (pool_ m) /\
    loadFactor m' = loadFactor m /\
    (forall e, slot m = Some e -> slot m' = Some e).
Proof.
  destruct (inline_effect f m) as (_ & Hl & Hs & Hq & Hr & _).
  destruct (call_effect CallingThread f m) as (_ & _ & _ & Hp & _).
  exists []. cbv zeta. rewrite app_nil_r, Hp, Hs.
  repeat split; auto.
Qed.

Lemma frame_enqueue (tok : option ProducerToken) f m :
  let m' := ThreadPool.enqueue tok (Packaged f) (TaskSetBase.fetch_add m) in
  exists added,
    queue m' = queue m ++ added /\ (length added <= 1)%nat /\
    Forall (fun e => fst e = tok /\ is_packaged (snd e) = true) added /\
    running m' = running m /\
    workerCount (pool_ m') = workerCount (pool_ m) /\
    loadFactor m' = loadFactor m /\
    (forall e, slot m = Some e -> slot m' = Some e).
Proof.
  destruct (package_then_enqueue tok f m) as (_ & Hq & Hr & _ & _ & Hl & Hs).
  exists [(tok, Packaged f)]. cbv zeta. rewrite Hs.
  repeat split; auto.
Qed.

Lemma frame_shed (tok : option ProducerToken) f m :
  let m' := TaskSetBase.invoke CallingThread (Packaged f) (TaskSetBase.fetch_add m) in
  exists added,
    queue m' = queue m ++ added /\ (length added <= 1)%nat /\
    Forall (fun e => fst e = tok /\ is_packaged (snd e) = true) added /\
    running m' = running m /\
    workerCount (pool_ m') = workerCount (pool_ m) /\
    loadFactor m' = loadFactor m /\
    (forall e, slot m = Some e -> slot m' = Some e).
Proof.
  destruct (package_then_shed f m) as (_ & Hp & _ & _ & Hl & Hs).
  exists []. cbv zeta. unfold queue, running. rewrite app_nil_r, Hp, Hs.
  repeat split; auto. intros e ->. reflexivity.
Qed.

End Frame.

(** X5.  What no [schedule] overload does: it never removes or reorders
    an entry already in the pool's queue and adds at most one, a task of
    this set carrying the front end's token ([token_] for a [TaskSet], none
    for a [ConcurrentTaskSet]); it never touches the units the workers are
    running, the worker count or the load factor; and it never clears or
    replaces a failure that is already captured. *)
Theorem X5_schedule_frame :
  forall (World : Type) (loadCheck : ThreadPool World -> bool) (h : Handle)
         (m m' : Machine World),
    schedules loadCheck h m m' ->
    exists added,
      queue m' = queue m ++ added /\ (length added <= 1)%nat /\
      Forall (fun e => fst e = token_of h /\ is_packaged (snd e) = true) added /\
      running m' = running m /\
      workerCount (pool_ m') = workerCount (pool_ m) /\
      loadFactor m' = loadFactor m /\
      (forall e, slot m = Some e -> slot m' = Some e).
Proof.
  intros World loadCheck h m m' Hs.
  destruct Hs as [tok f m|tok f fq m|f skip m|f fq m].
  - change (fst (TaskSet.schedule loadCheck tok f m))
      with (schedule_on loadCheck (OfTaskSet tok) false f m).
    destruct (schedule_on_effect loadCheck (OfTaskSet tok) false f m)
      as [(_ & ->)|[(_ & _ & ->)|(_ & _ & ->)]].
    + apply frame_inline.
    + apply frame_enqueue.
    + apply frame_shed.
  - apply (frame_enqueue (Some tok) f m).
  - change (fst (ConcurrentTaskSet.schedule loadCheck f skip m))
      with (schedule_on loadCheck OfConcurrentTaskSet skip f m).
    destruct (schedule_on_effect loadCheck OfConcurrentTaskSet skip f m)
      as [(_ & ->)|[(_ & _ & ->)|(_ & _ & ->)]].
    + apply frame_inline.
    + apply frame_enqueue.
    + apply frame_shed.
  - apply (frame_enqueue None f m).
Qed.

Lemma X5_witness :
  exists added,
    queue (fst (TaskSet.schedule_fq 7%nat (Examples.setFlag 9) ForceQueuing
                  Examples.loaded))
      = queue Examples.loaded ++ added /\
    (length added <= 1)%nat.
Proof.
  destruct (X5_schedule_frame Examples.Flags ThreadPool.neverSheds (OfTaskSet 7%nat)
              Examples.loaded
              (fst (TaskSet.schedule_fq 7%nat (Examples.setFlag 9) ForceQueuing
                      Examples.loaded)))
    as (added & Hq & Hn & _).
  - apply schedules_TaskSet_fq.
  - exists added. split; [exact Hq | exact Hn].
Defined.

(** X6.  The two front ends schedule alike: on the same machine
    [TaskSet::schedule(f)] and [ConcurrentTaskSet::schedule(f)] (and
    likewise the two tagged overloads) end the same way and leave the same
    task set, memory, history, running units and queued units; only the
    producer token on the queue entry differs. *)
Theorem X6_front_ends_agree_up_to_token :
  forall (World : Type) (loadCheck : ThreadPool World -> bool)
         (token_ : ProducerToken) (fq : ForceQueuingTag)
         (f : Functor World) (m : Machine World),
    let agree (a b : Machine World * Result unit) :=
      snd a = snd b /\ self (fst a) = self (fst b) /\
      world (fst a) = world (fst b) /\ history (fst a) = history (fst b) /\
      running (fst a) = running (fst b) /\
      map snd (queue (fst a)) = map snd (queue (fst b)) in
    agree (TaskSet.schedule loadCheck token_ f m)
          (ConcurrentTaskSet.schedule loadCheck f false m) /\
    agree (TaskSet.schedule_fq token_ f fq m)
          (ConcurrentTaskSet.schedule_fq f fq m).
Proof.
  intros World loadCheck token_ fq f m agree. subst agree. cbv beta.
  assert (Henq : forall a b : option ProducerToken,
            let x := ThreadPool.enqueue a (Packaged f) (TaskSetBase.fetch_add m) in
            let y := ThreadPool.enqueue b (Packaged f) (TaskSetBase.fetch_add m) in
            self x = self y /\ world x = world y /\ history x = history y /\
            running x = running y /\ map snd (queue x) = map snd (queue y)).
  { intros a b. cbv zeta. repeat split.
    unfold ThreadPool.enqueue, queue; simpl. now rewrite !map_app. }
  split.
  - destruct (Z_lt_dec (loadFactor m) (count m)) as [Hlt|Hge].
    + rewrite (TaskSet_schedule_inline loadCheck token_ f m Hlt),
        (ConcurrentTaskSet_schedule_inline loadCheck f false m Hlt).
      repeat split.
    + rewrite (TaskSet_schedule_handoff loadCheck token_ f m Hge),
        (ConcurrentTaskSet_schedule_handoff loadCheck f false m Hge).
      unfold ThreadPool.schedule_token, ThreadPool.schedule,
        ThreadPool.schedule_token_fq, ThreadPool.schedule_fq; simpl fst; simpl snd.
      destruct (loadCheck (pool_ m)).
      * repeat split.
      * split; [reflexivity | apply Henq].
  - unfold TaskSet.schedule_fq, ConcurrentTaskSet.schedule_fq,
      ThreadPool.schedule_token_fq, ThreadPool.schedule_fq; simpl fst; simpl snd.
    split; [reflexivity | apply Henq].
Qed.

(** X7.  [skipRecheck = true] is not the tagged overload: at or below
    the threshold [schedule(f, true)] does exactly what
    [schedule(f, ForceQueuingTag)] does, but above the threshold it still
    calls [f] on the calling thread and queues nothing, where the tagged
    overload queues. *)
Theorem X7_skipRecheck_keeps_the_admission_check :
  forall (World : Type) (loadCheck : ThreadPool World -> bool)
         (fq : ForceQueuingTag) (f : Functor World) (m : Machine World),
    let skipping := ConcurrentTaskSet.schedule loadCheck f true m in
    let tagged := ConcurrentTaskSet.schedule_fq f fq m in
    (~ loadFactor m < count m -> skipping = tagged) /\
    (loadFactor m < count m ->
       since m (fst skipping) = [EvInvoke CallingThread] /\
       queue (fst skipping) = queue m /\
       since m (fst tagged) = [EvFetchAdd; EvEnqueue] /\
       queue (fst tagged) = queue m ++ [(None, Packaged f)]).
Proof.
  intros World loadCheck fq f m skipping tagged. subst skipping tagged.
  destruct (package_then_enqueue None f m) as (Hh & Hq & _).
  split.
  - intros Hge.
    now rewrite (ConcurrentTaskSet_schedule_handoff loadCheck f true m Hge).
  - intros Hlt.
    rewrite (ConcurrentTaskSet_schedule_inline loadCheck f true m Hlt); simpl.
    destruct (call_effect CallingThread f m) as (Hh' & _).
    destruct (inline_effect f m) as (_ & _ & _ & Hq' & _).
    repeat split; auto using since_extends.
Qed.

(** X11.  The tagged overloads are not throttled: any number of closures
    scheduled back to back with [ForceQueuingTag] are all queued, in call
    order and with the front end's token, none is called, and the counter
    goes up by their number, whatever it was compared to the load factor
    and whatever the pool's load check. *)
Theorem X11_force_queued_batch :
  forall (World : Type) (h : Handle) (gs : list (Functor World))
         (m : Machine World),
    let m' := schedule_batch h gs m in
    queue m' = queue m ++ map (fun g => (token_of h, Packaged g)) gs /\
    count m' = count m + Z.of_nat (length gs) /\
    world m' = world m /\ running m' = running m /\
    slot m' = slot m /\ loadFactor m' = loadFactor m.
Proof.
  intros World h gs. unfold schedule_batch.
  induction gs as [|g rest IH]; intros m; simpl.
  - rewrite app_nil_r. repeat split; lia.
  - assert (E : schedule_fq_on h g m
                = ThreadPool.enqueue (token_of h) (Packaged g) (TaskSetBase.fetch_add m))
      by (destruct h; reflexivity).
    destruct (package_then_enqueue (token_of h) g m)
      as (_ & Hq & Hr & Hw & Hc & Hl & Hs).
    cbv zeta in Hq, Hr, Hw, Hc, Hl, Hs. rewrite <- E in Hq, Hr, Hw, Hc, Hl, Hs.
    specialize (IH (schedule_fq_on h g m)). cbv zeta in IH.
    destruct IH as (Iq & Ic & Iw & Ir & Is & Il).
    rewrite Iq, Ic, Iw, Ir, Is, Il, Hq, Hc, Hw, Hr, Hs, Hl, <- app_assoc.
    repeat split. lia.
Qed.

(** ** Configurations: the invariant *)

Section ConfigFacts.

Context {World : Type}.
Variable uses : UnitOfWork World -> Prop.
Variable loadCheck : ThreadPool World -> bool.
Implicit Types (m : Machine World) (f : Functor World) (u : UnitOfWork World).
Implicit Types (c : Config World).

Lemma packaged_of_app (l1 l2 : list (UnitOfWork World)) :
  packaged_of (l1 ++ l2) = packaged_of l1 ++ packaged_of l2.
Proof. apply flat_map_app. Qed.

Lemma weight_closure u : weight u = Z.of_nat (length (closure_of u)).
Proof. destruct u; reflexivity. Qed.

Lemma owned_packaged_of (l : list (UnitOfWork World)) :
  owned l = length (packaged_of l).
Proof.
  induction l as [|u l IH]; [reflexivity|].
  unfold packaged_of; simpl. rewrite length_app. fold (packaged_of l).
  rewrite <- IH. destruct u; reflexivity.
Qed.

Lemma owned_zero_packaged_of (l : list (UnitOfWork World)) :
  owned l = 0%nat -> packaged_of l = [].
Proof. rewrite owned_packaged_of. now destruct (packaged_of l). Qed.

Lemma hd_error_app (A : Type) (l d : list A) :
  hd_error (l ++ d) = match hd_error l with
                      | Some e => Some e
                      | None => hd_error d
                      end.
Proof. now destruct l. Qed.

(** First failure wins, in one invocation. *)
Lemma invoke_slot t u m :
  slot (TaskSetBase.invoke t u m) =
    match slot m with
    | Some e => Some e
    | None => hd_error (caught_by u (world m))
    end.
Proof.
  destruct u as [f|g].
  - destruct (invoke_packaged_effect t f m) as (_ & _ & _ & _ & _ & Hs).
    cbv zeta in Hs. rewrite Hs. simpl.
    destruct (slot m); [reflexivity|]. now destruct (snd (f (world m))).
  - destruct (invoke_foreign_effect t g m) as (_ & Hs & _).
    cbv zeta in Hs. unfold slot. rewrite Hs. simpl. now destruct (exceptionSlot_ (self m)).
Qed.

Lemma invoke_world t u m :
  world (TaskSetBase.invoke t u m) =
    match u with
    | Packaged f => fst (f (world m))
    | Foreign g => g (world m)
    end.
Proof.
  destruct u as [f|g]; [|reflexivity].
  now destruct (invoke_packaged_effect t f m) as (_ & _ & _ & Hw & _).
Qed.

(** *** What the configuration operations are on the machine *)

Lemma csteal_machine c :
  machine (csteal c) = fst (ThreadPool.tryExecuteNext (machine c)) /\
  calls (csteal c) = calls c /\ submitted (csteal c) = submitted c.
Proof. unfold csteal. destruct (queue (machine c)) as [|[tok u] rest]; auto. Qed.

Lemma cpool_step_machine c c' :
  cpool_step uses c c' ->
  ThreadPool.step (machine c) (machine c') /\
  calls c' = calls c /\ submitted c' = submitted c.
Proof.
  intros H. destruct H as [c q1 e q2 Hq|c r1 u r2 Hr|c tok g Hu]; simpl;
    repeat split; eauto using ThreadPool.worker_takes, ThreadPool.worker_finishes,
      ThreadPool.other_producer.
Qed.

Lemma cpool_steps_machine c c' :
  clos_refl_trans _ (cpool_step uses) c c' ->
  ThreadPool.steps (machine c) (machine c') /\
  calls c' = calls c /\ submitted c' = submitted c.
Proof.
  intros H. induction H as [a b Hab| |a b d _ (S1 & C1 & B1) _ (S2 & C2 & B2)].
  - destruct (cpool_step_machine a b Hab) as (Hs & Hc & Hb).
    repeat split; auto. now apply rt_step.
  - repeat split. apply rt_refl.
  - repeat split; try congruence. eapply rt_trans; eauto.
Qed.

Lemma cwaiting_machine c c' :
  cwaiting uses c c' ->
  TaskSetCore.waiting (machine c) (machine c') /\
  calls c' = calls c /\ submitted c' = submitted c.
Proof.
  intros H. induction H as [c Hz|c c2 Hnz Hw (IH & IC & IS)|c c1 c2 Hs Hw (IH & IC & IS)].
  - repeat split. now apply TaskSetCore.waiting_exit.
  - destruct (csteal_machine c) as (Hm & Hc & Hb).
    repeat split; try congruence.
    eapply TaskSetCore.waiting_iteration; [exact Hnz | apply surjective_pairing|].
    now rewrite <- Hm.
  - destruct (cpool_step_machine c c1 Hs) as (Hm & Hc & Hb).
    repeat split; try congruence.
    eapply TaskSetCore.waiting_interleaved; eauto.
Qed.

Lemma rethrowCaptured_outcome m :
  TaskSetBase.rethrowCaptured m =
    (fst (TaskSetBase.rethrowCaptured m), outcome (slot m)).
Proof. unfold TaskSetBase.rethrowCaptured. now destruct (slot m). Qed.

Lemma cdrains_machine c c2 :
  cdrains uses c c2 ->
  (exists m1, TaskSetCore.waiting (machine c) m1 /\
              ThreadPool.steps m1 (machine c2)) /\
  calls c2 = calls c /\ submitted c2 = submitted c.
Proof.
  intros (c1 & Hw & Hs).
  destruct (cwaiting_machine c c1 Hw) as (Hw' & C1 & B1).
  destruct (cpool_steps_machine c1 c2 Hs) as (Hs' & C2 & B2).
  repeat split; try congruence. eauto.
Qed.

(** The [wait] of a configuration is a [wait] of its machine. *)
Lemma cwaits_machine c c' r :
  cwaits uses c c' r ->
  TaskSetCore.waits (machine c) (machine c') r /\
  calls c' = calls c /\ submitted c' = submitted c.
Proof.
  intros (c2 & Hd & -> & ->).
  destruct (cdrains_machine c c2 Hd) as ((m1 & Hw & Hs) & Hc & Hb).
  repeat split; auto.
  exists m1, (machine c2). repeat split; auto. simpl.
  apply rethrowCaptured_outcome.
Qed.

Lemma ctryWait_loop_machine n c :
  machine (ctryWait_loop n c) = TaskSetCore.tryWait_loop n (machine c) /\
  calls (ctryWait_loop n c) = calls c /\
  submitted (ctryWait_loop n c) = submitted c.
Proof.
  revert c. induction n as [|n IH]; intros c; simpl; auto.
  destruct (count (machine c) =? 0); auto.
  destruct (IH (csteal c)) as (Hm & Hc & Hs).
  destruct (csteal_machine c) as (Hm' & Hc' & Hs').
  repeat split; congruence.
Qed.

Lemma ctryWait_machine n c :
  machine (fst (ctryWait n c)) = fst (TaskSetCore.tryWait n (machine c)) /\
  snd (ctryWait n c) = snd (TaskSetCore.tryWait n (machine c)) /\
  calls (fst (ctryWait n c)) = calls c /\
  submitted (fst (ctryWait n c)) = submitted c.
Proof.
  unfold ctryWait, TaskSetCore.tryWait, creraise, TaskSetBase.rethrowCaptured.
  destruct (ctryWait_loop_machine n c) as (Hm & Hc & Hs). cbv zeta. rewrite Hm.
  destruct (count (TaskSetCore.tryWait_loop n (machine c)) =? 0); simpl; auto.
  destruct (slot (TaskSetCore.tryWait_loop n (machine c))); simpl; auto.
Qed.

Lemma cwait_loop_machine fuel c :
  TaskSetCore.wait_loop fuel (machine c) = option_map (@machine World) (cwait_loop fuel c).
Proof.
  revert c. induction fuel as [|k IH]; intros c; simpl;
    destruct (count (machine c) =? 0); auto.
  rewrite <- IH. now destruct (csteal_machine c) as (-> & _).
Qed.

Lemma cwait_loop_waiting fuel c c1 :
  cwait_loop fuel c = Some c1 -> cwaiting uses c c1.
Proof.
  revert c. induction fuel as [|k IH]; intros c; simpl;
    destruct (count (machine c) =? 0) eqn:Hz; intros H; try discriminate.
  - injection H as <-. apply cwaiting_exit. now apply Z.eqb_eq.
  - injection H as <-. apply cwaiting_exit. now apply Z.eqb_eq.
  - apply Z.eqb_neq in Hz. apply cwaiting_iteration; auto.
Qed.

(** *** The invariant is kept by every operation *)

Lemma pending_lengths m :
  pending m = (length (packaged_of (map snd (queue m))) +
               length (packaged_of (running m)))%nat.
Proof. unfold pending, queued, in_flight. now rewrite !owned_packaged_of. Qed.

Lemma pool_call_queues (e : Entry) u m :
  sheds loadCheck e m = false ->
  pool_call loadCheck e u m = ThreadPool.enqueue (fst e) u m.
Proof.
  destruct e as [[tok|] [|]]; unfold sheds, pool_call; simpl; try reflexivity;
    unfold ThreadPool.schedule_token, ThreadPool.schedule; now intros ->.
Qed.

Lemma pool_call_sheds (e : Entry) u m :
  sheds loadCheck e m = true ->
  pool_call loadCheck e u m = TaskSetBase.invoke CallingThread u m.
Proof.
  destruct e as [[tok|] [|]]; unfold sheds, pool_call; simpl; try discriminate;
    unfold ThreadPool.schedule_token, ThreadPool.schedule; now intros ->.
Qed.

Lemma in_hand_removed (l1 l2 : list (Call World)) (k : Call World) :
  length (filter (@is_in_hand World) (l1 ++ k :: l2)) =
    ((if is_in_hand k then 1 else 0) +
     length (filter (@is_in_hand World) (l1 ++ l2)))%nat.
Proof.
  rewrite !filter_app, !length_app. simpl.
  destruct (is_in_hand k); simpl; lia.
Qed.

Lemma cinv_primitive c c' :
  cprimitive uses loadCheck c c' -> cinv uses c -> cinv uses c'.
Proof.
  intros H (H1 & H2 & H3 & H4 & H5).
  destruct H as [f k c Hu Hk Hh|c l1 f l2 Hc|c l1 f e l2 Hc|c l1 f e l2 Hc
                |c c' Hs|c|c].
  - (* a call is entered *)
    unfold cinv, in_hand, outstanding, units in *; simpl.
    rewrite filter_app, length_app, !map_app; simpl. rewrite Hh, Hk; simpl.
    repeat split; auto; try lia.
    + rewrite H3. perm_solve.
    + rewrite <- app_assoc. apply Forall_app in H5 as [Ha Hb].
      apply Forall_app. split; [exact Ha|]. constructor; assumption.
  - (* the bare closure is called *)
    destruct (call_effect CallingThread f (machine c)) as (Hh & _ & Hs & Hp & _).
    unfold cinv, in_hand, outstanding, units, count, slot, queue, running in *.
    rewrite pending_lengths in *. unfold queue, running in *. simpl.
    rewrite Hs, Hp, Hh, balance_app.
    rewrite Hc, in_hand_removed in H1. simpl in H1.
    rewrite Hc, !map_app in H3, H5. simpl in H3, H5. rewrite !map_app.
    repeat split; auto.
    + rewrite H2. unfold balance; simpl. lia.
    + rewrite H3. cons_to_app. perm_solve.
    + forall_split; tauto.
  - (* packageTask *)
    unfold cinv, in_hand, outstanding, units in *.
    rewrite pending_lengths in *. simpl.
    rewrite Hc, in_hand_removed in H1. rewrite in_hand_removed. simpl in *.
    rewrite Hc, !map_app in H3, H5. simpl in H3, H5. rewrite !map_app. simpl.
    change (count (TaskSetBase.fetch_add (machine c))) with (count (machine c) + 1).
    change (history (TaskSetBase.fetch_add (machine c)))
      with (history (machine c) ++ [EvFetchAdd]).
    change (queue (TaskSetBase.fetch_add (machine c))) with (queue (machine c)).
    change (running (TaskSetBase.fetch_add (machine c))) with (running (machine c)).
    change (slot (TaskSetBase.fetch_add (machine c))) with (slot (machine c)).
    rewrite balance_app.
    repeat split; auto; try lia.
    rewrite H2. unfold balance; simpl. lia.
  - (* the call of the pool *)
    unfold do_pool. cbv zeta.
    rewrite pending_lengths in H1. unfold cinv, in_hand, outstanding, units in *.
    rewrite Hc, in_hand_removed in H1. simpl in H1.
    rewrite Hc, !map_app in H3, H5. simpl in H3, H5.
    destruct (sheds loadCheck e (machine c)) eqn:Hshed.
    + rewrite (pool_call_sheds e _ _ Hshed).
      cbn [machine calls submitted finished raised].
      destruct (invoke_accounting CallingThread (Packaged f) (machine c))
        as (Hp & Hcnt & _ & Hb).
      rewrite pending_lengths. unfold queue, running in *.
      rewrite (invoke_slot CallingThread (Packaged f) (machine c)).
      rewrite Hp, Hcnt, Hb, hd_error_app, <- H4, !map_app.
      change (weight (Packaged f)) with 1.
      repeat split; auto; try lia; try (now destruct (slot (machine c))).
      * rewrite H3. cons_to_app. perm_solve.
      * forall_split; tauto.
    + rewrite (pool_call_queues e _ _ Hshed). simpl.
      rewrite pending_lengths. unfold queue, running in *. simpl.
      rewrite !map_app, !packaged_of_app, !length_app. simpl.
      rewrite balance_app. unfold queue.
      change (count (ThreadPool.enqueue (fst e) (Packaged f) (machine c)))
        with (count (machine c)).
      change (slot (ThreadPool.enqueue (fst e) (Packaged f) (machine c)))
        with (slot (machine c)).
      repeat split; auto; try lia.
      * rewrite H2. unfold balance; simpl. lia.
      * rewrite H3. cons_to_app. perm_solve.
      * rewrite !Forall_app in *. rewrite Forall_cons_iff in H5.
        repeat split; try tauto. constructor; [tauto | constructor].
  - (* the rest of the system *)
    rewrite pending_lengths in H1. unfold cinv, in_hand, outstanding, units in *.
    destruct Hs as [c q1 [tok u] q2 Hq|c r1 u r2 Hr|c tok g Hu];
      rewrite pending_lengths; unfold queue, running in *; simpl.
    + rewrite Hq, !map_app, !packaged_of_app, !length_app in *. simpl in *.
      rewrite ?length_app in *. unfold count, slot in *; simpl.
      repeat split; auto; try lia.
      * rewrite H3. perm_solve.
      * forall_split; tauto.
    + destruct (invoke_accounting PoolThread u (with_running (r1 ++ r2) (machine c)))
        as (Hp & Hcnt & _ & Hb).
      rewrite (invoke_slot PoolThread u (with_running (r1 ++ r2) (machine c))).
      rewrite Hp, Hcnt, Hb, hd_error_app. simpl.
      change (slot (with_running (r1 ++ r2) (machine c))) with (slot (machine c)).
      change (count (with_running (r1 ++ r2) (machine c))) with (count (machine c)).
      rewrite <- H4, weight_closure.
      rewrite Hr, !packaged_of_app, !length_app in *. simpl in *.
      rewrite !length_app in *.
      repeat split; auto; try lia; try (now destruct (slot (machine c))).
      * rewrite H3. perm_solve.
      * forall_split; tauto.
    + rewrite !map_app, !packaged_of_app, !length_app. simpl.
      unfold count, slot in *; simpl. rewrite app_nil_r.
      repeat split; auto; try lia.
      rewrite !Forall_app in *. repeat split; try tauto.
      constructor; [assumption | constructor].
  - (* a steal *)
    rewrite pending_lengths in H1. unfold cinv, in_hand, outstanding, units in *.
    unfold csteal, ThreadPool.tryExecuteNext. cbv zeta.
    rewrite pending_lengths. unfold queue, running in *.
    destruct (work_ (pool_ (machine c))) as [|[tok u] rest] eqn:Hq; simpl.
    + rewrite Hq. simpl in *. repeat split; auto.
    + destruct (invoke_accounting CallingThread u (with_queue rest (machine c)))
        as (Hp & Hcnt & _ & Hb).
      rewrite (invoke_slot CallingThread u (with_queue rest (machine c))).
      rewrite Hp, Hcnt, Hb, hd_error_app. simpl.
      change (slot (with_queue rest (machine c))) with (slot (machine c)).
      change (count (with_queue rest (machine c))) with (count (machine c)).
      rewrite <- H4, weight_closure. simpl in *. rewrite !length_app in *.
      repeat split; auto; try lia; try (now destruct (slot (machine c))).
      * rewrite H3. perm_solve.
      * forall_split; tauto.
  - (* the re-raise *)
    destruct (rethrowCaptured_effect (machine c)) as (_ & Hs & Hcnt & Hp & _ & Hh).
    cbv zeta in Hs, Hcnt, Hp, Hh.
    rewrite pending_lengths in H1. unfold cinv, in_hand, outstanding, units in *.
    rewrite pending_lengths. unfold queue, running in *. simpl.
    rewrite Hs, Hcnt, Hp, Hh. repeat split; auto.
Qed.


Lemma cinv_primitives c c' :
  cprimitives uses loadCheck c c' -> cinv uses c -> cinv uses c'.
Proof.
  intros H. induction H; eauto using cinv_primitive.
Qed.

(** What a closure that has run established is not undone by the units
    the program uses, as long as each of them keeps it. *)
Lemma observed_primitive (P : World -> Prop) c c' :
  (forall u, uses u -> preserves P u) ->
  cprimitive uses loadCheck c c' ->
  cinv uses c -> observed P c -> observed P c'.
Proof.
  intros Hkeep H (_ & _ & _ & _ & H5) Hobs.
  unfold units in H5.
  assert (Hrun : forall t u m0,
            uses u -> world m0 = world (machine c) ->
            (exists g, In g (finished c ++ closure_of u) /\ establishes P g) ->
            P (world (TaskSetBase.invoke t u m0))).
  { intros t u m0 Hu Hw (g & Hin & Hg). rewrite invoke_world, Hw.
    apply in_app_or in Hin as [Hin|Hin].
    - specialize (Hkeep u Hu). destruct u; apply Hkeep; apply Hobs; eauto.
    - destruct u as [f|g0]; [|contradiction].
      destruct Hin as [<-|[]]. apply Hg. }
  destruct H as [f k c Hu Hk Hh|c l1 f l2 Hc|c l1 f e l2 Hc|c l1 f e l2 Hc
                |c c' Hs|c|c]; unfold observed in *.
  - exact Hobs.
  - simpl. intros (g & Hin & Hg).
    destruct (call_effect CallingThread f (machine c)) as (_ & -> & _).
    apply in_app_or in Hin as [Hin|[<-|[]]]; [|apply Hg].
    assert (Hf : uses (Packaged f)).
    { rewrite Hc, map_app in H5. simpl in H5. forall_split. tauto. }
    apply (Hkeep _ Hf). apply Hobs; eauto.
  - exact Hobs.
  - unfold do_pool. cbv zeta.
    assert (Hf : uses (Packaged f)).
    { rewrite Hc, map_app in H5. simpl in H5. forall_split. tauto. }
    destruct (sheds loadCheck e (machine c)) eqn:Hshed;
      cbn [machine finished].
    + rewrite (pool_call_sheds e _ _ Hshed). intros Hex.
      apply Hrun; auto.
    + rewrite (pool_call_queues e _ _ Hshed). exact Hobs.
  - destruct Hs as [c q1 [tok u] q2 Hq|c r1 u r2 Hr|c tok g Hu];
      cbn [machine finished moved ran]; try exact Hobs.
    intros Hex. apply Hrun; auto.
    rewrite Hr in H5. forall_split. tauto.
  - unfold csteal, ThreadPool.tryExecuteNext. cbv zeta.
    unfold queue in *.
    destruct (work_ (pool_ (machine c))) as [|[tok u] rest] eqn:Hq;
      cbn [machine finished moved ran fst]; [exact Hobs|].
    intros Hex. apply Hrun; auto.
    simpl in H5. forall_split. tauto.
  - cbn [machine finished creraise].
    destruct (rethrowCaptured_effect (machine c)) as (_ & _ & _ & _ & Hw & _).
    cbv zeta in Hw. now rewrite Hw.
Qed.

Lemma observed_primitives (P : World -> Prop) c c' :
  (forall u, uses u -> preserves P u) ->
  cprimitives uses loadCheck c c' ->
  cinv uses c -> observed P c -> observed P c'.
Proof.
  intros Hkeep H. induction H as [a b Hab| |a b d H1 IH1 H2 IH2]; auto.
  - now apply observed_primitive.
  - intros Hinv Hobs. apply IH2; [eapply cinv_primitives; eauto | auto].
Qed.

(** *** Every step is made of the operations *)

Lemma whole_schedule_steps (h : Handle) (skipRecheck : bool) f c :
  whole_schedule loadCheck h skipRecheck f c =
    match admission (untagged_entry h skipRecheck) f (machine c) with
    | CallInline _ =>
        do_inline (calls c) f [] (entered f (CallInline f) c)
    | _ =>
        let e := untagged_entry h skipRecheck in
        do_pool loadCheck (calls c) f e []
          (do_package (calls c) f e [] (entered f (CallPackage f e) c))
    end.
Proof.
  unfold whole_schedule, admission, do_pool, do_package, do_inline, entered.
  cbv zeta. cbn [machine calls submitted finished raised].
  rewrite app_nil_r.
  destruct (count (machine c) >? loadFactor (machine c)) eqn:Hz.
  - f_equal. unfold schedule_on, TaskSet.schedule, ConcurrentTaskSet.schedule.
    rewrite Hz. unfold call. destruct h; now destruct (f (world (machine c))).
  - assert (Hm : schedule_on loadCheck h skipRecheck f (machine c) =
                 pool_call loadCheck (untagged_entry h skipRecheck) (Packaged f)
                   (fst (TaskSetBase.packageTask f (machine c)))).
    { unfold schedule_on, TaskSet.schedule, ConcurrentTaskSet.schedule.
      rewrite Hz. destruct h; [reflexivity|]. now destruct skipRecheck. }
    change (sheds loadCheck (untagged_entry h skipRecheck)
              (fst (TaskSetBase.packageTask f (machine c))))
      with (sheds loadCheck (untagged_entry h skipRecheck) (machine c)).
    rewrite Hm.
    now destruct (sheds loadCheck (untagged_entry h skipRecheck) (machine c)).
Qed.

Lemma whole_schedule_fq_steps (h : Handle) f c :
  whole_schedule_fq h f c =
    do_pool loadCheck (calls c) f (tagged_entry h) []
      (do_package (calls c) f (tagged_entry h) []
         (entered f (CallPackage f (tagged_entry h)) c)).
Proof.
  unfold whole_schedule_fq, do_pool, do_package, entered, sheds, tagged_entry.
  cbv zeta. cbn [machine calls submitted finished raised snd negb andb].
  rewrite app_nil_r. f_equal. now destruct h.
Qed.

Lemma whole_schedule_primitives (h : Handle) (skipRecheck : bool) f c :
  uses (Packaged f) ->
  cprimitives uses loadCheck c (whole_schedule loadCheck h skipRecheck f c).
Proof.
  intros Hu. rewrite whole_schedule_steps. unfold admission.
  destruct (count (machine c) >? loadFactor (machine c)).
  - apply rt_trans with (entered f (CallInline f) c); apply rt_step.
    + now apply primitive_enter.
    + now apply primitive_inline.
  - cbv zeta.
    eapply rt_trans; [apply rt_trans with
      (entered f (CallPackage f (untagged_entry h skipRecheck)) c)|];
      apply rt_step.
    + now apply primitive_enter.
    + now apply primitive_package.
    + now apply primitive_pool.
Qed.

Lemma whole_schedule_fq_primitives (h : Handle) f c :
  uses (Packaged f) ->
  cprimitives uses loadCheck c (whole_schedule_fq h f c).
Proof.
  intros Hu. rewrite whole_schedule_fq_steps.
  eapply rt_trans; [apply rt_trans with
    (entered f (CallPackage f (tagged_entry h)) c)|]; apply rt_step.
  - now apply primitive_enter.
  - now apply primitive_package.
  - now apply primitive_pool.
Qed.

Lemma ctryWait_loop_primitives n c :
  cprimitives uses loadCheck c (ctryWait_loop n c).
Proof.
  revert c. induction n as [|n IH]; intros c; simpl; [apply rt_refl|].
  destruct (count (machine c) =? 0); [apply rt_refl|].
  eapply rt_trans; [apply rt_step, primitive_steal | apply IH].
Qed.

Lemma ctryWait_primitives n c :
  cprimitives uses loadCheck c (fst (ctryWait n c)).
Proof.
  unfold ctryWait. cbv zeta.
  destruct (count (machine (ctryWait_loop n c)) =? 0); simpl.
  - eapply rt_trans; [apply ctryWait_loop_primitives|].
    apply rt_step, primitive_reraise.
  - apply ctryWait_loop_primitives.
Qed.

Lemma cpool_steps_primitives c c' :
  clos_refl_trans _ (cpool_step uses) c c' -> cprimitives uses loadCheck c c'.
Proof.
  intros H. induction H as [a b Hab| |a b d _ IH1 _ IH2].
  - now apply rt_step, primitive_environment.
  - apply rt_refl.
  - eapply rt_trans; eauto.
Qed.

Lemma cwaiting_primitives c c' :
  cwaiting uses c c' -> cprimitives uses loadCheck c c'.
Proof.
  intros H. induction H as [c Hz|c c2 Hnz Hw IH|c c1 c2 Hs Hw IH].
  - apply rt_refl.
  - eapply rt_trans; [apply rt_step, primitive_steal | exact IH].
  - eapply rt_trans; [apply rt_step, primitive_environment; exact Hs | exact IH].
Qed.

Lemma cdrains_primitives c c2 :
  cdrains uses c c2 -> cprimitives uses loadCheck c c2.
Proof.
  intros (c1 & Hw & Hs).
  eapply rt_trans; [apply cwaiting_primitives | apply cpool_steps_primitives]; eauto.
Qed.

Lemma cwaits_primitives c c' r :
  cwaits uses c c' r -> cprimitives uses loadCheck c c'.
Proof.
  intros (c2 & Hd & -> & _).
  eapply rt_trans; [apply cdrains_primitives; eauto|].
  apply rt_step, primitive_reraise.
Qed.

Lemma cstep_primitives (h : Handle) k c c' :
  cstep uses loadCheck h k c c' -> cprimitives uses loadCheck c c'.
Proof.
  intros H.
  destruct H as [skip f c Hu _|f c Hu _|skip f c Hu _|f c Hu _
                |c l1 f l2 Hc|c l1 f e l2 Hc|c l1 f e l2 Hc
                |c c' Hs|c _|n c _|c c' r _ Hw].
  - now apply whole_schedule_primitives.
  - now apply whole_schedule_fq_primitives.
  - apply rt_step, primitive_enter; auto; unfold admission;
      now destruct (count (machine c) >? loadFactor (machine c)).
  - apply rt_step, primitive_enter; auto.
  - now apply rt_step, primitive_inline.
  - now apply rt_step, primitive_package.
  - now apply rt_step, primitive_pool.
  - now apply rt_step, primitive_environment.
  - apply rt_step, primitive_steal.
  - apply ctryWait_primitives.
  - eapply cwaits_primitives; eauto.
Qed.

Lemma cinv_construct (p : ThreadPool World) (mult : Z) (w : World) :
  owned (map snd (work_ p)) = 0%nat ->
  owned (running_ p) = 0%nat ->
  Forall uses (map snd (work_ p) ++ running_ p) ->
  cinv uses (cconstruct p mult w).
Proof.
  intros Hq Hr Hu.
  unfold cinv, cconstruct, in_hand, outstanding, units, pending, queued,
    in_flight, queue, running, count, slot; simpl.
  rewrite Hq, Hr, (owned_zero_packaged_of _ Hq), (owned_zero_packaged_of _ Hr).
  repeat split; auto.
Qed.

Lemma creachable_cinv (h : Handle) c :
  creachable uses loadCheck h c -> cinv uses c.
Proof.
  intros H. induction H as [p mult w Hq Hr Hu|k c c' _ IH Hs].
  - now apply cinv_construct.
  - eapply cinv_primitives; [eapply cstep_primitives|]; eauto.
Qed.

Lemma creachable_observed (P : World -> Prop) (h : Handle) c :
  (forall u, uses u -> preserves P u) ->
  creachable uses loadCheck h c -> observed P c.
Proof.
  intros Hkeep H. induction H as [p mult w Hq Hr Hu|k c c' Hc IH Hs].
  - intros (f & [] & _).
  - eapply observed_primitives; eauto using cstep_primitives, creachable_cinv.
Qed.


(** *** What holds when no call is in progress, and after the drain *)

Lemma cinv_accounted c : cinv uses c -> calls c = [] -> accounted (machine c).
Proof.
  intros (H1 & H2 & _) Hc. unfold in_hand in H1. rewrite Hc in H1. simpl in H1.
  split; [lia | exact H2].
Qed.

Lemma cinv_quiet c :
  cinv uses c -> calls c = [] -> count (machine c) = 0 ->
  pending (machine c) = 0%nat /\ Permutation (submitted c) (finished c).
Proof.
  intros (H1 & _ & H3 & _) Hc Hz.
  unfold in_hand, outstanding in *. rewrite Hc in *. simpl in *.
  assert (Hp : pending (machine c) = 0%nat) by lia.
  split; [exact Hp|].
  rewrite pending_lengths in Hp.
  destruct (packaged_of (map snd (queue (machine c)))); [|discriminate].
  destruct (packaged_of (running (machine c))); [|discriminate].
  now rewrite app_nil_r in H3.
Qed.

(** Only the re-raise takes failures off the list. *)
Lemma csteal_raised c : exists d, raised (csteal c) = raised c ++ d.
Proof.
  unfold csteal. destruct (queue (machine c)) as [|[tok u] rest]; simpl.
  - exists []. now rewrite app_nil_r.
  - eauto.
Qed.

Lemma cpool_step_raised c c' :
  cpool_step uses c c' -> exists d, raised c' = raised c ++ d.
Proof.
  intros H. destruct H; simpl; eauto; exists []; now rewrite app_nil_r.
Qed.

Lemma cpool_steps_raised c c' :
  clos_refl_trans _ (cpool_step uses) c c' -> exists d, raised c' = raised c ++ d.
Proof.
  intros H. induction H as [a b Hab| |a b e _ [d1 H1] _ [d2 H2]].
  - eauto using cpool_step_raised.
  - exists []. now rewrite app_nil_r.
  - exists (d1 ++ d2). now rewrite H2, H1, app_assoc.
Qed.

Lemma cwaiting_raised c c' :
  cwaiting uses c c' -> exists d, raised c' = raised c ++ d.
Proof.
  intros H. induction H as [c Hz|c c2 Hnz Hw [d2 H2]|c c1 c2 Hs Hw [d2 H2]].
  - exists []. now rewrite app_nil_r.
  - destruct (csteal_raised c) as [d1 H1].
    exists (d1 ++ d2). now rewrite H2, H1, app_assoc.
  - destruct (cpool_step_raised c c1 Hs) as [d1 H1].
    exists (d1 ++ d2). now rewrite H2, H1, app_assoc.
Qed.

(** The loop of [wait] has been left: the counter is 0 and stays there,
    nothing of the set is left, every closure scheduled has run exactly
    once, and the slot holds the first failure caught. *)
Lemma cdrains_facts c c2 :
  cinv uses c -> calls c = [] -> cdrains uses c c2 ->
  cinv uses c2 /\ calls c2 = [] /\ submitted c2 = submitted c /\
  count (machine c2) = 0 /\ pending (machine c2) = 0%nat /\
  Permutation (submitted c2) (finished c2) /\
  slot (machine c2) = hd_error (raised c2) /\
  exists during, raised c2 = raised c ++ during.
Proof.
  intros Hinv Hc Hd.
  pose proof (cinv_primitives c c2 (cdrains_primitives c c2 Hd) Hinv) as Hinv2.
  destruct (cdrains_machine c c2 Hd) as ((m1 & Hw & Hs) & Hc2 & Hs2).
  rewrite Hc in Hc2.
  destruct (accounted_waiting _ _ (cinv_accounted c Hinv Hc) Hw) as [Ha1 Hz1].
  destruct (drained_steps _ _ Ha1 Hz1 Hs) as [_ Hz2].
  destruct (cinv_quiet c2 Hinv2 Hc2 Hz2) as [Hp2 Hperm].
  split; [exact Hinv2|].
  repeat split; auto.
  - apply Hinv2.
  - destruct Hd as (c1 & Hw' & Hs').
    destruct (cwaiting_raised c c1 Hw') as [d1 H1].
    destruct (cpool_steps_raised c1 c2 Hs') as [d2 H2].
    exists (d1 ++ d2). now rewrite H2, H1, app_assoc.
Qed.

Lemma creraise_facts c :
  count (machine (creraise c)) = count (machine c) /\
  pool_ (machine (creraise c)) = pool_ (machine c) /\
  world (machine (creraise c)) = world (machine c) /\
  history (machine (creraise c)) = history (machine c) /\
  slot (machine (creraise c)) = None /\
  raised (creraise c) = [] /\
  calls (creraise c) = calls c /\
  submitted (creraise c) = submitted c /\
  finished (creraise c) = finished c.
Proof.
  destruct (rethrowCaptured_effect (machine c)) as (_ & Hs & Hc & Hp & Hw & Hh).
  unfold creraise; simpl. repeat split; auto.
Qed.

(** [wait] can return from any configuration in which no call is in
    progress: let the workers finish what they took, then drain the
    queue. *)
Lemma cdrains_exist c :
  cinv uses c -> calls c = [] -> exists c2, cdrains uses c c2.
Proof.
  intros Hinv Hc.
  assert (Hw : exists c1, cwaiting uses c c1).
  { remember (length (running (machine c))) as n eqn:Hn. revert c Hn Hinv Hc.
    induction n as [|n IH]; intros c Hn Hinv Hc.
    - destruct (wait_loop_terminates (machine c) (cinv_accounted c Hinv Hc))
        as [m1 H1].
      + unfold in_flight. destruct (running (machine c)); [reflexivity|discriminate].
      + rewrite cwait_loop_machine in H1.
        destruct (cwait_loop (length (queue (machine c))) c) as [c1|] eqn:E;
          [|discriminate].
        eauto using cwait_loop_waiting.
    - destruct (running (machine c)) as [|u r2] eqn:Hr; [discriminate|].
      assert (Hs : cpool_step uses c
                     (ran u (TaskSetBase.invoke PoolThread u
                               (with_running ([] ++ r2) (machine c))) c))
        by (now apply cpool_finishes).
      destruct (IH (ran u (TaskSetBase.invoke PoolThread u
                             (with_running ([] ++ r2) (machine c))) c))
        as [c2 H2]; [| | |eauto using cwaiting_interleaved].
      + destruct (invoke_accounting PoolThread u (with_running ([] ++ r2) (machine c)))
          as (Hp & _).
        cbn [machine ran]. unfold running. rewrite Hp. simpl. now injection Hn.
      + eapply cinv_primitive; [apply primitive_environment; exact Hs | exact Hinv].
      + exact Hc. }
  destruct Hw as [c1 H1]. exists c1, c1. split; [exact H1 | apply rt_refl].
Qed.

Lemma cwaits_exist c :
  cinv uses c -> calls c = [] -> exists c' r, cwaits uses c c' r.
Proof.
  intros Hinv Hc. destruct (cdrains_exist c Hinv Hc) as [c2 Hd].
  exists (creraise c2), (outcome (slot (machine c2))), c2. auto.
Qed.

(** The loop run by the caller alone, on the machine and on the
    configuration. *)
Lemma wait_lifts fuel c m' r :
  TaskSetCore.wait fuel (machine c) = Some (m', r) ->
  exists c2, cwait_loop fuel c = Some c2 /\ cdrains uses c c2 /\
             m' = machine (creraise c2) /\ r = outcome (slot (machine c2)).
Proof.
  unfold TaskSetCore.wait. rewrite cwait_loop_machine.
  destruct (cwait_loop fuel c) as [c2|] eqn:E; [|discriminate].
  simpl. rewrite rethrowCaptured_outcome. intros H. injection H as <- <-.
  exists c2. repeat split.
  exists c2. split; [eauto using cwait_loop_waiting | apply rt_refl].
Qed.

(** When the program may use any unit, every run of the machine is the
    run of a configuration. *)
Lemma step_lifts c m' :
  (forall u, uses u) ->
  ThreadPool.step (machine c) m' ->
  exists c', cpool_step uses c c' /\ machine c' = m'.
Proof.
  intros Hall H. remember (machine c) as m eqn:Hm.
  destruct H as [m q1 e q2 Hq|m r1 u r2 Hr|m tok g]; subst m.
  - eexists. split; [apply (cpool_takes uses c q1 e q2 Hq) | reflexivity].
  - eexists. split; [apply (cpool_finishes uses c r1 u r2 Hr) | reflexivity].
  - eexists. split; [apply (cpool_other uses c tok g (Hall _)) | reflexivity].
Qed.

Lemma steps_lift m m' :
  (forall u, uses u) ->
  ThreadPool.steps m m' ->
  forall c, machine c = m ->
  exists c', clos_refl_trans _ (cpool_step uses) c c' /\ machine c' = m'.
Proof.
  intros Hall H. induction H as [a b Hab|a|a b d _ IH1 _ IH2]; intros c Hm.
  - subst a. destruct (step_lifts c b Hall Hab) as (c' & Hs & Hm').
    exists c'. split; [now apply rt_step | exact Hm'].
  - exists c. split; [apply rt_refl | exact Hm].
  - destruct (IH1 c Hm) as (c1 & H1 & Hm1).
    destruct (IH2 c1 Hm1) as (c2 & H2 & Hm2).
    exists c2. split; [eapply rt_trans; eauto | exact Hm2].
Qed.

Lemma waiting_lifts m m' :
  (forall u, uses u) ->
  TaskSetCore.waiting m m' ->
  forall c, machine c = m ->
  exists c', cwaiting uses c c' /\ machine c' = m'.
Proof.
  intros Hall H.
  induction H as [m Hz|m m1 ran m2 Hnz Hex Hw IH|m m1 m2 Hs Hw IH]; intros c Hm;
    subst m.
  - exists c. split; [now apply cwaiting_exit | reflexivity].
  - destruct (IH (csteal c)) as (c' & Hw' & Hm').
    + destruct (csteal_machine c) as (-> & _). now rewrite Hex.
    + exists c'. split; [now apply cwaiting_iteration | exact Hm'].
  - destruct (step_lifts c m1 Hall Hs) as (c1 & Hs1 & Hm1).
    destruct (IH c1 Hm1) as (c' & Hw' & Hm').
    exists c'. split; [eapply cwaiting_interleaved; eauto | exact Hm'].
Qed.

Lemma waits_lift c m' r :
  (forall u, uses u) ->
  TaskSetCore.waits (machine c) m' r ->
  exists c2, cdrains uses c c2 /\
             m' = machine (creraise c2) /\ r = outcome (slot (machine c2)).
Proof.
  intros Hall (m1 & m2 & Hw & Hs & Hr).
  destruct (waiting_lifts _ _ Hall Hw c eq_refl) as (c1 & Hw1 & Hm1).
  destruct (steps_lift _ _ Hall Hs c1 Hm1) as (c2 & Hs2 & Hm2).
  exists c2. subst m2. rewrite rethrowCaptured_outcome in Hr.
  injection Hr as <- <-. repeat split. exists c1. auto.
Qed.


(** Whatever a scheduled closure establishes holds once the loop of
    [wait] has been left. *)
Lemma cdrains_observed (P : World -> Prop) (h : Handle) c c2 f :
  (forall u, uses u -> preserves P u) ->
  creachable uses loadCheck h c -> calls c = [] ->
  cdrains uses c c2 ->
  In f (submitted c) -> establishes P f ->
  P (world (machine c2)).
Proof.
  intros Hkeep Hreach Hc Hd Hin Hf.
  pose proof (creachable_cinv h c Hreach) as Hinv.
  destruct (cdrains_facts c c2 Hinv Hc Hd) as (_ & _ & Hs & _ & _ & Hperm & _).
  apply (observed_primitives P c c2 Hkeep (cdrains_primitives c c2 Hd) Hinv
           (creachable_observed P h c Hkeep Hreach)).
  exists f. split; [|exact Hf].
  apply (Permutation_in f Hperm). now rewrite Hs.
Qed.

Lemma cdrains_waits c c2 :
  cdrains uses c c2 -> cwaits uses c (creraise c2) (outcome (slot (machine c2))).
Proof. intros Hd. exists c2. auto. Qed.

(** Once the counter is 0 with no call in progress, nothing the rest of
    the system does moves it. *)
Lemma quiet_stays c m'' :
  cinv uses c -> calls c = [] -> count (machine c) = 0 ->
  ThreadPool.steps (machine c) m'' -> count m'' = 0.
Proof.
  intros Hinv Hc Hz Hs.
  now destruct (drained_steps _ _ (cinv_accounted c Hinv Hc) Hz Hs).
Qed.


(** How the destructor ends, by the failures caught up to the re-raise. *)
Lemma noexcept_exit_reraise c2 :
  slot (machine c2) = hd_error (raised c2) ->
  noexcept_exit (TaskSetBase.rethrowCaptured (machine c2)) =
    match raised c2 with
    | [] => Destroyed (machine c2)
    | e :: _ => Terminated e
    end.
Proof.
  intros Hs. unfold TaskSetBase.rethrowCaptured. rewrite Hs.
  now destruct (raised c2).
Qed.

Lemma cdrains_destroys c c2 :
  cdrains uses c c2 ->
  exists m' r,
    TaskSetCore.waits (machine c) m' r /\
    noexcept_exit (TaskSetBase.rethrowCaptured (machine c2)) = noexcept_exit (m', r).
Proof.
  intros Hd.
  destruct (cwaits_machine c _ _ (cdrains_waits c c2 Hd)) as (Hw & _).
  exists (machine (creraise c2)), (outcome (slot (machine c2))).
  split; [exact Hw|]. now rewrite rethrowCaptured_outcome.
Qed.


(** *** The counter under the admission check *)

Lemma steps_no_growth m m' :
  ThreadPool.steps m m' -> count m' <= count m /\ loadFactor m' = loadFactor m.
Proof.
  intros H. induction H as [a b Hab| |a b d _ [I1 L1] _ [I2 L2]].
  - now apply step_no_growth.
  - split; [lia | reflexivity].
  - split; [lia | congruence].
Qed.

Lemma waiting_no_growth m m' :
  TaskSetCore.waiting m m' -> count m' <= count m /\ loadFactor m' = loadFactor m.
Proof.
  intros H. induction H as [m Hz|m m1 ran m2 Hnz Hex Hw [I L]|m m1 m2 Hs Hw [I L]].
  - split; [lia | reflexivity].
  - destruct (tryExecuteNext_no_growth m) as [I1 L1]. rewrite Hex in I1, L1.
    simpl in I1, L1. split; [lia | congruence].
  - destruct (step_no_growth m m1 Hs) as [I1 L1]. split; [lia | congruence].
Qed.

Lemma waits_no_growth m m' r :
  TaskSetCore.waits m m' r -> count m' <= count m /\ loadFactor m' = loadFactor m.
Proof.
  intros (m1 & m2 & Hw & Hs & Hr).
  destruct (waiting_no_growth m m1 Hw) as [I1 L1].
  destruct (steps_no_growth m1 m2 Hs) as [I2 L2].
  assert (Hm : m' = fst (TaskSetBase.rethrowCaptured m2)) by (now rewrite Hr).
  subst m'. clear Hr. unfold TaskSetBase.rethrowCaptured.
  destruct (slot m2); unfold count, loadFactor in *; simpl;
    (split; [lia | congruence]).
Qed.

Lemma to_package_removed (l1 l2 : list (Call World)) (k : Call World) :
  length (filter (@is_to_package World) (l1 ++ k :: l2)) =
    ((if is_to_package k then 1 else 0) +
     length (filter (@is_to_package World) (l1 ++ l2)))%nat.
Proof.
  rewrite !filter_app, !length_app. simpl.
  destruct (is_to_package k); simpl; lia.
Qed.

Lemma to_package_bound c : (to_package c <= length (calls c))%nat.
Proof. apply filter_length_le. Qed.

(** A thread that goes on with what it is doing does not raise the
    counter beyond the increments already decided. *)
Lemma cstep_continues_bound (h : Handle) c c' :
  cstep uses loadCheck h Continues c c' ->
  count (machine c') + Z.of_nat (to_package c') <=
    count (machine c) + Z.of_nat (to_package c) /\
  loadFactor (machine c') = loadFactor (machine c).
Proof.
  intros H. remember Continues as k eqn:Hk.
  destruct H as [skip f c Hu _|f c Hu _|skip f c Hu _|f c Hu _
                |c l1 f l2 Hc|c l1 f e l2 Hc|c l1 f e l2 Hc
                |c c' Hs|c _|n c _|c c' r _ Hw]; try discriminate; clear Hk;
    unfold to_package.
  - destruct (call_effect CallingThread f (machine c)) as (_ & _ & Hs & _).
    unfold do_inline, count, loadFactor. cbn [machine calls].
    rewrite Hs, Hc, to_package_removed. simpl. split; [lia | reflexivity].
  - unfold do_package. cbn [machine calls].
    rewrite Hc, !to_package_removed.
    change (count (fst (TaskSetBase.packageTask f (machine c))))
      with (count (machine c) + 1).
    cbn [is_to_package]. split; [lia | reflexivity].
  - unfold do_pool. cbv zeta. rewrite Hc, to_package_removed. cbn [is_to_package].
    destruct (sheds loadCheck e (machine c)) eqn:Hshed; cbn [machine calls].
    + rewrite (pool_call_sheds e _ _ Hshed).
      destruct (invoke_accounting CallingThread (Packaged f) (machine c))
        as (_ & Hcnt & Hl & _).
      rewrite Hcnt, Hl. change (weight (Packaged f)) with 1.
      split; [lia | reflexivity].
    + rewrite (pool_call_queues e _ _ Hshed).
      split; [unfold count; simpl; lia | reflexivity].
  - destruct (cpool_step_machine c c' Hs) as (Hm & -> & _).
    destruct (step_no_growth _ _ Hm). split; [lia | assumption].
  - destruct (csteal_machine c) as (Hm & -> & _). rewrite Hm.
    destruct (tryExecuteNext_no_growth (machine c)). split; [lia | assumption].
  - destruct (ctryWait_machine n c) as (Hm & _ & -> & _). rewrite Hm.
    destruct (tryWait_no_growth n (machine c)). split; [lia | assumption].
  - destruct (cwaits_machine c c' r Hw) as (Hm & -> & _).
    destruct (waits_no_growth _ _ _ Hm). split; [lia | assumption].
Qed.

(** A thread that enters the untagged [schedule] while fewer than
    [producers] calls are in progress adds at most one increment, and only
    if it read a count not above the load factor. *)
Lemma cstep_enters_bound (producers : nat) (h : Handle) c c' :
  cstep uses loadCheck h (Enters false) c c' ->
  (length (calls c) < producers)%nat ->
  count (machine c') + Z.of_nat (to_package c') <=
    Z.max (count (machine c) + Z.of_nat (to_package c))
          (loadFactor (machine c) + Z.of_nat producers) /\
  loadFactor (machine c') = loadFactor (machine c).
Proof.
  intros H Hn. pose proof (to_package_bound c) as Hb.
  remember (Enters false) as k eqn:Hk.
  destruct H as [skip f c Hu _|f c Hu _|skip f c Hu _|f c Hu _
                |c l1 f l2 Hc|c l1 f e l2 Hc|c l1 f e l2 Hc
                |c c' Hs|c _|n c _|c c' r _ Hw]; try discriminate; clear Hk.
  - assert (Hcalls : to_package (whole_schedule loadCheck h skip f c) = to_package c).
    { unfold to_package, whole_schedule. cbv zeta.
      destruct (count (machine c) >? loadFactor (machine c)); [reflexivity|].
      now destruct (sheds loadCheck (untagged_entry h skip) (machine c)). }
    assert (Hm : machine (whole_schedule loadCheck h skip f c) =
                 schedule_on loadCheck h skip f (machine c)).
    { unfold whole_schedule. cbv zeta.
      destruct (count (machine c) >? loadFactor (machine c)); [reflexivity|].
      now destruct (sheds loadCheck (untagged_entry h skip) (machine c)). }
    rewrite Hcalls, Hm.
    destruct (schedule_on_effect loadCheck h skip f (machine c))
      as [(Hlt & ->)|[(Hge & _ & ->)|(Hge & _ & ->)]].
    + destruct (call_effect CallingThread f (machine c)) as (_ & _ & Hs & _).
      unfold count, loadFactor. rewrite Hs. split; [lia | reflexivity].
    + destruct (package_then_enqueue (token_of h) f (machine c))
        as (_ & _ & _ & _ & Hcnt & Hl & _).
      rewrite Hcnt, Hl. split; [lia | reflexivity].
    + destruct (package_then_shed f (machine c)) as (_ & _ & _ & Hcnt & Hl & _).
      rewrite Hcnt, Hl. split; [lia | reflexivity].
  - unfold to_package, entered, admission. cbn [machine calls].
    rewrite filter_app, length_app.
    destruct (count (machine c) >? loadFactor (machine c)) eqn:Hz; simpl.
    + unfold to_package. split; [lia | reflexivity].
    + apply gtb_nlt in Hz. unfold to_package in *. split; [lia | reflexivity].
Qed.

Lemma admitted_bound (producers : nat) (h : Handle) c c' :
  admitted uses loadCheck producers h c c' ->
  count (machine c') + Z.of_nat (to_package c') <=
    Z.max (count (machine c) + Z.of_nat (to_package c))
          (loadFactor (machine c) + Z.of_nat producers) /\
  loadFactor (machine c') = loadFactor (machine c).
Proof.
  intros [H|[H Hn]].
  - destruct (cstep_continues_bound h c c' H). split; [lia | assumption].
  - now apply (cstep_enters_bound producers h).
Qed.


(** *** [tryWait] under interleaving *)

Lemma ctryWait_loop_trying n c :
  ctryWaiting uses n c (ctryWait_loop n c).
Proof.
  revert c. induction n as [|n IH]; intros c; simpl.
  - apply ctryWaiting_exit. now left.
  - destruct (count (machine c) =? 0) eqn:Hz.
    + apply ctryWaiting_exit. right. now apply Z.eqb_eq.
    + apply Z.eqb_neq in Hz. now apply ctryWaiting_iteration.
Qed.

(** The call made by a caller alone is one of the interleavings. *)
Lemma ctryWait_tries n c :
  ctryWaits uses n c (fst (ctryWait n c)) (snd (ctryWait n c)).
Proof.
  exists (ctryWait_loop n c), (ctryWait_loop n c).
  split; [apply ctryWait_loop_trying|]. split; [apply rt_refl|].
  unfold ctryWait. cbv zeta.
  destruct (count (machine (ctryWait_loop n c)) =? 0) eqn:Hz.
  - left. apply Z.eqb_eq in Hz. auto.
  - right. apply Z.eqb_neq in Hz. auto.
Qed.

Lemma ctryWaiting_primitives n c c' :
  ctryWaiting uses n c c' -> cprimitives uses loadCheck c c'.
Proof.
  intros H. induction H as [n c Hz|n c c2 Hnz Hw IH|n c c1 c2 Hs Hw IH].
  - apply rt_refl.
  - eapply rt_trans; [apply rt_step, primitive_steal | exact IH].
  - eapply rt_trans; [apply rt_step, primitive_environment; exact Hs | exact IH].
Qed.

Lemma ctryWaiting_raised n c c' :
  ctryWaiting uses n c c' -> exists d, raised c' = raised c ++ d.
Proof.
  intros H. induction H as [n c Hz|n c c2 Hnz Hw [d2 H2]|n c c1 c2 Hs Hw [d2 H2]].
  - exists []. now rewrite app_nil_r.
  - destruct (csteal_raised c) as [d1 H1].
    exists (d1 ++ d2). now rewrite H2, H1, app_assoc.
  - destruct (cpool_step_raised c c1 Hs) as [d1 H1].
    exists (d1 ++ d2). now rewrite H2, H1, app_assoc.
Qed.

(** Stolen units are called on the calling thread, at most as many as the
    bound; what the rest of the system runs, it runs elsewhere. *)
Lemma ctryWaits_facts n c c' r :
  cinv uses c -> ctryWaits uses n c c' r ->
  exists c2 during,
    cprimitives uses loadCheck c c2 /\
    raised c2 = raised c ++ during /\
    slot (machine c2) = hd_error (raised c2) /\
    ((count (machine c2) <> 0 /\ c' = c2 /\ r = Returned false) \/
     (count (machine c2) = 0 /\ c' = creraise c2 /\
      r = match hd_error (raised c2) with
          | Some e => Thrown e
          | None => Returned true
          end /\
      slot (machine c') = None /\ raised c' = [])).
Proof.
  intros Hinv (c1 & c2 & Hw & Hs & Hend).
  assert (Hp : cprimitives uses loadCheck c c2)
    by (eapply rt_trans;
        [apply (ctryWaiting_primitives n) | apply cpool_steps_primitives]; eauto).
  pose proof (cinv_primitives c c2 Hp Hinv) as (_ & _ & _ & Hslot & _).
  destruct (ctryWaiting_raised n c c1 Hw) as [d1 H1].
  destruct (cpool_steps_raised c1 c2 Hs) as [d2 H2].
  exists c2, (d1 ++ d2).
  split; [exact Hp|].
  split; [now rewrite H2, H1, app_assoc|]. split; [exact Hslot|].
  destruct Hend as [(Hz & -> & ->)|(Hnz & -> & ->)]; [right | left; auto].
  destruct (creraise_facts c2) as (_ & _ & _ & _ & Rs & Rr & _).
  rewrite <- Hslot. auto.
Qed.


End ConfigFacts.

(** C3.  Take any configuration a program can reach by constructing a
    task set and scheduling on it, the calls being interleaved operation by
    operation with each other, with the pool's workers and with other
    producers, and let [wait] be called when no [schedule] call is in
    progress.  Then [wait] can return; and whenever it returns, under any
    interleaving, the counter is exactly 0, no task of the set is queued or
    running, every increment has met its decrement, the closures that have
    been called to their end are exactly the closures that were scheduled,
    each once, so that whatever one of them establishes in the memory (and
    the units the program uses keep) holds, and the counter stays at 0
    whatever the rest of the system does next.  The loop run by the caller
    alone is one of these runs, and it returns when no worker holds a task
    of the set. *)
Theorem C3_wait_drains_the_set :
  forall (World : Type) (uses : UnitOfWork World -> Prop)
         (loadCheck : ThreadPool World -> bool) (h : Handle) (c : Config World),
    creachable uses loadCheck h c ->
    calls c = [] ->
    (exists c' r, cwaits uses c c' r) /\
    (forall c' r,
       cwaits uses c c' r ->
       (TaskSet.waits (machine c) (machine c') r /\
        ConcurrentTaskSet.waits (machine c) (machine c') r) /\
       count (machine c') = 0 /\ pending (machine c') = 0%nat /\
       balance (history (machine c')) = 0 /\
       submitted c' = submitted c /\
       Permutation (submitted c') (finished c') /\
       (forall (P : World -> Prop) (f : Functor World),
          (forall u, uses u -> preserves P u) ->
          In f (submitted c) -> establishes P f ->
          P (world (machine c'))) /\
       (forall m'', ThreadPool.steps (machine c') m'' -> count m'' = 0)) /\
    (forall m' r,
       TaskSet.waits (machine c) m' r \/ ConcurrentTaskSet.waits (machine c) m' r ->
       count m' = 0 /\ pending m' = 0%nat /\
       ((forall u, uses u) -> exists c', cwaits uses c c' r /\ machine c' = m')) /\
    (forall fuel m' r,
       TaskSet.wait fuel (machine c) = Some (m', r) \/
       ConcurrentTaskSet.wait fuel (machine c) = Some (m', r) ->
       exists c', cwaits uses c c' r /\ machine c' = m') /\
    (in_flight (machine c) = 0%nat ->
     exists m' r,
       TaskSet.wait (length (queue (machine c))) (machine c) = Some (m', r) /\
       ConcurrentTaskSet.wait (length (queue (machine c))) (machine c) = Some (m', r)).
Proof.
  intros World uses loadCheck h c Hreach Hc.
  pose proof (creachable_cinv uses loadCheck h c Hreach) as Hinv.
  pose proof (cinv_accounted uses c Hinv Hc) as Hacc.
  split; [now apply (cwaits_exist uses loadCheck)|].
  split; [|split; [|split]].
  - intros c' r Hw.
    destruct (cwaits_machine uses c c' r Hw) as (Hm & _ & _).
    destruct Hw as (c2 & Hd & -> & ->).
    destruct (cdrains_facts uses loadCheck c c2 Hinv Hc Hd)
      as (Hinv2 & Hc2 & Hs2 & Hz2 & Hp2 & Hperm & _).
    destruct (creraise_facts c2) as (Rc & Rp & Rw & Rh & _ & _ & Rcalls & Rs & Rf).
    pose proof (cinv_primitive uses loadCheck c2 (creraise c2)
                  (primitive_reraise uses loadCheck c2) Hinv2) as Hinv'.
    split; [now split|].
    split; [congruence|].
    split; [now rewrite (pending_pool _ _ Rp)|].
    split; [destruct Hinv2 as (_ & Hb & _); rewrite Rh; lia|].
    split; [congruence|].
    split; [now rewrite Rs, Rf|].
    split.
    + intros P f Hkeep Hin Hf. rewrite Rw.
      now apply (cdrains_observed uses loadCheck P h c c2 f).
    + intros m'' Hs.
      apply (quiet_stays uses (creraise c2) m''); auto; congruence.
  - intros m' r Hw.
    assert (Hw' : TaskSetCore.waits (machine c) m' r) by (destruct Hw; assumption).
    destruct (accounted_waits _ _ _ Hacc Hw') as (_ & Hz & Hp).
    repeat split; auto.
    intros Hall. destruct (waits_lift uses c m' r Hall Hw') as (c2 & Hd & -> & ->).
    exists (creraise c2). split; [now apply cdrains_waits | reflexivity].
  - intros fuel m' r Hw.
    assert (Hw' : TaskSetCore.wait fuel (machine c) = Some (m', r))
      by (destruct Hw; assumption).
    destruct (wait_lifts uses fuel c m' r Hw') as (c2 & _ & Hd & -> & ->).
    exists (creraise c2). split; [now apply cdrains_waits | reflexivity].
  - intros Hfl. destruct (wait_loop_terminates (machine c) Hacc Hfl) as [m1 H1].
    exists (fst (TaskSetBase.rethrowCaptured m1)), (snd (TaskSetBase.rethrowCaptured m1)).
    unfold TaskSet.wait, ConcurrentTaskSet.wait, TaskSetCore.wait.
    rewrite H1, <- surjective_pairing. auto.
Qed.

Lemma C3_witness :
  exists m',
    TaskSet.wait 1 (machine Examples.cscheduledOnce) = Some (m', Returned tt) /\
    count m' = 0 /\ pending m' = 0%nat /\ In 1%nat (world m').
Proof.
  assert (Hreach : creachable Examples.keepsFlags ThreadPool.neverSheds
                     (OfTaskSet 7%nat) Examples.cscheduledOnce).
  { apply creachable_step with (k := Enters false) (c := Examples.cfresh).
    - apply creachable_construct; [reflexivity | reflexivity | constructor].
    - apply cstep_schedule; [|reflexivity].
      intros n w Hin. right. exact Hin. }
  destruct (C3_wait_drains_the_set Examples.Flags Examples.keepsFlags
              ThreadPool.neverSheds (OfTaskSet 7%nat) Examples.cscheduledOnce
              Hreach eq_refl) as (_ & Hall & _ & Hfun & _).
  assert (E : TaskSet.wait 1 (machine Examples.cscheduledOnce) =
              Some (fst (ThreadPool.tryExecuteNext (machine Examples.cscheduledOnce)),
                    Returned tt))
    by (vm_compute; reflexivity).
  eexists. split; [exact E|].
  destruct (Hfun 1%nat _ _ (or_introl E)) as (c' & Hw & Hm).
  destruct (Hall c' _ Hw) as (_ & Hz & Hp & _ & _ & _ & HP & _).
  rewrite <- Hm. split; [exact Hz|]. split; [exact Hp|].
  apply (HP (fun w => In 1%nat w) (Examples.setFlag 1)).
  - intros u Hu. apply Hu.
  - left. reflexivity.
  - intros w. left. reflexivity.
Defined.

(** C9.  The destructor of either front end is [wait] in a [noexcept]
    function.  From any configuration a program can reach, with no
    [schedule] call in progress, it can end; and whenever its loop is left,
    under any interleaving, no task scheduled through the object is queued
    or running, the counter is 0, every closure scheduled has been called
    to its end exactly once and what it established holds.  What happens
    next is decided by the failures caught before or during the drain: if
    there is none the destructor returns, in that very machine; otherwise
    the first one caught is re-raised inside the destructor, which ends
    the program ([std::terminate]) instead of discarding the failure.  The
    loop run by the caller alone is one of these runs, and it ends when no
    worker holds a task of the set. *)
Theorem C9_destructor_waits :
  forall (World : Type) (uses : UnitOfWork World -> Prop)
         (loadCheck : ThreadPool World -> bool) (h : Handle) (c : Config World),
    creachable uses loadCheck h c ->
    calls c = [] ->
    (exists d,
       TaskSet.destroys (machine c) d /\ ConcurrentTaskSet.destroys (machine c) d) /\
    (forall c2,
       cdrains uses c c2 ->
       let d := noexcept_exit (TaskSetBase.rethrowCaptured (machine c2)) in
       (TaskSet.destroys (machine c) d /\ ConcurrentTaskSet.destroys (machine c) d) /\
       count (machine c2) = 0 /\ pending (machine c2) = 0%nat /\
       submitted c2 = submitted c /\
       Permutation (submitted c2) (finished c2) /\
       (forall (P : World -> Prop) (f : Functor World),
          (forall u, uses u -> preserves P u) ->
          In f (submitted c) -> establishes P f ->
          P (world (machine c2))) /\
       (exists during, raised c2 = raised c ++ during) /\
       d = match raised c2 with
           | [] => Destroyed (machine c2)
           | e :: _ => Terminated e
           end) /\
    (forall d,
       TaskSet.destroys (machine c) d \/ ConcurrentTaskSet.destroys (machine c) d ->
       (forall m', d = Destroyed m' ->
                   count m' = 0 /\ pending m' = 0%nat /\ slot m' = None) /\
       (forall e, slot (machine c) = Some e -> d = Terminated e) /\
       ((forall u, uses u) ->
        exists c2,
          cdrains uses c c2 /\
          d = noexcept_exit (TaskSetBase.rethrowCaptured (machine c2)))) /\
    (forall fuel d,
       TaskSet.destroy fuel (machine c) = Some d \/
       ConcurrentTaskSet.destroy fuel (machine c) = Some d ->
       exists c2,
         cdrains uses c c2 /\
         d = noexcept_exit (TaskSetBase.rethrowCaptured (machine c2))) /\
    (in_flight (machine c) = 0%nat ->
     exists d,
       TaskSet.destroy (length (queue (machine c))) (machine c) = Some d /\
       ConcurrentTaskSet.destroy (length (queue (machine c))) (machine c) = Some d).
Proof.
  intros World uses loadCheck h c Hreach Hc.
  pose proof (creachable_cinv uses loadCheck h c Hreach) as Hinv.
  pose proof (cinv_accounted uses c Hinv Hc) as Hacc.
  split; [|split; [|split; [|split]]].
  - destruct (cdrains_exist uses loadCheck c Hinv Hc) as [c2 Hd].
    destruct (cdrains_destroys uses c c2 Hd) as (m' & r & Hw & _).
    exists (noexcept_exit (m', r)). split; exists m', r; auto.
  - intros c2 Hd d.
    destruct (cdrains_facts uses loadCheck c c2 Hinv Hc Hd)
      as (_ & _ & Hs2 & Hz2 & Hp2 & Hperm & Hslot & Hduring).
    destruct (cdrains_destroys uses c c2 Hd) as (m' & r & Hw & Hex).
    split; [split; exists m', r; auto|].
    repeat split; auto.
    + intros P f Hkeep Hin Hf.
      now apply (cdrains_observed uses loadCheck P h c c2 f).
    + now apply noexcept_exit_reraise.
  - intros d Hd.
    assert (Hd' : exists m' r, TaskSetCore.waits (machine c) m' r /\
                               d = noexcept_exit (m', r))
      by (destruct Hd; assumption).
    destruct Hd' as (m1 & r & Hw & ->).
    destruct (accounted_waits _ _ _ Hacc Hw) as (_ & Hz & Hp).
    destruct (waits_outcome _ _ _ Hw) as (Hnone & Hkept & _).
    split; [|split].
    + intros m' E. destruct r as [[]|e]; [|discriminate].
      injection E as <-. auto.
    + intros e He. now rewrite (Hkept e He).
    + intros Hall. destruct (waits_lift uses c m1 r Hall Hw) as (c2 & Hd2 & -> & ->).
      exists c2. split; [exact Hd2|]. now rewrite rethrowCaptured_outcome.
  - intros fuel d Hd.
    assert (Hd' : match TaskSetCore.wait fuel (machine c) with
                  | Some x => Some (noexcept_exit x)
                  | None => None
                  end = Some d) by (destruct Hd; assumption).
    destruct (TaskSetCore.wait fuel (machine c)) as [[m1 r]|] eqn:E; [|discriminate].
    injection Hd' as <-.
    destruct (wait_lifts uses fuel c m1 r E) as (c2 & _ & Hd2 & -> & ->).
    exists c2. split; [exact Hd2|]. now rewrite rethrowCaptured_outcome.
  - intros Hfl. destruct (wait_loop_terminates (machine c) Hacc Hfl) as [m1 H1].
    exists (noexcept_exit (TaskSetBase.rethrowCaptured m1)).
    unfold TaskSet.destroy, ConcurrentTaskSet.destroy, TaskSet.wait,
      ConcurrentTaskSet.wait, TaskSetCore.wait.
    rewrite H1. auto.
Qed.

Lemma C9_witness :
  ConcurrentTaskSet.destroy 3 (machine Examples.cthreeQueued)
    = Some (Terminated "first"%string) /\
  raised Examples.cthreeDrained = ["first"%string; "second"%string] /\
  count (machine Examples.cthreeDrained) = 0 /\
  In 3%nat (world (machine Examples.cthreeDrained)).
Proof.
  assert (Hflags : forall n what, Examples.keepsFlags (Packaged (Examples.failing n what)))
    by (intros n what k w Hin; right; exact Hin).
  assert (Hreach : creachable Examples.keepsFlags ThreadPool.neverSheds
                     OfConcurrentTaskSet Examples.cthreeQueued).
  { eapply creachable_step with (k := Enters true);
      [|apply cstep_schedule_fq; [|exact I]].
    eapply creachable_step with (k := Enters true);
      [|apply cstep_schedule_fq; [apply Hflags | exact I]].
    eapply creachable_step with (k := Enters true);
      [|apply cstep_schedule_fq; [apply Hflags | exact I]].
    - apply creachable_construct; [reflexivity | reflexivity | constructor].
    - intros k w Hin. right. exact Hin. }
  assert (Hd : cdrains Examples.keepsFlags Examples.cthreeQueued Examples.cthreeDrained).
  { exists Examples.cthreeDrained. split; [|apply rt_refl].
    apply (cwait_loop_waiting Examples.keepsFlags 3). vm_compute. reflexivity. }
  destruct (C9_destructor_waits Examples.Flags Examples.keepsFlags
              ThreadPool.neverSheds OfConcurrentTaskSet Examples.cthreeQueued
              Hreach eq_refl) as (_ & H & _).
  destruct (H Examples.cthreeDrained Hd) as (_ & Hz & _ & _ & _ & HP & _ & _).
  split; [vm_compute; reflexivity|].
  split; [vm_compute; reflexivity|].
  split; [exact Hz|].
  apply (HP (fun w => In 3%nat w) (Examples.setFlag 3)).
  - intros u Hu. apply Hu.
  - right. right. left. reflexivity.
  - intros w. left. reflexivity.
Defined.

(** C6.  At every configuration a program can reach, the slot holds the
    first failure that the wrappers of the pool-executed tasks have caught
    since the last re-raise.  Let [wait] be called with no [schedule] call
    in progress.  Whenever its loop is left, under any interleaving, the
    failures caught so far are those caught before the call followed by
    those caught during the drain; if there is at least one, [wait]
    re-raises the first of them and only that one, otherwise it returns
    normally; in both cases the slot is empty and the list of failures is
    empty afterwards: the others are gone.  So a second [wait] returns
    normally, and so does the [wait] that follows a fresh batch of tasks
    that do not throw.  [tryWait], under any interleaving, does the same
    when it finds the counter at 0, and otherwise returns false and keeps
    the first failure for later. *)
Theorem C6_first_failure_wins :
  forall (World : Type) (uses : UnitOfWork World -> Prop)
         (loadCheck : ThreadPool World -> bool) (h : Handle) (c : Config World),
    creachable uses loadCheck h c ->
    calls c = [] ->
    slot (machine c) = hd_error (raised c) /\
    (exists c' r, cwaits uses c c' r) /\
    (forall c2,
       cdrains uses c c2 ->
       (exists during, raised c2 = raised c ++ during) /\
       slot (machine c2) = hd_error (raised c2) /\
       cwaits uses c (creraise c2) (outcome (hd_error (raised c2))) /\
       TaskSet.waits (machine c) (machine (creraise c2))
         (outcome (hd_error (raised c2))) /\
       ConcurrentTaskSet.waits (machine c) (machine (creraise c2))
         (outcome (hd_error (raised c2)))) /\
    (forall c' r,
       cwaits uses c c' r ->
       (exists c2, cdrains uses c c2 /\ c' = creraise c2 /\
                   r = outcome (hd_error (raised c2))) /\
       slot (machine c') = None /\ raised c' = [] /\
       creachable uses loadCheck h c' /\ calls c' = [] /\
       (forall c'' r', cwaits uses c' c'' r' -> r' = Returned tt) /\
       (forall gs m4 r',
          Forall never_throws gs ->
          TaskSetCore.waits (schedule_batch h gs (machine c')) m4 r' ->
          r' = Returned tt)) /\
    (forall m' r,
       TaskSet.waits (machine c) m' r \/ ConcurrentTaskSet.waits (machine c) m' r ->
       (forall u, uses u) ->
       exists c2, cdrains uses c c2 /\ m' = machine (creraise c2) /\
                  r = outcome (hd_error (raised c2))) /\
    (forall k c' r,
       ctryWaits uses k c c' r ->
       exists c2 during,
         raised c2 = raised c ++ during /\
         slot (machine c2) = hd_error (raised c2) /\
         ((count (machine c2) <> 0 /\ c' = c2 /\ r = Returned false) \/
          (count (machine c2) = 0 /\ c' = creraise c2 /\
           r = match hd_error (raised c2) with
               | Some e => Thrown e
               | None => Returned true
               end /\
           slot (machine c') = None /\ raised c' = []))) /\
    (forall k,
       ctryWaits uses k c (fst (ctryWait k c)) (snd (ctryWait k c)) /\
       machine (fst (ctryWait k c)) = fst (TaskSet.tryWait k (machine c)) /\
       snd (ctryWait k c) = snd (TaskSet.tryWait k (machine c)) /\
       ConcurrentTaskSet.tryWait k (machine c) = TaskSet.tryWait k (machine c)).
Proof.
  intros World uses loadCheck h c Hreach Hc.
  pose proof (creachable_cinv uses loadCheck h c Hreach) as Hinv.
  pose proof (cinv_accounted uses c Hinv Hc) as Hacc.
  assert (Hdr : forall c2, cdrains uses c c2 ->
            (exists during, raised c2 = raised c ++ during) /\
            slot (machine c2) = hd_error (raised c2) /\
            cwaits uses c (creraise c2) (outcome (hd_error (raised c2)))).
  { intros c2 Hd.
    destruct (cdrains_facts uses loadCheck c c2 Hinv Hc Hd)
      as (_ & _ & _ & _ & _ & _ & Hslot & Hduring).
    repeat split; auto. rewrite <- Hslot. now apply cdrains_waits. }
  split; [apply Hinv|].
  split; [now apply (cwaits_exist uses loadCheck)|].
  split; [|split; [|split; [|split]]].
  - intros c2 Hd. destruct (Hdr c2 Hd) as (Hduring & Hslot & Hw).
    destruct (cwaits_machine uses c _ _ Hw) as (Hm & _).
    repeat split; auto.
  - intros c' r Hw.
    assert (Hreach' : creachable uses loadCheck h c')
      by (eapply creachable_step; [exact Hreach | eapply cstep_wait; eauto]).
    pose proof (creachable_cinv uses loadCheck h c' Hreach') as Hinv'.
    destruct Hw as (c2 & Hd & -> & ->).
    destruct (cdrains_facts uses loadCheck c c2 Hinv Hc Hd)
      as (_ & Hc2 & _ & Hz2 & Hp2 & _ & Hslot & _).
    destruct (creraise_facts c2) as (Rc & Rp & _ & _ & Rs & Rr & Rcalls & _).
    assert (Hcalm : calm (machine (creraise c2))).
    { apply calm_of_drained; [|exact Rs]. now rewrite (pending_pool _ _ Rp). }
    split; [exists c2; repeat split; auto; now rewrite Hslot|].
    split; [exact Rs|]. split; [exact Rr|]. split; [exact Hreach'|].
    split; [congruence|]. split.
    + intros c'' r' Hw'.
      destruct (cwaits_machine uses _ _ _ Hw') as (Hm' & _).
      eapply calm_waits; eauto.
    + intros gs m4 r' Hgs Hw'.
      eapply calm_waits; [|exact Hw']. now apply calm_schedule_batch.
  - intros m' r Hw Hall.
    assert (Hw' : TaskSetCore.waits (machine c) m' r) by (destruct Hw; assumption).
    destruct (waits_lift uses c m' r Hall Hw') as (c2 & Hd & -> & ->).
    destruct (Hdr c2 Hd) as (_ & Hslot & _).
    exists c2. repeat split; auto. now rewrite Hslot.
  - intros k c' r Hw.
    destruct (ctryWaits_facts uses loadCheck k c c' r Hinv Hw)
      as (c2 & during & _ & H).
    exists c2, during. exact H.
  - intros k. destruct (ctryWait_machine k c) as (Hm & Hr & _).
    split; [apply ctryWait_tries|]. split; [exact Hm|]. split; [exact Hr|].
    reflexivity.
Qed.

Lemma C6_witness :
  raised Examples.cthreeDrained = ["first"%string; "second"%string] /\
  cwaits Examples.anyUnit Examples.cthreeQueued
    (creraise Examples.cthreeDrained) (Thrown "first"%string) /\
  slot (machine (creraise Examples.cthreeDrained)) = None /\
  snd (ConcurrentTaskSet.tryWait 3 (machine Examples.cthreeQueued))
    = Thrown "first"%string.
Proof.
  assert (Hreach : creachable Examples.anyUnit ThreadPool.neverSheds
                     OfConcurrentTaskSet Examples.cthreeQueued).
  { eapply creachable_step with (k := Enters true);
      [|apply cstep_schedule_fq; exact I].
    eapply creachable_step with (k := Enters true);
      [|apply cstep_schedule_fq; exact I].
    eapply creachable_step with (k := Enters true);
      [|apply cstep_schedule_fq; exact I].
    apply creachable_construct; [reflexivity | reflexivity | constructor]. }
  assert (Hd : cdrains Examples.anyUnit Examples.cthreeQueued Examples.cthreeDrained).
  { exists Examples.cthreeDrained. split; [|apply rt_refl].
    apply (cwait_loop_waiting Examples.anyUnit 3). vm_compute. reflexivity. }
  assert (Hraised : raised Examples.cthreeDrained = ["first"%string; "second"%string])
    by (vm_compute; reflexivity).
  destruct (C6_first_failure_wins Examples.Flags Examples.anyUnit
              ThreadPool.neverSheds OfConcurrentTaskSet Examples.cthreeQueued
              Hreach eq_refl) as (_ & _ & H & Hafter & _).
  destruct (H Examples.cthreeDrained Hd) as (_ & _ & Hw & _).
  rewrite Hraised in Hw. simpl in Hw.
  destruct (Hafter _ _ Hw) as (_ & Hs & _).
  split; [exact Hraised|]. split; [exact Hw|]. split; [exact Hs|].
  vm_compute. reflexivity.
Defined.

(** X1.  The untagged [schedule] is a soft throttle whose slack is the
    number of producers.  As long as no tagged overload is entered and
    never more than [producers] calls are in progress at once, under any
    interleaving of the operations of the calls with each other, with
    workers, steals, [tryWait] and [wait]: the counter, together with the
    increments of the calls that have passed the admission check and not
    packaged their task yet, never exceeds the larger of its starting value
    and the load factor plus [producers]; and the load factor never
    changes.  For a set used by one thread this is the load factor plus
    one. *)
Theorem X1_untagged_schedule_is_throttled :
  forall (World : Type) (uses : UnitOfWork World -> Prop)
         (loadCheck : ThreadPool World -> bool) (producers : nat) (h : Handle)
         (c c' : Config World),
    throttled uses loadCheck producers h c c' ->
    count (machine c') + Z.of_nat (to_package c') <=
      Z.max (count (machine c) + Z.of_nat (to_package c))
            (loadFactor (machine c) + Z.of_nat producers) /\
    loadFactor (machine c') = loadFactor (machine c).
Proof.
  intros World uses loadCheck producers h c c' H.
  induction H as [a b Hab| |a b d _ [IH1 IL1] _ [IH2 IL2]].
  - exact (admitted_bound uses loadCheck producers h a b Hab).
  - split; [lia | reflexivity].
  - rewrite IL1 in IH2. split; [lia | congruence].
Qed.

Lemma X1_witness :
  count (machine Examples.catThreshold) = 4 /\
  loadFactor (machine Examples.catThreshold) = 4 /\
  count (machine Examples.cbothQueued) = 6 /\
  count (machine Examples.cbothQueued) <= 4 + 2.
Proof.
  assert (Hrun : throttled Examples.anyUnit ThreadPool.neverSheds 2
                   OfConcurrentTaskSet Examples.catThreshold Examples.cbothQueued).
  { unfold Examples.cbothQueued, Examples.cbothLoaded. cbv zeta.
    eapply rt_trans; [apply rt_step; right; split;
                      [apply cstep_load with (skipRecheck := false); exact I
                      | simpl; lia]|].
    eapply rt_trans; [apply rt_step; right; split;
                      [apply cstep_load with (skipRecheck := false); exact I
                      | simpl; lia]|].
    eapply rt_trans; [apply rt_step; left;
                      apply cstep_package with (l1 := @nil (Call Examples.Flags))
                        (f := Examples.setFlag 5) (e := (None, false))
                        (l2 := [CallPackage (Examples.setFlag 6) (None, false)]);
                      reflexivity|].
    eapply rt_trans; [apply rt_step; left;
                      apply cstep_pool with (l1 := @nil (Call Examples.Flags))
                        (f := Examples.setFlag 5) (e := (None, false))
                        (l2 := [CallPackage (Examples.setFlag 6) (None, false)]);
                      reflexivity|].
    eapply rt_trans; [apply rt_step; left;
                      apply cstep_package with (l1 := @nil (Call Examples.Flags))
                        (f := Examples.setFlag 6) (e := (None, false))
                        (l2 := @nil (Call Examples.Flags));
                      reflexivity|].
    apply rt_step; left.
    apply cstep_pool with (l1 := @nil (Call Examples.Flags))
      (f := Examples.setFlag 6) (e := (None, false))
      (l2 := @nil (Call Examples.Flags)).
    reflexivity. }
  destruct (X1_untagged_schedule_is_throttled Examples.Flags Examples.anyUnit
              ThreadPool.neverSheds 2 OfConcurrentTaskSet
              Examples.catThreshold Examples.cbothQueued Hrun) as [Hb _].
  assert (Hq : to_package Examples.cbothQueued = 0%nat) by reflexivity.
  assert (H0 : count (machine Examples.catThreshold) = 4) by reflexivity.
  assert (Hl : loadFactor (machine Examples.catThreshold) = 4) by reflexivity.
  assert (Ht : to_package Examples.catThreshold = 0%nat) by reflexivity.
  rewrite Hq, H0, Hl, Ht in Hb.
  split; [exact H0|]. split; [exact Hl|]. split; [reflexivity | lia].
Defined.

(** X9.  After a [wait] that has returned, the destructor has nothing
    left to do: it returns at once and normally, executes nothing and
    leaves the machine as it is; and under any interleaving, as long as
    nothing new is scheduled, it returns and does not end the program. *)
Theorem X9_destructor_after_wait_is_a_no_op :
  forall (World : Type) (loadCheck : ThreadPool World -> bool) (h : Handle)
         (m m' : Machine World) (r : Result unit),
    reachable loadCheck h m ->
    TaskSet.waits m m' r \/ ConcurrentTaskSet.waits m m' r ->
    TaskSet.destroy 0 m' = Some (Destroyed m') /\
    ConcurrentTaskSet.destroy 0 m' = Some (Destroyed m') /\
    (forall d,
       TaskSet.destroys m' d \/ ConcurrentTaskSet.destroys m' d ->
       exists m'', d = Destroyed m'' /\ count m'' = 0 /\ slot m'' = None).
Proof.
  intros World loadCheck h m m' r (c & Hreach & Hc & <-) Hw.
  assert (Hw' : TaskSetCore.waits (machine c) m' r) by (destruct Hw; assumption).
  pose proof (cinv_accounted _ c (creachable_cinv _ loadCheck h c Hreach) Hc) as Hacc.
  destruct (accounted_waits _ m' r Hacc Hw') as (Hacc' & Hz & Hp).
  destruct (waits_outcome _ m' r Hw') as (Hs & _).
  assert (Hd : TaskSetCore.wait 0 m' = Some (m', Returned tt)).
  { unfold TaskSetCore.wait; simpl. rewrite Hz; simpl.
    unfold TaskSetBase.rethrowCaptured. now rewrite Hs. }
  assert (Hd0 : TaskSet.destroy 0 m' = Some (Destroyed m')).
  { unfold TaskSet.destroy, TaskSet.wait. now rewrite Hd. }
  split; [exact Hd0|]. split; [exact Hd0|].
  intros d Hd'.
  assert (Hd'' : exists m'' r', TaskSetCore.waits m' m'' r' /\
                                d = noexcept_exit (m'', r'))
    by (destruct Hd'; assumption).
  destruct Hd'' as (m'' & r' & Hw'' & ->).
  assert (Hr' : r' = Returned tt)
    by (eapply calm_waits; [|exact Hw'']; now apply calm_of_drained).
  subst r'. exists m''. split; [reflexivity|]. split.
  - now destruct (accounted_waits m' m'' _ Hacc' Hw'') as (_ & Hz'' & _).
  - now destruct (waits_outcome m' m'' _ Hw'') as (Hs'' & _).
Qed.

Lemma X9_witness :
  exists m',
    TaskSet.wait 1 Examples.scheduledOnce = Some (m', Returned tt) /\
    TaskSet.destroy 0 m' = Some (Destroyed m').
Proof.
  eexists. split; [vm_compute; reflexivity|].
  assert (Hreach : reachable ThreadPool.neverSheds (OfTaskSet 7%nat)
                     Examples.scheduledOnce).
  { exists Examples.cscheduledOnce. split; [|split; reflexivity].
    apply creachable_step with (k := Enters false) (c := Examples.cfresh).
    - apply creachable_construct; [reflexivity | reflexivity | constructor].
    - apply cstep_schedule; [exact I | reflexivity]. }
  edestruct (X9_destructor_after_wait_is_a_no_op Examples.Flags
               ThreadPool.neverSheds (OfTaskSet 7%nat) Examples.scheduledOnce)
    as (Hd & _).
  - exact Hreach.
  - left. apply (wait_refines 1). vm_compute. reflexivity.
  - exact Hd.
Defined.

(** X10.  The counter counts: at every configuration a program can
    reach, through any of the [schedule] overloads taken operation by
    operation, steals, [tryWait], [wait] and any interleaving with workers
    and other producers, the counter is not negative and equals the number
    of this set's tasks that are queued, being run, or packaged by a
    producer that has not called the pool yet; it is 0 exactly when there
    is none of these.  When no call is in progress it is the number of
    tasks queued or being run. *)
Theorem X10_counter_counts_unfinished_tasks :
  forall (World : Type) (uses : UnitOfWork World -> Prop)
         (loadCheck : ThreadPool World -> bool) (h : Handle) (c : Config World),
    creachable uses loadCheck h c ->
    0 <= count (machine c) /\
    count (machine c) =
      Z.of_nat (queued (machine c)) + Z.of_nat (in_flight (machine c)) +
      Z.of_nat (in_hand c) /\
    (count (machine c) = 0 <->
     queued (machine c) = 0%nat /\ in_flight (machine c) = 0%nat /\
     in_hand c = 0%nat) /\
    (calls c = [] ->
     count (machine c) =
       Z.of_nat (queued (machine c)) + Z.of_nat (in_flight (machine c))).
Proof.
  intros World uses loadCheck h c Hreach.
  destruct (creachable_cinv uses loadCheck h c Hreach) as (H1 & _).
  unfold pending in H1. repeat split; try lia.
  intros Hc. unfold in_hand in H1. rewrite Hc in H1. simpl in H1. lia.
Qed.

Lemma X10_witness :
  count (machine Examples.cinHand) = 1 /\
  queued (machine Examples.cinHand) = 0%nat /\
  in_flight (machine Examples.cinHand) = 0%nat /\
  in_hand Examples.cinHand = 1%nat.
Proof.
  assert (Hreach : creachable Examples.anyUnit ThreadPool.neverSheds
                     OfConcurrentTaskSet Examples.cinHand).
  { apply creachable_step with (k := Continues) (c := Examples.cloading).
    - apply creachable_step with (k := Enters false) (c := Examples.cfresh).
      + apply creachable_construct; [reflexivity | reflexivity | constructor].
      + apply cstep_load with (skipRecheck := false); exact I.
    - apply cstep_package with (l1 := @nil (Call Examples.Flags))
        (f := Examples.setFlag 1) (e := (None, false))
        (l2 := @nil (Call Examples.Flags)).
      reflexivity. }
  destruct (X10_counter_counts_unfinished_tasks Examples.Flags Examples.anyUnit
              ThreadPool.neverSheds OfConcurrentTaskSet Examples.cinHand Hreach)
    as (_ & Hc & _).
  assert (Hq : queued (machine Examples.cinHand) = 0%nat) by reflexivity.
  assert (Hf : in_flight (machine Examples.cinHand) = 0%nat) by reflexivity.
  assert (Hh : in_hand Examples.cinHand = 1%nat) by reflexivity.
  rewrite Hq, Hf, Hh in Hc.
  split; [exact Hc|]. split; [exact Hq|]. split; [exact Hf | exact Hh].
Defined.
